(** * find-pixel-resolution: periodicity analyzer and grid reconstruction

    A shallow embedding of
      - [src/analyzer.js]   ([calculateDFTBin], [analyzePeriodicity]),
      - [src/main.js]       (the column/row difference shaders, the
                             display and down-sampling shaders,
                             [runAnalysis], [updateUI], the download handler),
      - [src/Unity/FindPixelResolutionCli.cs]  ([ReconstructImage], [Update],
                             the rectangle of [OnGUI]),
      - [src/Unity/WindowsFileDrop.cs]         ([OnDrop], [Update]).

    Number model.  JavaScript numbers, GLSL [float]s and C# [float]s are
    modelled as exact real numbers ([R]); [Math.cos], [Math.sin],
    [Math.sqrt] and [Math.atan2] are the real functions.  Rounding error,
    NaN, infinities and signed zeros are therefore outside the model.
    Integers ([int] loop counters, array indices, grid indices) are
    unbounded [Z]; where the 32-bit range of a C# [int] matters it is a
    hypothesis.
    The two [while] loops of [analyzePeriodicity] take a fuel argument and
    return [None] when the fuel is exhausted. *)

From Stdlib Require Import Reals Lra Lia ZArith List.
From Stdlib Require Strings.Ascii Strings.String.
From stdpp Require Import base decidable list gmap.

#[local] Open Scope R_scope.

(** Real comparisons are decided classically, as the tests of the source
    are on numbers. *)
#[global] Instance Rlt_decision (x y : R) : Decision (x < y) := Rlt_dec x y.
#[global] Instance Rgt_decision (x y : R) : Decision (x > y) := Rgt_dec x y.
#[global] Instance Rle_decision (x y : R) : Decision (x <= y) := Rle_dec x y.
#[global] Instance Rge_decision (x y : R) : Decision (x >= y) := Rge_dec x y.
#[global] Instance Req_decision : EqDecision R := Req_dec_T.

(** * src/analyzer.js *)
Module Analyzer.

(** The object returned by [calculateDFTBin]. *)
Record DFTBin : Type := mkDFTBin { magnitude : R; phase : R }.

(** The object returned by [analyzePeriodicity]. *)
Record AxisEstimate : Type :=
  mkAxisEstimate { scale : R; offset : R; confidence : R }.

(** [Math.atan2(y, x)] on real numbers, with values in (-PI, PI]. *)
Definition atan2 (y x : R) : R :=
  if decide (0 < x) then atan (y / x)
  else if decide (x < 0) then
         (if decide (0 <= y) then atan (y / x) + PI else atan (y / x) - PI)
  else if decide (0 < y) then PI / 2
  else if decide (y < 0) then - (PI / 2)
  else 0.

(** analyzer.js:12-17, the accumulation loop over [n = 0 .. N-1];
    [signal] is the part of the array from index [n] on. *)
Fixpoint dftLoop (signal : list R) (angleStep : R) (n : Z) (sumRe sumIm : R)
  : R * R :=
  match signal with
  | [] => (sumRe, sumIm)
  | val :: rest =>
      let angle := angleStep * IZR n in
      dftLoop rest angleStep (n + 1)
              (sumRe + val * cos angle) (sumIm + val * sin angle)
  end.

(** analyzer.js:6-22. *)
Definition calculateDFTBin (signal : list R) (k : R) : DFTBin :=
  let N := IZR (Z.of_nat (length signal)) in
  let angleStep := -2 * PI * k / N in
  let '(sumRe, sumIm) := dftLoop signal angleStep 0 0 0 in
  {| magnitude := sqrt (sumRe * sumRe + sumIm * sumIm);
     phase := atan2 sumIm sumRe |}.

(** analyzer.js:28-29. *)
Definition totalEnergy (data : list R) : R := fold_left Rplus data 0.

(** analyzer.js:35. *)
Definition minK (N : Z) (maxScale : R) : Z :=
  if (Zfloor (IZR N / maxScale) <? 1)%Z then 1%Z
  else Zfloor (IZR N / maxScale).

(** analyzer.js:36. *)
Definition maxK (N : Z) : Z := Zfloor (IZR N / 2).

(** Reading [mageVals[k]]; every index the source reads lies inside the
    array, the default is never returned for those. *)
Definition aget (a : list R) (k : Z) : R := default 0 (a !! Z.to_nat k).

(** Writing [mageVals[k] = v]. *)
Definition aset (a : list R) (k : Z) (v : R) : list R := <[Z.to_nat k := v]> a.

(** The integers [lo, lo+1, ..., hi]  (empty when [hi < lo]). *)
Definition range (lo hi : Z) : list Z := seqZ lo (hi - lo + 1).

(** analyzer.js:42-46, one iteration of the coarse sweep on the state
    [(mageVals, globalMax)]. *)
Definition sweepStep (data : list R) (st : list R * R) (k : Z) : list R * R :=
  let res := calculateDFTBin data (IZR k) in
  (aset (fst st) k (magnitude res),
   if decide (magnitude res > snd st) then magnitude res else snd st).

(** analyzer.js:38-46. *)
Definition coarseSweep (data : list R) (minK maxK : Z) : list R * R :=
  fold_left (sweepStep data) (range minK maxK)
            (replicate (Z.to_nat (maxK + 2)) 0, 0).

(** analyzer.js:58-66, parabolic interpolation at the accepted bin. *)
Definition refine (mageVals : list R) (k : Z) : R :=
  let y1 := aget mageVals (k - 1) in
  let y2 := aget mageVals k in
  let y3 := aget mageVals (k + 1) in
  let d := y1 - 2 * y2 + y3 in
  if decide (d <> 0) then IZR k + (y1 - y3) / (2 * d) else IZR k.

(** analyzer.js:53-71, the scan with its [break]; the state is
    [(chosenK, bestMag)] and [ks] the remaining values of the counter. *)
Fixpoint peakLoop (mageVals : list R) (threshold : R) (ks : list Z)
  (st : R * R) : R * R :=
  match ks with
  | [] => st
  | k :: ks' =>
      if decide (aget mageVals k > aget mageVals (k - 1)
                 /\ aget mageVals k > aget mageVals (k + 1))
      then if decide (aget mageVals k > threshold)
           then (refine mageVals k, aget mageVals k)
           else peakLoop mageVals threshold ks' st
      else peakLoop mageVals threshold ks' st
  end.

(** analyzer.js:75-80, the fallback scan with its [break]. *)
Fixpoint fallbackLoop (mageVals : list R) (globalMax : R) (ks : list Z)
  (chosenK : R) : R :=
  match ks with
  | [] => chosenK
  | k :: ks' =>
      if decide (aget mageVals k = globalMax) then IZR k
      else fallbackLoop mageVals globalMax ks' chosenK
  end.

(** analyzer.js:48-82: the value of [(chosenK, bestMag)] before step 3. *)
Definition choose (mageVals : list R) (globalMax : R) (minK maxK : Z) : R * R :=
  let threshold := globalMax * (4 / 10) in
  let st := peakLoop mageVals threshold (range (minK + 1) (maxK - 1)) (-1, -1) in
  if decide (fst st = -1)
  then (fallbackLoop mageVals globalMax (range minK maxK) (fst st), globalMax)
  else st.

(** analyzer.js:96, [while (offset < 0) offset += scale]. *)
Fixpoint raiseLoop (fuel : nat) (offset scale : R) : option R :=
  match fuel with
  | O => None
  | S fuel' =>
      if decide (offset < 0) then raiseLoop fuel' (offset + scale) scale
      else Some offset
  end.

(** analyzer.js:97, [while (offset >= scale) offset -= scale]. *)
Fixpoint lowerLoop (fuel : nat) (offset scale : R) : option R :=
  match fuel with
  | O => None
  | S fuel' =>
      if decide (offset >= scale) then lowerLoop fuel' (offset - scale) scale
      else Some offset
  end.

(** analyzer.js:24-106. *)
Definition analyzePeriodicity (fuel : nat) (data : list R) (maxScale : R)
  : option AxisEstimate :=
  let N := Z.of_nat (length data) in
  let totalEnergy := totalEnergy data in
  if decide (totalEnergy < 1 / 10000) then
    Some {| scale := 1; offset := 0; confidence := 0 |}
  else
    let minK := minK N maxScale in
    let maxK := maxK N in
    let '(mageVals, globalMax) := coarseSweep data minK maxK in
    let '(chosenK, bestMag) := choose mageVals globalMax minK maxK in
    let finalRes := calculateDFTBin data chosenK in
    let finalPhase := phase finalRes in
    let finalMag := magnitude finalRes in
    let scale := IZR N / chosenK in
    let offset := (- finalPhase * scale) / (2 * PI) in
    match raiseLoop fuel offset scale with
    | None => None
    | Some offset =>
        match lowerLoop fuel offset scale with
        | None => None
        | Some offset =>
            let confidence := finalMag / (totalEnergy / scale) in
            Some {| scale := scale; offset := offset; confidence := confidence |}
        end
    end.

(** ** Names for the intermediate values of [analyzePeriodicity] *)

(** [m[k]]: the magnitude the sweep computes for the integer bin [k]. *)
Definition binMagnitude (data : list R) (k : Z) : R :=
  magnitude (calculateDFTBin data (IZR k)).

(** The value of the counter [k] at which the scan of analyzer.js:53-71
    breaks; [None] when it runs to its end ([peakLoop] then returns its
    initial state, see [peakLoop_peakBin]). *)
Fixpoint peakBin (mageVals : list R) (threshold : R) (ks : list Z) : option Z :=
  match ks with
  | [] => None
  | k :: ks' =>
      if decide (aget mageVals k > aget mageVals (k - 1)
                 /\ aget mageVals k > aget mageVals (k + 1))
      then if decide (aget mageVals k > threshold)
           then Some k
           else peakBin mageVals threshold ks'
      else peakBin mageVals threshold ks'
  end.

(** The test of analyzer.js:54-55 at bin [k], as a proposition. *)
Definition peakTest (mageVals : list R) (threshold : R) (k : Z) : Prop :=
  aget mageVals k > aget mageVals (k - 1)
  /\ aget mageVals k > aget mageVals (k + 1)
  /\ aget mageVals k > threshold.

Definition bandMin (data : list R) (maxScale : R) : Z :=
  minK (Z.of_nat (length data)) maxScale.

Definition bandMax (data : list R) : Z := maxK (Z.of_nat (length data)).

Definition mageValsOf (data : list R) (maxScale : R) : list R :=
  fst (coarseSweep data (bandMin data maxScale) (bandMax data)).

Definition globalMaxOf (data : list R) (maxScale : R) : R :=
  snd (coarseSweep data (bandMin data maxScale) (bandMax data)).

(** The bin accepted by the peak test on the values of the sweep. *)
Definition selectedBin (data : list R) (maxScale : R) : option Z :=
  peakBin (mageValsOf data maxScale) (globalMaxOf data maxScale * (4 / 10))
          (range (bandMin data maxScale + 1) (bandMax data - 1)).

(** The final value of [chosenK]. *)
Definition chosenKOf (data : list R) (maxScale : R) : R :=
  fst (choose (mageValsOf data maxScale) (globalMaxOf data maxScale)
              (bandMin data maxScale) (bandMax data)).

(** The two sums [(sumRe, sumIm)] of [calculateDFTBin] (analyzer.js:7-17),
    before the magnitude and the phase are taken. *)
Definition dftSums (signal : list R) (k : R) : R * R :=
  let N := IZR (Z.of_nat (length signal)) in
  dftLoop signal (-2 * PI * k / N) 0 0 0.

(** The signal [a * s1 + b * s2], sample by sample. *)
Definition linComb (a : R) (s1 : list R) (b : R) (s2 : list R) : list R :=
  zip_with (fun x y => a * x + b * y) s1 s2.

(** The signal [0, 1, 0, 1, 3, 0, 0, 0] (eight columns), used below as a
    concrete input. *)
Definition sig8 : list R := [0; 1; 0; 1; 3; 0; 0; 0].

(** The signal [0, 1] of a two-column image with one edge. *)
Definition edge2 : list R := [0; 1].

End Analyzer.

(** * Colours and float-to-integer conversions shared by the shaders and the C# code *)

(** A GLSL [vec4] used as a colour, and a Unity [Color]. *)
Record RGBA : Type := mkRGBA { red : R; green : R; blue : R; alpha : R }.

(** Conversion of a float to an integer that drops the fractional part
    (GLSL [int(x)]): towards zero. *)
Definition trunc (x : R) : Z := if decide (0 <= x) then Zfloor x else Zceil x.

(** All four channels of a colour lie in [[lo, hi]]. *)
Definition channelsWithin (lo hi : R) (c : RGBA) : Prop :=
  lo <= red c <= hi /\ lo <= green c <= hi
  /\ lo <= blue c <= hi /\ lo <= alpha c <= hi.

(** * src/main.js *)
Module Main.

Abbreviation vec4 := RGBA.

(** A bound [sampler2D]: its size and its texels. [texelFetch] outside the
    size is undefined in GLSL; the shaders below only fetch inside. *)
Record sampler2D : Type :=
  mkSampler { texWidth : Z; texHeight : Z; texel : Z -> Z -> vec4 }.

Definition texelFetch (img : sampler2D) (x y : Z) : vec4 := texel img x y.

Definition vadd (u v : vec4) : vec4 :=
  mkRGBA (red u + red v) (green u + green v) (blue u + blue v) (alpha u + alpha v).

Definition vdiv (u : vec4) (c : R) : vec4 :=
  mkRGBA (red u / c) (green u / c) (blue u / c) (alpha u / c).

(** GLSL [clamp(x, lo, hi)] on [int]s is [min(max(x, lo), hi)]. *)
Definition clamp (x lo hi : Z) : Z := Z.min (Z.max x lo) hi.

(** main.js:141-147, the body of the loop over [y] in [fsColDiffSource]. *)
Definition colDiffStep (uImage : sampler2D) (x : Z) (sum : R) (y : Z) : R :=
  let c := texelFetch uImage x y in
  let prevX := if (x >? 0)%Z then (x - 1)%Z else 0%Z in
  let l := texelFetch uImage prevX y in
  let diff_r := Rabs (red c - red l) in
  let diff_g := Rabs (green c - green l) in
  let diff_b := Rabs (blue c - blue l) in
  sum + (diff_r + diff_g + diff_b).

(** main.js:129-150, [fsColDiffSource]; [fragX] is [gl_FragCoord.x]. *)
Definition fsColDiff (uImage : sampler2D) (uWidth uHeight : Z) (fragX : R) : vec4 :=
  let x := trunc fragX in
  if (x >=? uWidth)%Z then mkRGBA 0 0 0 0
  else
    let sum := fold_left (colDiffStep uImage x) (Analyzer.range 0 (uHeight - 1)) 0 in
    mkRGBA sum 0 0 1.

(** main.js:164-170, the body of the loop over [x] in [fsRowDiffSource]. *)
Definition rowDiffStep (uImage : sampler2D) (y : Z) (sum : R) (x : Z) : R :=
  let c := texelFetch uImage x y in
  let prevY := if (y >? 0)%Z then (y - 1)%Z else 0%Z in
  let t := texelFetch uImage x prevY in
  let diff_r := Rabs (red c - red t) in
  let diff_g := Rabs (green c - green t) in
  let diff_b := Rabs (blue c - blue t) in
  sum + (diff_r + diff_g + diff_b).

(** main.js:152-173, [fsRowDiffSource]; [fragY] is [gl_FragCoord.y]. *)
Definition fsRowDiff (uImage : sampler2D) (uWidth uHeight : Z) (fragY : R) : vec4 :=
  let y := trunc fragY in
  if (y >=? uHeight)%Z then mkRGBA 0 0 0 0
  else
    let sum := fold_left (rowDiffStep uImage y) (Analyzer.range 0 (uWidth - 1)) 0 in
    mkRGBA sum 0 0 1.

(** main.js:319-337: the column pass draws a [imgWidth x 1] viewport, whose
    fragment [x] has [gl_FragCoord.x = x + 0.5], and reads the red channel
    back into [colData]. *)
Definition colData (imageTexture : sampler2D) : list R :=
  let imgWidth := texWidth imageTexture in
  let imgHeight := texHeight imageTexture in
  map (fun x => red (fsColDiff imageTexture imgWidth imgHeight (IZR x + 1 / 2)))
      (Analyzer.range 0 (imgWidth - 1)).

(** main.js:339-356, the same for rows. *)
Definition rowData (imageTexture : sampler2D) : list R :=
  let imgWidth := texWidth imageTexture in
  let imgHeight := texHeight imageTexture in
  map (fun y => red (fsRowDiff imageTexture imgWidth imgHeight (IZR y + 1 / 2)))
      (Analyzer.range 0 (imgHeight - 1)).

(** main.js:316-363, steps 1 to 3 of [runAnalysis]: the value stored in
    [lastResult].  [maxScale] is the number read from the input field. *)
Definition runAnalysis (fuel : nat) (imageTexture : sampler2D) (maxScale : R)
  : option Analyzer.AxisEstimate * option Analyzer.AxisEstimate :=
  let resX := Analyzer.analyzePeriodicity fuel (colData imageTexture) maxScale in
  let resY := Analyzer.analyzePeriodicity fuel (rowData imageTexture) maxScale in
  (resX, resY).

(** The constants computed by [updateUI] (main.js:404-410). *)
Record GridBounds : Type := mkGridBounds {
  minGridX : Z; maxGridX : Z; recW : Z;
  minGridY : Z; maxGridY : Z; recH : Z }.

(** main.js:403-410, [updateUI] up to the text it writes. *)
Definition updateUI (imgWidth imgHeight : Z) (resX resY : Analyzer.AxisEstimate)
  : GridBounds :=
  let minGridX := Zfloor ((0 - Analyzer.offset resX) / Analyzer.scale resX) in
  let maxGridX :=
    Zfloor ((IZR imgWidth - 1 - Analyzer.offset resX) / Analyzer.scale resX) in
  let recW := (maxGridX - minGridX + 1)%Z in
  let minGridY := Zfloor ((0 - Analyzer.offset resY) / Analyzer.scale resY) in
  let maxGridY :=
    Zfloor ((IZR imgHeight - 1 - Analyzer.offset resY) / Analyzer.scale resY) in
  let recH := (maxGridY - minGridY + 1)%Z in
  mkGridBounds minGridX maxGridX recW minGridY maxGridY recH.

(** The uniforms of [fsDownsampleSource] (main.js:177-185). *)
Record DownsampleUniforms : Type := mkDownsampleUniforms {
  uImage : sampler2D;
  uScaleX : R; uOffsetX : R;
  uScaleY : R; uOffsetY : R;
  uGridOffsetX : R; uGridOffsetY : R;
  uTargetHeight : Z;
  uSampleCenterOnly : bool }.

(** main.js:214-219, the two nested box loops on the state [(sum, count)]. *)
Definition boxSum (img : sampler2D) (minX maxX minY maxY : Z) : vec4 * R :=
  fold_left
    (fun st sy =>
       fold_left
         (fun st sx => (vadd (fst st) (texelFetch img sx sy), snd st + 1))
         (Analyzer.range minX maxX) st)
    (Analyzer.range minY maxY) (mkRGBA 0 0 0 0, 0).

(** main.js:189-229, [fsDownsampleSource]; [(fragX, fragY)] is
    [gl_FragCoord.xy]. *)
Definition fsDownsample (u : DownsampleUniforms) (fragX fragY : R) : vec4 :=
  let kx := IZR (Zfloor fragX) + uGridOffsetX u in
  let ky := IZR (Zfloor fragY) + uGridOffsetY u in
  let centerX := uOffsetX u + kx * uScaleX u + uScaleX u * (1 / 2) in
  let centerY := uOffsetY u + ky * uScaleY u + uScaleY u * (1 / 2) in
  if uSampleCenterOnly u then
    let cx := clamp (trunc centerX) 0 (texWidth (uImage u) - 1) in
    let cy := clamp (trunc centerY) 0 (texHeight (uImage u) - 1) in
    texelFetch (uImage u) cx cy
  else
    let rx := uScaleX u * (3 / 10) in
    let ry := uScaleY u * (3 / 10) in
    let minX := Z.max 0 (trunc (IZR (Zceil (centerX - rx)))) in
    let maxX := Z.min (texWidth (uImage u) - 1) (trunc (IZR (Zfloor (centerX + rx)))) in
    let minY := Z.max 0 (trunc (IZR (Zceil (centerY - ry)))) in
    let maxY := Z.min (texHeight (uImage u) - 1) (trunc (IZR (Zfloor (centerY + ry)))) in
    let '(sum, count) := boxSum (uImage u) minX maxX minY maxY in
    if decide (count > 0) then vdiv sum count
    else
      let cx := clamp (trunc centerX) 0 (texWidth (uImage u) - 1) in
      let cy := clamp (trunc centerY) 0 (texHeight (uImage u) - 1) in
      texelFetch (uImage u) cx cy.

(** The centre of the grid cell a fragment of the low-res output stands
    for (main.js:190-194), as [fsDownsample] computes it. *)
Definition cellCenterX (u : DownsampleUniforms) (fragX : R) : R :=
  uOffsetX u + (IZR (Zfloor fragX) + uGridOffsetX u) * uScaleX u + uScaleX u * (1 / 2).

Definition cellCenterY (u : DownsampleUniforms) (fragY : R) : R :=
  uOffsetY u + (IZR (Zfloor fragY) + uGridOffsetY u) * uScaleY u + uScaleY u * (1 / 2).

(** Whether the clipped box of main.js:206-209 holds no pixel. *)
Definition boxEmpty (u : DownsampleUniforms) (fragX fragY : R) : Prop :=
  let centerX := cellCenterX u fragX in
  let centerY := cellCenterY u fragY in
  let rx := uScaleX u * (3 / 10) in
  let ry := uScaleY u * (3 / 10) in
  let minX := Z.max 0 (trunc (IZR (Zceil (centerX - rx)))) in
  let maxX := Z.min (texWidth (uImage u) - 1) (trunc (IZR (Zfloor (centerX + rx)))) in
  let minY := Z.max 0 (trunc (IZR (Zceil (centerY - ry)))) in
  let maxY := Z.min (texHeight (uImage u) - 1) (trunc (IZR (Zfloor (centerY + ry)))) in
  (maxX < minX)%Z \/ (maxY < minY)%Z.

(** The nearest-pixel rule as the specification words it:
    [image[clamp(round(cx), 0, W-1), clamp(round(cy), 0, H-1)]], with
    [round] the nearest integer. *)
Definition round_spec (x : R) : Z := Zfloor (x + 1 / 2).

Definition nearestPixel_spec (img : sampler2D) (cx cy : R) : vec4 :=
  texelFetch img (clamp (round_spec cx) 0 (texWidth img - 1))
                 (clamp (round_spec cy) 0 (texHeight img - 1)).

(** The clipped box of main.js:206-209 (and 99-102), as
    [(minX, maxX, minY, maxY)], for a cell of centre [(centerX, centerY)]. *)
Definition boxBounds (img : sampler2D) (scaleX scaleY centerX centerY : R)
  : Z * Z * Z * Z :=
  let rx := scaleX * (3 / 10) in
  let ry := scaleY * (3 / 10) in
  let minX := Z.max 0 (trunc (IZR (Zceil (centerX - rx)))) in
  let maxX := Z.min (texWidth img - 1) (trunc (IZR (Zfloor (centerX + rx)))) in
  let minY := Z.max 0 (trunc (IZR (Zceil (centerY - ry)))) in
  let maxY := Z.min (texHeight img - 1) (trunc (IZR (Zfloor (centerY + ry)))) in
  (minX, maxX, minY, maxY).

(** [texture(uImage, (u, v))] for the image texture, which [processImage]
    sets up with [NEAREST] filters and [CLAMP_TO_EDGE] wrapping
    (main.js:299-302): the texel under the normalised coordinate, clamped
    to the edge. *)
Definition texture (img : sampler2D) (u v : R) : vec4 :=
  texelFetch img (clamp (Zfloor (u * IZR (texWidth img))) 0 (texWidth img - 1))
                 (clamp (Zfloor (v * IZR (texHeight img))) 0 (texHeight img - 1)).

(** The uniforms of [fsDisplaySource] (main.js:65-72). *)
Record DisplayUniforms : Type := mkDisplayUniforms {
  dImage : sampler2D;
  dResolutionX : R; dResolutionY : R;
  dScaleX : R; dOffsetX : R;
  dScaleY : R; dOffsetY : R;
  dShowReconstructed : bool;
  dSampleCenterOnly : bool }.

(** main.js:75-126, [fsDisplaySource]; [(x, y)] is [gl_FragCoord.xy]. *)
Definition fsDisplay (u : DisplayUniforms) (x y : R) : vec4 :=
  if dShowReconstructed u
     && bool_decide (dScaleX u > 1) && bool_decide (dScaleY u > 1)
  then
    let kx := IZR (Zfloor ((x - dOffsetX u) / dScaleX u)) in
    let ky := IZR (Zfloor ((y - dOffsetY u) / dScaleY u)) in
    let centerX := dOffsetX u + kx * dScaleX u + dScaleX u * (1 / 2) in
    let centerY := dOffsetY u + ky * dScaleY u + dScaleY u * (1 / 2) in
    if dSampleCenterOnly u then
      texture (dImage u) (centerX / dResolutionX u) (centerY / dResolutionY u)
    else
      let '(minX, maxX, minY, maxY) :=
        boxBounds (dImage u) (dScaleX u) (dScaleY u) centerX centerY in
      let '(sum, count) := boxSum (dImage u) minX maxX minY maxY in
      if decide (count > 0) then vdiv sum count
      else texture (dImage u) (centerX / dResolutionX u) (centerY / dResolutionY u)
  else
    texture (dImage u) (x / dResolutionX u) (y / dResolutionY u).

(** main.js:382-391, the uniforms [runAnalysis] passes to the display
    program. *)
Definition displayUniforms (imageTexture : sampler2D)
  (resX resY : Analyzer.AxisEstimate) (showReconstructed sampleCenter : bool)
  : DisplayUniforms :=
  mkDisplayUniforms imageTexture
    (IZR (texWidth imageTexture)) (IZR (texHeight imageTexture))
    (Analyzer.scale resX) (Analyzer.offset resX)
    (Analyzer.scale resY) (Analyzer.offset resY)
    showReconstructed sampleCenter.

(** main.js:450-494, the click handler of the download button up to the
    draw call: [None] when it returns early (nothing loaded, or a scale
    below 1.5), otherwise the size of the canvas and the uniforms of the
    down-sampling program. *)
Definition downloadSetup (imageTexture : option sampler2D)
  (lastResult : option (Analyzer.AxisEstimate * Analyzer.AxisEstimate))
  (sampleCenter : bool) : option (Z * Z * DownsampleUniforms) :=
  match imageTexture, lastResult with
  | Some img, Some (resX, resY) =>
      let scaleX := Analyzer.scale resX in
      let scaleY := Analyzer.scale resY in
      if bool_decide (scaleX < 3 / 2) || bool_decide (scaleY < 3 / 2) then None
      else
        let imgWidth := texWidth img in
        let imgHeight := texHeight img in
        let minGridX := Zfloor ((0 - Analyzer.offset resX) / scaleX) in
        let maxGridX := Zfloor ((IZR imgWidth - 1 - Analyzer.offset resX) / scaleX) in
        let newW := (maxGridX - minGridX + 1)%Z in
        let minGridY := Zfloor ((0 - Analyzer.offset resY) / scaleY) in
        let maxGridY := Zfloor ((IZR imgHeight - 1 - Analyzer.offset resY) / scaleY) in
        let newH := (maxGridY - minGridY + 1)%Z in
        Some (newW, newH,
              mkDownsampleUniforms img scaleX (Analyzer.offset resX)
                scaleY (Analyzer.offset resY) (IZR minGridX) (IZR minGridY)
                newH sampleCenter)
  | _, _ => None
  end.


(** The uniforms [u] with another texture bound to [uImage]. *)
Definition withImage (u : DownsampleUniforms) (img : sampler2D) : DownsampleUniforms :=
  mkDownsampleUniforms img (uScaleX u) (uOffsetX u) (uScaleY u) (uOffsetY u)
    (uGridOffsetX u) (uGridOffsetY u) (uTargetHeight u) (uSampleCenterOnly u).

(** Two textures of the same size with the same texels inside it. *)
Definition sameInside (img1 img2 : sampler2D) : Prop :=
  texWidth img1 = texWidth img2 /\ texHeight img1 = texHeight img2
  /\ forall x y, (0 <= x < texWidth img1)%Z -> (0 <= y < texHeight img1)%Z ->
                 texel img1 x y = texel img2 x y.

(** The image [ramp4] with other texels outside its 4 x 4 size. *)
Definition ramp4_padded : sampler2D :=
  mkSampler 4 4 (fun x y => mkRGBA (IZR (Z.max 0 x) / 4) (IZR (Z.max 0 y) / 4) 0 1).

(** A 2 x 2 image of one solid grey. *)
Definition flat2 : sampler2D :=
  mkSampler 2 2 (fun _ _ => mkRGBA (1 / 2) (1 / 2) (1 / 2) 1).

(** A 4 x 4 image whose texel at [(x, y)] has red [x / 4] and green
    [y / 4], and the uniforms of a centre-only download of it with scale 3
    and offset 1/4 on both axes (so [minGridX = minGridY = -1]). *)
Definition ramp4 : sampler2D :=
  mkSampler 4 4 (fun x y => mkRGBA (IZR x / 4) (IZR y / 4) 0 1).

Definition centerOnly4 : DownsampleUniforms :=
  mkDownsampleUniforms ramp4 3 (1 / 4) 3 (1 / 4) (-1) (-1) 2 true.

(** The same image down-sampled with the box filter, scale 3/2 and offset
    3/4: the box around the centre of cell 0 holds no pixel. *)
Definition boxed4 : DownsampleUniforms :=
  mkDownsampleUniforms ramp4 (3 / 2) (3 / 4) (3 / 2) (3 / 4) (-1) (-1) 3 false.

End Main.

(** * src/Unity/FindPixelResolutionCli.cs *)
Module Unity.

Abbreviation Color := RGBA.

(** [Color.black]. *)
Definition Color_black : Color := mkRGBA 0 0 0 1.

(** [int.MaxValue] and [int.MinValue]. *)
Definition int_MaxValue : Z := 2147483647.
Definition int_MinValue : Z := -2147483648.

(** [Mathf.FloorToInt], [Mathf.CeilToInt]. *)
Definition FloorToInt (f : R) : Z := Zfloor f.
Definition CeilToInt (f : R) : Z := Zceil f.

(** [Mathf.RoundToInt]: the nearest integer, the even one when [f] lies
    halfway between two integers. *)
Definition RoundToInt (f : R) : Z :=
  let fl := Zfloor f in
  if decide (f - IZR fl < 1 / 2) then fl
  else if decide (f - IZR fl > 1 / 2) then (fl + 1)%Z
  else if Z.even fl then fl else (fl + 1)%Z.

(** [Mathf.Clamp] on [int]s. *)
Definition Clamp (value min max : Z) : Z :=
  if (value <? min)%Z then min
  else if (value >? max)%Z then max
  else value.

(** The fields of [FindPixelResolution.ResolutionResult] that the callers
    in this file read; the type is declared in FindPixelResolution.cs. *)
Record ResolutionResult : Type := mkResolutionResult {
  scaleX : R; scaleY : R; offsetX : R; offsetY : R;
  confidenceX : R; confidenceY : R }.

(** FindPixelResolutionCli.cs:209-210, the grid cell index of the pixel
    coordinate [p] on an axis of offset [o] and scale [s]. *)
Definition gridIndex (p : Z) (o s : R) : Z := FloorToInt ((IZR p - o) / s).

(** Reading [srcPixels[i]]; the indices read below are inside the array. *)
Definition pixelAt (srcPixels : list Color) (i : Z) : Color :=
  default Color_black (srcPixels !! Z.to_nat i).

(** The accumulators of the box filter (FindPixelResolutionCli.cs:236-237). *)
Record BoxAcc : Type := mkBoxAcc {
  rSum : R; gSum : R; bSum : R; aSum : R; count : Z }.

(** FindPixelResolutionCli.cs:243-249, the inner loop body. *)
Definition boxInner (srcPixels : list Color) (w rowOffset : Z)
  (acc : BoxAcc) (sx_loop : Z) : BoxAcc :=
  if ((sx_loop <? 0) || (sx_loop >=? w))%Z then acc
  else
    let c := pixelAt srcPixels (rowOffset + sx_loop) in
    mkBoxAcc (rSum acc + red c) (gSum acc + green c) (bSum acc + blue c)
             (aSum acc + alpha c) (count acc + 1).

(** FindPixelResolutionCli.cs:239-250, the outer loop body. *)
Definition boxOuter (srcPixels : list Color) (w h xMin xMax : Z)
  (acc : BoxAcc) (sy_loop : Z) : BoxAcc :=
  if ((sy_loop <? 0) || (sy_loop >=? h))%Z then acc
  else
    let rowOffset := (sy_loop * w)%Z in
    fold_left (boxInner srcPixels w rowOffset) (Analyzer.range xMin xMax) acc.

(** FindPixelResolutionCli.cs:222-250, the accumulators after the box
    loops of the cell [(gridX, gridY)]. *)
Definition boxAcc (srcPixels : list Color) (w h : Z) (sx sy ox oy : R)
  (gridX gridY : Z) : BoxAcc :=
  let centerX := ox + IZR gridX * sx + sx * (1 / 2) in
  let centerY := oy + IZR gridY * sy + sy * (1 / 2) in
  let rx := sx * (3 / 10) in
  let ry := sy * (3 / 10) in
  let xMin := CeilToInt (centerX - rx) in
  let xMax := FloorToInt (centerX + rx) in
  let yMin := CeilToInt (centerY - ry) in
  let yMax := FloorToInt (centerY + ry) in
  fold_left (boxOuter srcPixels w h xMin xMax)
            (Analyzer.range yMin yMax) (mkBoxAcc 0 0 0 0 0).

(** FindPixelResolutionCli.cs:222-262, the colour computed for a grid cell
    that is not yet in the cache. *)
Definition cellColor (srcPixels : list Color) (w h : Z) (sx sy ox oy : R)
  (gridX gridY : Z) : Color :=
  let centerX := ox + IZR gridX * sx + sx * (1 / 2) in
  let centerY := oy + IZR gridY * sy + sy * (1 / 2) in
  let acc := boxAcc srcPixels w h sx sy ox oy gridX gridY in
  if (count acc >? 0)%Z then
    mkRGBA (rSum acc / IZR (count acc)) (gSum acc / IZR (count acc))
           (bSum acc / IZR (count acc)) (aSum acc / IZR (count acc))
  else
    let px := Clamp (RoundToInt centerX) 0 (w - 1) in
    let py := Clamp (RoundToInt centerY) 0 (h - 1) in
    pixelAt srcPixels (py * w + px).

(** The variables the preview pass updates
    (FindPixelResolutionCli.cs:194-202). *)
Record Preview : Type := mkPreview {
  minGridX : Z; maxGridX : Z; minGridY : Z; maxGridY : Z;
  cellColors : gmap (Z * Z) Color;
  dstPixels : list Color }.

(** FindPixelResolutionCli.cs:208-267, the body of the double loop at
    pixel [(x, y)]. *)
Definition pixelStep (srcPixels : list Color) (w h : Z) (sx sy ox oy : R)
  (y : Z) (st : Preview) (x : Z) : Preview :=
  let gridX := gridIndex x ox sx in
  let gridY := gridIndex y oy sy in
  let minGridX := if (gridX <? minGridX st)%Z then gridX else minGridX st in
  let maxGridX := if (gridX >? maxGridX st)%Z then gridX else maxGridX st in
  let minGridY := if (gridY <? minGridY st)%Z then gridY else minGridY st in
  let maxGridY := if (gridY >? maxGridY st)%Z then gridY else maxGridY st in
  let key := (gridX, gridY) in
  match cellColors st !! key with
  | Some avgColor =>
      mkPreview minGridX maxGridX minGridY maxGridY (cellColors st)
                (<[Z.to_nat (y * w + x) := avgColor]> (dstPixels st))
  | None =>
      let avgColor := cellColor srcPixels w h sx sy ox oy gridX gridY in
      mkPreview minGridX maxGridX minGridY maxGridY
                (<[key := avgColor]> (cellColors st))
                (<[Z.to_nat (y * w + x) := avgColor]> (dstPixels st))
  end.

(** FindPixelResolutionCli.cs:206-268, one row of the preview pass. *)
Definition rowStep (srcPixels : list Color) (w h : Z) (sx sy ox oy : R)
  (st : Preview) (y : Z) : Preview :=
  fold_left (pixelStep srcPixels w h sx sy ox oy y) (Analyzer.range 0 (w - 1)) st.

(** FindPixelResolutionCli.cs:194-269, the preview pass over all pixels. *)
Definition previewPass (srcPixels : list Color) (w h : Z) (sx sy ox oy : R)
  : Preview :=
  fold_left (rowStep srcPixels w h sx sy ox oy) (Analyzer.range 0 (h - 1))
    (mkPreview int_MaxValue int_MinValue int_MaxValue int_MinValue
               ∅ (replicate (Z.to_nat (w * h)) (mkRGBA 0 0 0 0))).

(** The state of the preview pass once the pixels [V] have been visited:
    their cells are cached, the bounds enclose their indices, and each
    bound is either its initial value or the index of a visited pixel. *)
Definition previewInv (sx sy ox oy : R) (V : Z -> Z -> Prop) (st : Preview) : Prop :=
  (forall x y, V x y ->
     is_Some (cellColors st !! (gridIndex x ox sx, gridIndex y oy sy))
     /\ (minGridX st <= gridIndex x ox sx <= maxGridX st)%Z
     /\ (minGridY st <= gridIndex y oy sy <= maxGridY st)%Z)
  /\ (minGridX st = int_MaxValue
      \/ exists x y, V x y /\ minGridX st = gridIndex x ox sx)
  /\ (maxGridX st = int_MinValue
      \/ exists x y, V x y /\ maxGridX st = gridIndex x ox sx)
  /\ (minGridY st = int_MaxValue
      \/ exists x y, V x y /\ minGridY st = gridIndex y oy sy)
  /\ (maxGridY st = int_MinValue
      \/ exists x y, V x y /\ maxGridY st = gridIndex y oy sy).

(** What the cache and the preview hold once the pixels [V] (all inside
    the image) have been visited: every cached colour is the colour of its
    cell, and every visited pixel of [dstPixels] has the colour of the cell
    it falls into. *)
Definition previewCorrect (srcPixels : list Color) (w h : Z) (sx sy ox oy : R)
  (V : Z -> Z -> Prop) (st : Preview) : Prop :=
  (forall x y, V x y -> (0 <= x < w)%Z /\ (0 <= y < h)%Z)
  /\ (forall gX gY c, cellColors st !! (gX, gY) = Some c ->
        c = cellColor srcPixels w h sx sy ox oy gX gY)
  /\ length (dstPixels st) = Z.to_nat (w * h)
  /\ (forall x y, V x y ->
        dstPixels st !! Z.to_nat (y * w + x)
        = Some (cellColor srcPixels w h sx sy ox oy
                          (gridIndex x ox sx) (gridIndex y oy sy))).

(** FindPixelResolutionCli.cs:293, the [TryGetValue] of the low-res loop
    at [(gx, gy)]. *)
Definition lowResLookup (st : Preview) (gx gy : Z) : option Color :=
  let actualGridX := (minGridX st + gx)%Z in
  let actualGridY := (minGridY st + gy)%Z in
  cellColors st !! (actualGridX, actualGridY).

(** FindPixelResolutionCli.cs:286-303, the low-res pixels in the order
    they are written ([gy] outer, [gx] inner). *)
Definition lowResPixels (st : Preview) (lrW lrH : Z) : list Color :=
  flat_map
    (fun gy =>
       map (fun gx =>
              match lowResLookup st gx gy with
              | Some c => c
              | None => Color_black
              end)
           (Analyzer.range 0 (lrW - 1)))
    (Analyzer.range 0 (lrH - 1)).

(** The safety clamp of FindPixelResolutionCli.cs:187-188. *)
Definition clampScale (s : R) : R := if decide (s < 1) then 1 else s.

(** What [ReconstructImage] produces: the preview state and, when both
    sizes are positive, the low-res image. *)
Record Reconstruction : Type := mkReconstruction {
  preview : Preview;
  lrW : Z; lrH : Z;
  lowRes : option (list Color) }.

(** FindPixelResolutionCli.cs:177-316, without the file and texture
    plumbing; [srcPixels] is [original.GetPixels()]. *)
Definition ReconstructImage (srcPixels : list Color) (w h : Z)
  (res : ResolutionResult) : Reconstruction :=
  let sx := scaleX res in
  let sy := scaleY res in
  let ox := offsetX res in
  let oy := offsetY res in
  let sx := clampScale sx in
  let sy := clampScale sy in
  let st := previewPass srcPixels w h sx sy ox oy in
  let lrW := (maxGridX st - minGridX st + 1)%Z in
  let lrH := (maxGridY st - minGridY st + 1)%Z in
  mkReconstruction st lrW lrH
    (if ((lrW >? 0) && (lrH >? 0))%Z then Some (lowResPixels st lrW lrH)
     else None).

(** The pixels of a 2 x 2 texture (row-major) and a detection result of
    scale 2 and offset 0 on both axes, used below as a concrete input. *)
Definition pixels2 : list Color :=
  [mkRGBA 1 0 0 1; mkRGBA 0 1 0 1; mkRGBA 0 0 1 1; mkRGBA 1 1 1 1].

Definition result2 : ResolutionResult := mkResolutionResult 2 2 0 0 1 1.

(** [UnityEngine.Rect], as [new Rect(x, y, width, height)] builds it. *)
Record Rect : Type := mkRect {
  Rect_x : R; Rect_y : R; Rect_width : R; Rect_height : R }.

(** FindPixelResolutionCli.cs:94-108, the rectangle [r] that [OnGUI] draws
    the texture into, from [Screen.width], [Screen.height] and the size of
    [texToShow]. *)
Definition OnGUI_rect (Screen_width Screen_height tex_width tex_height : Z) : Rect :=
  let screenAspect := IZR Screen_width / IZR Screen_height in
  let texAspect := IZR tex_width / IZR tex_height in
  if decide (texAspect > screenAspect) then
    let h := IZR Screen_width / texAspect in
    mkRect 0 ((IZR Screen_height - h) * (1 / 2)) (IZR Screen_width) h
  else
    let w := IZR Screen_height * texAspect in
    mkRect ((IZR Screen_width - w) * (1 / 2)) 0 w (IZR Screen_height).

(** The two fields [Update] changes (FindPixelResolutionCli.cs:17-19). *)
Record ViewState : Type := mkViewState {
  showOriginal : bool; toggleTimer : R }.

Definition ToggleInterval : R := 1.

(** FindPixelResolutionCli.cs:68-84, [Update] for one frame without the
    Escape key; [haveBoth] says that both textures are set and [deltaTime]
    is [Time.deltaTime]. *)
Definition Update (haveBoth : bool) (deltaTime : R) (st : ViewState) : ViewState :=
  if haveBoth then
    let t := toggleTimer st + deltaTime in
    if decide (t >= ToggleInterval) then mkViewState (negb (showOriginal st)) 0
    else mkViewState (showOriginal st) t
  else st.

(** The engine calls [Update] once per frame: the state after the frames
    whose [Time.deltaTime] are listed in [deltas]. *)
Definition frames (haveBoth : bool) (deltas : list R) (st : ViewState) : ViewState :=
  fold_left (fun st deltaTime => Update haveBoth deltaTime st) deltas st.

(** FindPixelResolutionCli.cs:274-275, the view state [ReconstructImage]
    leaves. *)
Definition afterReconstruct : ViewState := mkViewState false 0.

End Unity.

(** * src/Unity/WindowsFileDrop.cs *)
Module WindowsFileDrop.

Import Strings.String.

(** The private fields of the component (WindowsFileDrop.cs:12-13). *)
Record State : Type := mkState {
  droppedFiles : list string; hasDropped : bool }.



(** WindowsFileDrop.cs:44-53, [Update]: the array handed to
    [OnFilesDropped] in this frame, if any, and the fields afterwards. *)
Definition Update (st : State) : option (list string) * State :=
  if hasDropped st && (0 <? List.length (droppedFiles st))%nat
  then (Some (droppedFiles st), mkState [] false)
  else (None, st).





End WindowsFileDrop.

(** * Properties of the analyzer *)
Module AnalyzerFacts.
Import Analyzer.

(** ** Ranges and array cells *)

Lemma elem_of_range (lo hi k : Z) : k ∈ range lo hi <-> (lo <= k <= hi)%Z.
Proof. unfold range. rewrite elem_of_seqZ. lia. Qed.

Lemma range_nil (lo hi : Z) : (hi < lo)%Z -> range lo hi = [].
Proof. intros H. unfold range. apply seqZ_nil. lia. Qed.

Lemma range_cons (lo hi : Z) :
  (lo <= hi)%Z -> range lo hi = lo :: range (lo + 1) hi.
Proof.
  intros H. unfold range. rewrite seqZ_cons by lia.
  f_equal. f_equal; lia.
Qed.

Lemma aget_aset_eq (a : list R) (k : Z) (v : R) :
  (0 <= k < Z.of_nat (length a))%Z -> aget (aset a k v) k = v.
Proof.
  intros H. unfold aget, aset.
  rewrite list_lookup_insert_eq by lia. reflexivity.
Qed.

Lemma aget_aset_ne (a : list R) (k j : Z) (v : R) :
  (0 <= k)%Z -> (0 <= j)%Z -> k <> j -> aget (aset a k v) j = aget a j.
Proof.
  intros Hk Hj Hne. unfold aget, aset.
  rewrite list_lookup_insert_ne by lia. reflexivity.
Qed.

Lemma length_aset (a : list R) (k : Z) (v : R) : length (aset a k v) = length a.
Proof. apply length_insert. Qed.

Lemma aget_replicate (n : nat) (k : Z) : aget (replicate n 0) k = 0.
Proof.
  unfold aget. destruct (replicate n 0 !! Z.to_nat k) as [x|] eqn:E; [|reflexivity].
  apply lookup_replicate in E as [-> _]. reflexivity.
Qed.

(** ** The DFT bin *)

Lemma magnitude_nonneg (signal : list R) (k : R) :
  0 <= magnitude (calculateDFTBin signal k).
Proof.
  unfold calculateDFTBin.
  destruct (dftLoop _ _ _ _ _) as [re im]. simpl. apply sqrt_pos.
Qed.

Lemma binMagnitude_nonneg (data : list R) (k : Z) : 0 <= binMagnitude data k.
Proof. apply magnitude_nonneg. Qed.

Lemma atan2_bound (y x : R) : - PI <= atan2 y x <= PI.
Proof.
  pose proof (atan_bound (y / x)) as Hb. pose proof PI_RGT_0 as Hpi.
  unfold atan2. repeat case_decide; try lra.
  - assert (Hq : y / x <= 0).
    { unfold Rdiv. assert (/ x < 0) by (apply Rinv_lt_0_compat; lra). nra. }
    assert (atan (y / x) <= 0); [|lra].
    destruct Hq as [Hq|Hq]; [|rewrite Hq, atan_0; lra].
    apply atan_increasing in Hq. rewrite atan_0 in Hq. lra.
  - assert (Hq : 0 < y / x).
    { unfold Rdiv. assert (/ x < 0) by (apply Rinv_lt_0_compat; lra). nra. }
    apply atan_increasing in Hq. rewrite atan_0 in Hq. lra.
Qed.

Lemma atan2_bound_phase (signal : list R) (k : R) :
  - PI <= phase (calculateDFTBin signal k) <= PI.
Proof.
  unfold calculateDFTBin.
  destruct (dftLoop _ _ _ _ _) as [re im]. simpl. apply atan2_bound.
Qed.

(** ** The search band *)

Lemma minK_ge_1 (N : Z) (maxScale : R) : (1 <= minK N maxScale)%Z.
Proof. unfold minK. destruct (Z.ltb_spec (Zfloor (IZR N / maxScale)) 1); lia. Qed.

Lemma minK_floor (N : Z) (maxScale : R) :
  (Zfloor (IZR N / maxScale) <= minK N maxScale)%Z.
Proof. unfold minK. destruct (Z.ltb_spec (Zfloor (IZR N / maxScale)) 1); lia. Qed.

(** [N / maxScale] is below [minK + 1]: every bin above [minK] stands for a
    scale below [maxScale]. *)
Lemma minK_above (N : Z) (maxScale : R) :
  IZR N / maxScale < IZR (minK N maxScale) + 1.
Proof.
  pose proof (Zfloor_bound (IZR N / maxScale)) as [_ Hb].
  pose proof (minK_floor N maxScale) as Hf. apply IZR_le in Hf. lra.
Qed.

Lemma maxK_le_half (N : Z) : IZR (maxK N) <= IZR N / 2.
Proof. unfold maxK. apply Zfloor_bound. Qed.

Lemma maxK_ge_1 (N : Z) : (2 <= N)%Z -> (1 <= maxK N)%Z.
Proof.
  intros H. unfold maxK. apply Zfloor_lub. apply IZR_le in H. lra.
Qed.

(** With at least two samples and [maxScale >= 2] the band is not empty. *)
Lemma band_nonempty (N : Z) (maxScale : R) :
  (2 <= N)%Z -> 2 <= maxScale -> (minK N maxScale <= maxK N)%Z.
Proof.
  intros HN Hs. pose proof (maxK_ge_1 N HN) as H1.
  unfold minK. destruct (Z.ltb_spec (Zfloor (IZR N / maxScale)) 1); [lia|].
  unfold maxK. apply Zfloor_le.
  apply IZR_le in HN. unfold Rdiv.
  apply Rmult_le_compat_l; [lra|].
  apply Rinv_le_contravar; lra.
Qed.

(** ** The coarse sweep *)

Lemma sweep_fold (data : list R) (ks : list Z) :
  forall (mv : list R) (g : R),
    (forall k, k ∈ ks -> (0 <= k < Z.of_nat (length mv))%Z) ->
    let r := fold_left (sweepStep data) ks (mv, g) in
    length (fst r) = length mv
    /\ (forall j, (0 <= j)%Z -> j ∈ ks -> aget (fst r) j = binMagnitude data j)
    /\ (forall j, (0 <= j)%Z -> j ∉ ks -> aget (fst r) j = aget mv j)
    /\ g <= snd r
    /\ (forall k, k ∈ ks -> binMagnitude data k <= snd r)
    /\ (snd r = g \/ exists k, k ∈ ks /\ snd r = binMagnitude data k).
Proof.
  induction ks as [|k ks IH]; intros mv g Hin; cbn [fold_left].
  - cbn [fst snd]. repeat split; try tauto; try lra.
    + intros j _ Hj. inversion Hj.
    + intros k Hk. inversion Hk.
  - pose (g1 := if decide (magnitude (calculateDFTBin data (IZR k)) > g)
                then magnitude (calculateDFTBin data (IZR k)) else g).
    pose (mv1 := aset mv k (magnitude (calculateDFTBin data (IZR k)))).
    change (sweepStep data (mv, g) k) with (mv1, g1).
    assert (Hk : (0 <= k < Z.of_nat (length mv))%Z) by (apply Hin; left).
    assert (Hin1 : forall k0, k0 ∈ ks -> (0 <= k0 < Z.of_nat (length mv1))%Z).
    { intros k0 H0. unfold mv1. rewrite length_aset. apply Hin. right. exact H0. }
    destruct (IH mv1 g1 Hin1) as (Hlen & Hhit & Hmiss & Hge & Hub & Hex).
    assert (Hg1 : g <= g1 /\ binMagnitude data k <= g1
                  /\ (g1 = g \/ g1 = binMagnitude data k)).
    { unfold g1, binMagnitude. case_decide; lra. }
    destruct Hg1 as (Hg1a & Hg1b & Hg1c).
    split; [rewrite Hlen; apply length_aset|].
    split.
    { intros j Hj0 Hj. destruct (decide (j ∈ ks)) as [Hjs|Hjs].
      - apply Hhit; assumption.
      - apply elem_of_cons in Hj as [->|Hj]; [|contradiction].
        rewrite Hmiss by assumption. apply aget_aset_eq. exact Hk. }
    split.
    { intros j Hj0 Hj. apply not_elem_of_cons in Hj as [Hne Hjs].
      rewrite Hmiss by assumption. apply aget_aset_ne; [lia|lia|congruence]. }
    split; [lra|].
    split.
    { intros k0 H0. apply elem_of_cons in H0 as [->|H0]; [lra|apply Hub; exact H0]. }
    destruct Hex as [Hex|(k0 & Hk0 & Hex)].
    + destruct Hg1c as [Hc|Hc].
      * left. lra.
      * right. exists k. split; [left|lra].
    + right. exists k0. split; [right; exact Hk0|exact Hex].
Qed.

(** What the sweep leaves in [mageVals] and [globalMax]. *)
Lemma coarseSweep_spec (data : list R) (lo hi : Z) :
  (1 <= lo)%Z ->
  let mv := fst (coarseSweep data lo hi) in
  let gm := snd (coarseSweep data lo hi) in
  (forall k, (lo <= k <= hi)%Z -> aget mv k = binMagnitude data k)
  /\ (forall j, (0 <= j)%Z -> ~ (lo <= j <= hi)%Z -> aget mv j = 0)
  /\ 0 <= gm
  /\ (forall k, (lo <= k <= hi)%Z -> binMagnitude data k <= gm)
  /\ ((lo <= hi)%Z -> exists k, (lo <= k <= hi)%Z /\ gm = binMagnitude data k).
Proof.
  intros Hlo. unfold coarseSweep.
  destruct (sweep_fold data (range lo hi) (replicate (Z.to_nat (hi + 2)) 0) 0)
    as (_ & Hhit & Hmiss & Hge & Hub & Hex).
  { intros k Hk. apply elem_of_range in Hk. rewrite length_replicate. lia. }
  simpl. repeat split.
  - intros k Hk. apply Hhit; [lia|apply elem_of_range; exact Hk].
  - intros j Hj Hn. rewrite Hmiss; [apply aget_replicate|exact Hj|].
    rewrite elem_of_range. exact Hn.
  - exact Hge.
  - intros k Hk. apply Hub. apply elem_of_range. exact Hk.
  - intros Hne. destruct Hex as [H0|(k & Hk & Hk')].
    + exists lo. split; [lia|].
      pose proof (binMagnitude_nonneg data lo) as Hnn.
      assert (binMagnitude data lo <= 0); [|lra].
      rewrite <- H0. apply Hub. apply elem_of_range. lia.
    + exists k. split; [apply elem_of_range; exact Hk|exact Hk'].
Qed.

(** ** The peak scan *)

Lemma peakLoop_peakBin (mageVals : list R) (threshold : R) (ks : list Z)
  (st : R * R) :
  peakLoop mageVals threshold ks st =
  match peakBin mageVals threshold ks with
  | Some k => (refine mageVals k, aget mageVals k)
  | None => st
  end.
Proof.
  induction ks as [|k ks IH]; simpl; [reflexivity|].
  repeat case_decide; auto.
Qed.

Lemma peakBin_seqZ_Some (mageVals : list R) (threshold : R) (n : nat) :
  forall lo k,
    peakBin mageVals threshold (seqZ lo (Z.of_nat n)) = Some k ->
    (lo <= k < lo + Z.of_nat n)%Z
    /\ peakTest mageVals threshold k
    /\ forall j, (lo <= j < k)%Z -> ~ peakTest mageVals threshold j.
Proof.
  induction n as [|n IH]; intros lo k.
  - simpl. discriminate.
  - rewrite seqZ_cons by lia.
    replace (Z.pred (Z.of_nat (S n))) with (Z.of_nat n) by lia.
    cbn [peakBin].
    destruct (decide (aget mageVals lo > aget mageVals (lo - 1)
                      /\ aget mageVals lo > aget mageVals (lo + 1))) as [Hp|Hp].
    + destruct (decide (aget mageVals lo > threshold)) as [Ht|Ht].
      * intros [= <-]. split; [lia|]. split; [unfold peakTest; tauto|].
        intros j Hj. lia.
      * intros H. apply IH in H as (Hr & Hk & Hfirst).
        split; [lia|]. split; [exact Hk|].
        intros j Hj. destruct (decide (j = lo)) as [->|Hne].
        -- unfold peakTest. tauto.
        -- apply Hfirst. unfold Z.succ in *. lia.
    + intros H. apply IH in H as (Hr & Hk & Hfirst).
      split; [unfold Z.succ in *; lia|]. split; [exact Hk|].
      intros j Hj. destruct (decide (j = lo)) as [->|Hne].
      * unfold peakTest. tauto.
      * apply Hfirst. unfold Z.succ in *. lia.
Qed.

Lemma peakBin_seqZ_None (mageVals : list R) (threshold : R) (n : nat) :
  forall lo,
    peakBin mageVals threshold (seqZ lo (Z.of_nat n)) = None ->
    forall j, (lo <= j < lo + Z.of_nat n)%Z -> ~ peakTest mageVals threshold j.
Proof.
  induction n as [|n IH]; intros lo.
  - intros _ j Hj. lia.
  - rewrite seqZ_cons by lia.
    replace (Z.pred (Z.of_nat (S n))) with (Z.of_nat n) by lia.
    cbn [peakBin]. intros H j Hj.
    destruct (decide (j = lo)) as [->|Hne].
    + unfold peakTest. repeat case_decide; try discriminate; tauto.
    + assert (Hrest : peakBin mageVals threshold (seqZ (Z.succ lo) (Z.of_nat n)) = None).
      { repeat case_decide; try discriminate; exact H. }
      apply (IH _ Hrest). unfold Z.succ. lia.
Qed.

Lemma peakBin_range_Some (mageVals : list R) (threshold : R) (lo hi k : Z) :
  peakBin mageVals threshold (range lo hi) = Some k ->
  (lo <= k <= hi)%Z
  /\ peakTest mageVals threshold k
  /\ forall j, (lo <= j < k)%Z -> ~ peakTest mageVals threshold j.
Proof.
  unfold range. destruct (Z_lt_le_dec (hi - lo + 1) 0) as [Hneg|Hpos].
  - rewrite seqZ_nil by lia. discriminate.
  - rewrite <- (Z2Nat.id (hi - lo + 1)) by lia. intros H.
    apply peakBin_seqZ_Some in H as (Hr & Hk & Hf).
    rewrite Z2Nat.id in Hr by lia. split; [lia|]. split; assumption.
Qed.

Lemma peakBin_range_None (mageVals : list R) (threshold : R) (lo hi : Z) :
  peakBin mageVals threshold (range lo hi) = None ->
  forall j, (lo <= j <= hi)%Z -> ~ peakTest mageVals threshold j.
Proof.
  unfold range. intros H j Hj.
  rewrite <- (Z2Nat.id (hi - lo + 1)) in H by lia.
  apply (peakBin_seqZ_None _ _ _ _ H). rewrite Z2Nat.id by lia. lia.
Qed.

(** ** Parabolic refinement *)

(** At a strict local maximum the denominator is negative and the
    interpolated bin stays within half a bin of [k]. *)
Lemma refine_bounds (mageVals : list R) (k : Z) :
  aget mageVals k > aget mageVals (k - 1) ->
  aget mageVals k > aget mageVals (k + 1) ->
  aget mageVals (k - 1) - 2 * aget mageVals k + aget mageVals (k + 1) < 0
  /\ IZR k - 1 / 2 < refine mageVals k < IZR k + 1 / 2.
Proof.
  intros H1 H3. unfold refine.
  set (y1 := aget mageVals (k - 1)) in *.
  set (y2 := aget mageVals k) in *.
  set (y3 := aget mageVals (k + 1)) in *.
  assert (Hd : y1 - 2 * y2 + y3 < 0) by lra.
  split; [exact Hd|].
  rewrite decide_True by lra.
  assert (Hi : / (2 * (y1 - 2 * y2 + y3)) < 0) by (apply Rinv_lt_0_compat; lra).
  assert (Hone : / (2 * (y1 - 2 * y2 + y3)) * (2 * (y1 - 2 * y2 + y3)) = 1)
    by (apply Rinv_l; lra).
  unfold Rdiv. set (i := / (2 * (y1 - 2 * y2 + y3))) in *.
  split; nra.
Qed.

(** ** The fallback scan *)

Lemma fallbackLoop_seqZ_hit (mageVals : list R) (globalMax : R) (n : nat) :
  forall lo c,
    (exists k, (lo <= k < lo + Z.of_nat n)%Z /\ aget mageVals k = globalMax) ->
    exists k, (lo <= k < lo + Z.of_nat n)%Z
              /\ aget mageVals k = globalMax
              /\ (forall j, (lo <= j < k)%Z -> aget mageVals j <> globalMax)
              /\ fallbackLoop mageVals globalMax (seqZ lo (Z.of_nat n)) c = IZR k.
Proof.
  induction n as [|n IH]; intros lo c (k & Hk & Hm).
  - lia.
  - rewrite seqZ_cons by lia.
    replace (Z.pred (Z.of_nat (S n))) with (Z.of_nat n) by lia.
    cbn [fallbackLoop].
    destruct (decide (aget mageVals lo = globalMax)) as [He|Hne].
    + exists lo. split; [lia|]. split; [exact He|]. split; [intros j Hj; lia|reflexivity].
    + destruct (IH (Z.succ lo) c) as (k' & Hk' & Hm' & Hf' & Hr').
      { exists k. split; [|exact Hm].
        assert (k <> lo) by congruence. unfold Z.succ. lia. }
      exists k'. split; [unfold Z.succ in *; lia|]. split; [exact Hm'|].
      split; [|exact Hr'].
      intros j Hj. destruct (decide (j = lo)) as [->|Hjn]; [exact Hne|].
      apply Hf'. unfold Z.succ. lia.
Qed.

Lemma fallbackLoop_range_hit (mageVals : list R) (globalMax : R) (lo hi : Z) (c : R) :
  (exists k, (lo <= k <= hi)%Z /\ aget mageVals k = globalMax) ->
  exists k, (lo <= k <= hi)%Z
            /\ aget mageVals k = globalMax
            /\ (forall j, (lo <= j < k)%Z -> aget mageVals j <> globalMax)
            /\ fallbackLoop mageVals globalMax (range lo hi) c = IZR k.
Proof.
  intros (k & Hk & Hm). unfold range.
  rewrite <- (Z2Nat.id (hi - lo + 1)) by lia.
  destruct (fallbackLoop_seqZ_hit mageVals globalMax (Z.to_nat (hi - lo + 1)) lo c)
    as (k' & Hk' & Hrest).
  { exists k. split; [rewrite Z2Nat.id by lia; lia|exact Hm]. }
  exists k'. split; [rewrite Z2Nat.id in Hk' by lia; lia|exact Hrest].
Qed.

(** ** The two normalisation loops *)

Lemma raiseLoop_Some (fuel : nat) :
  forall offset scale r, raiseLoop fuel offset scale = Some r -> 0 <= r.
Proof.
  induction fuel as [|fuel IH]; intros offset scale r; simpl; [discriminate|].
  destruct (decide (offset < 0)) as [Hneg|Hpos]; [apply IH|]. intros [= <-]. lra.
Qed.

Lemma lowerLoop_Some (fuel : nat) :
  forall offset scale r,
    lowerLoop fuel offset scale = Some r -> 0 <= offset -> 0 <= r < scale.
Proof.
  induction fuel as [|fuel IH]; intros offset scale r; simpl; [discriminate|].
  destruct (decide (offset >= scale)) as [Hge|Hlt].
  - intros Hrec Hpos. apply (IH _ _ _ Hrec). lra.
  - intros [= <-] Hpos. lra.
Qed.

(** With a negative [scale] the second loop never ends. *)
Lemma lowerLoop_negative (fuel : nat) :
  forall offset scale, scale < 0 -> scale <= offset ->
                       lowerLoop fuel offset scale = None.
Proof.
  induction fuel as [|fuel IH]; intros offset scale Hs Ho; simpl; [reflexivity|].
  rewrite decide_True by lra. apply IH; lra.
Qed.

(** With a positive [scale] and an offset of at most half a period in
    absolute value, two units of fuel are enough for both loops. *)
Lemma normalise_terminates (fuel : nat) (offset scale : R) :
  (2 <= fuel)%nat -> 0 < scale -> - (scale / 2) <= offset <= scale / 2 ->
  exists r1 r2, raiseLoop fuel offset scale = Some r1
                /\ lowerLoop fuel r1 scale = Some r2.
Proof.
  intros Hf Hs Ho. destruct fuel as [|[|fuel]]; [lia|lia|].
  destruct (decide (offset < 0)) as [Hneg|Hpos].
  - exists (offset + scale), (offset + scale). split.
    + cbn [raiseLoop]. rewrite decide_True by lra. rewrite decide_False by lra.
      reflexivity.
    + cbn [lowerLoop]. rewrite decide_False by lra. reflexivity.
  - exists offset, offset. split.
    + cbn [raiseLoop]. rewrite decide_False by lra. reflexivity.
    + cbn [lowerLoop]. rewrite decide_False by lra. reflexivity.
Qed.

(** Both loops move the offset by a whole number of periods. *)
Lemma raiseLoop_shift (fuel : nat) :
  forall offset scale r,
    raiseLoop fuel offset scale = Some r ->
    exists n : Z, r = offset + IZR n * scale.
Proof.
  induction fuel as [|fuel IH]; intros offset scale r; simpl; [discriminate|].
  destruct (decide (offset < 0)) as [Hneg|Hpos].
  - intros Hrec. apply IH in Hrec as [n ->]. exists (n + 1)%Z.
    rewrite plus_IZR. ring.
  - intros [= <-]. exists 0%Z. ring.
Qed.

Lemma lowerLoop_shift (fuel : nat) :
  forall offset scale r,
    lowerLoop fuel offset scale = Some r ->
    exists n : Z, r = offset + IZR n * scale.
Proof.
  induction fuel as [|fuel IH]; intros offset scale r; simpl; [discriminate|].
  destruct (decide (offset >= scale)) as [Hge|Hlt].
  - intros Hrec. apply IH in Hrec as [n ->]. exists (n - 1)%Z.
    rewrite minus_IZR. ring.
  - intros [= <-]. exists 0%Z. ring.
Qed.

(** Two ways to bound a quotient by a positive divisor. *)
Lemma Rdiv_gt_bound (a n c : R) : 0 < c -> a * c < n -> a < n / c.
Proof.
  intros Hc H. apply Rmult_lt_reg_r with c; [exact Hc|].
  replace (n / c * c) with n by (field; lra). exact H.
Qed.

Lemma Rdiv_lt_bound (a n c : R) : 0 < c -> n < a * c -> n / c < a.
Proof.
  intros Hc H. apply Rmult_lt_reg_r with c; [exact Hc|].
  replace (n / c * c) with n by (field; lra). exact H.
Qed.

(** ** [analyzePeriodicity] in terms of its intermediate values *)

Lemma analyze_degenerate (fuel : nat) (data : list R) (maxScale : R) :
  totalEnergy data < 1 / 10000 ->
  analyzePeriodicity fuel data maxScale =
  Some {| scale := 1; offset := 0; confidence := 0 |}.
Proof. intros H. unfold analyzePeriodicity. rewrite decide_True by exact H. reflexivity. Qed.

Lemma analyze_unfold (fuel : nat) (data : list R) (maxScale : R) :
  ~ totalEnergy data < 1 / 10000 ->
  analyzePeriodicity fuel data maxScale =
  let chosenK := chosenKOf data maxScale in
  let finalRes := calculateDFTBin data chosenK in
  let sc := IZR (Z.of_nat (length data)) / chosenK in
  match raiseLoop fuel ((- phase finalRes * sc) / (2 * PI)) sc with
  | None => None
  | Some o1 =>
      match lowerLoop fuel o1 sc with
      | None => None
      | Some o2 =>
          Some {| scale := sc; offset := o2;
                  confidence := magnitude finalRes / (totalEnergy data / sc) |}
      end
  end.
Proof.
  intros H. unfold analyzePeriodicity. rewrite decide_False by exact H.
  unfold chosenKOf, mageValsOf, globalMaxOf, bandMin, bandMax.
  destruct (coarseSweep data _ _) as [mv gm]. cbn [fst snd].
  destruct (choose mv gm _ _) as [chosenK bestMag]. reflexivity.
Qed.

(** The values read by the scan are the magnitudes of the sweep. *)
Lemma mageVals_band (data : list R) (maxScale : R) (k : Z) :
  (bandMin data maxScale <= k <= bandMax data)%Z ->
  aget (mageValsOf data maxScale) k = binMagnitude data k.
Proof.
  intros Hk. unfold mageValsOf.
  apply (coarseSweep_spec data (bandMin data maxScale) (bandMax data)); [|exact Hk].
  apply minK_ge_1.
Qed.

(** [globalMax] is the largest magnitude of the band. *)
Lemma globalMax_spec (data : list R) (maxScale : R) :
  0 <= globalMaxOf data maxScale
  /\ (forall k, (bandMin data maxScale <= k <= bandMax data)%Z ->
                binMagnitude data k <= globalMaxOf data maxScale)
  /\ ((bandMin data maxScale <= bandMax data)%Z ->
      exists k, (bandMin data maxScale <= k <= bandMax data)%Z
                /\ globalMaxOf data maxScale = binMagnitude data k).
Proof.
  unfold globalMaxOf.
  destruct (coarseSweep_spec data (bandMin data maxScale) (bandMax data))
    as (_ & _ & H0 & Hub & Hex); [apply minK_ge_1|].
  repeat split; assumption.
Qed.

(** What an accepted bin satisfies, on the magnitudes themselves. *)
Lemma selectedBin_Some (data : list R) (maxScale : R) (k : Z) :
  selectedBin data maxScale = Some k ->
  (bandMin data maxScale < k < bandMax data)%Z
  /\ peakTest (mageValsOf data maxScale) (globalMaxOf data maxScale * (4 / 10)) k
  /\ (forall j, (bandMin data maxScale < j < k)%Z ->
        ~ peakTest (mageValsOf data maxScale) (globalMaxOf data maxScale * (4 / 10)) j).
Proof.
  unfold selectedBin. intros H.
  apply peakBin_range_Some in H as (Hr & Hk & Hf).
  split; [lia|]. split; [exact Hk|]. intros j Hj. apply Hf. lia.
Qed.

Lemma peakTest_band (data : list R) (maxScale : R) (thr : R) (k : Z) :
  (bandMin data maxScale < k < bandMax data)%Z ->
  peakTest (mageValsOf data maxScale) thr k <->
  (binMagnitude data k > binMagnitude data (k - 1)
   /\ binMagnitude data k > binMagnitude data (k + 1)
   /\ binMagnitude data k > thr).
Proof.
  intros Hk. unfold peakTest.
  rewrite !mageVals_band by lia. reflexivity.
Qed.

Lemma chosenK_selected (data : list R) (maxScale : R) (k : Z) :
  selectedBin data maxScale = Some k ->
  chosenKOf data maxScale = refine (mageValsOf data maxScale) k.
Proof.
  intros H. pose proof (selectedBin_Some _ _ _ H) as (Hr & (H1 & H3 & _) & _).
  pose proof (refine_bounds _ _ H1 H3) as (_ & Hlo & _).
  pose proof (minK_ge_1 (Z.of_nat (length data)) maxScale) as Hmin.
  fold (bandMin data maxScale) in Hmin.
  assert (Hk2 : 2 <= IZR k) by (apply IZR_le; lia).
  unfold chosenKOf, choose. rewrite peakLoop_peakBin.
  unfold selectedBin in H. rewrite H. cbn [fst snd].
  rewrite decide_False by lra. reflexivity.
Qed.

Lemma chosenK_fallback (data : list R) (maxScale : R) :
  selectedBin data maxScale = None ->
  (bandMin data maxScale <= bandMax data)%Z ->
  exists k, (bandMin data maxScale <= k <= bandMax data)%Z
            /\ binMagnitude data k = globalMaxOf data maxScale
            /\ (forall j, (bandMin data maxScale <= j < k)%Z ->
                          binMagnitude data j <> globalMaxOf data maxScale)
            /\ chosenKOf data maxScale = IZR k.
Proof.
  intros H Hne.
  destruct (globalMax_spec data maxScale) as (_ & _ & Hex).
  destruct (Hex Hne) as (k0 & Hk0 & Hgm).
  destruct (fallbackLoop_range_hit (mageValsOf data maxScale)
              (globalMaxOf data maxScale) (bandMin data maxScale) (bandMax data) (-1))
    as (k & Hk & Hm & Hf & Hr).
  { exists k0. split; [exact Hk0|]. rewrite mageVals_band by exact Hk0. lra. }
  exists k. split; [exact Hk|].
  split; [rewrite <- mageVals_band with (maxScale := maxScale) by exact Hk; exact Hm|].
  split.
  { intros j Hj. rewrite <- mageVals_band with (maxScale := maxScale) by lia.
    apply Hf. exact Hj. }
  unfold chosenKOf, choose. rewrite peakLoop_peakBin.
  unfold selectedBin in H. rewrite H. cbn [fst snd].
  rewrite decide_True by reflexivity. cbn [fst]. exact Hr.
Qed.

(** With an empty band [chosenK] keeps its initial value [-1]. *)
Lemma chosenK_empty_band (data : list R) (maxScale : R) :
  (bandMax data < bandMin data maxScale)%Z -> chosenKOf data maxScale = -1.
Proof.
  intros H. unfold chosenKOf, choose.
  rewrite (range_nil (bandMin data maxScale + 1)) by lia.
  rewrite (range_nil (bandMin data maxScale)) by lia.
  cbn [peakLoop fst]. rewrite decide_True by reflexivity. reflexivity.
Qed.

(** Once [chosenK] is positive the fitter returns, and two units of fuel
    are enough. *)
Lemma analyze_returns (fuel : nat) (data : list R) (maxScale : R) :
  ~ totalEnergy data < 1 / 10000 ->
  0 < chosenKOf data maxScale ->
  (2 <= fuel)%nat ->
  exists r, analyzePeriodicity fuel data maxScale = Some r
            /\ scale r = IZR (Z.of_nat (length data)) / chosenKOf data maxScale
            /\ 0 <= offset r < scale r.
Proof.
  intros He Hk Hf. rewrite analyze_unfold by exact He. cbv zeta.
  set (p := phase (calculateDFTBin data (chosenKOf data maxScale))).
  set (sc := IZR (Z.of_nat (length data)) / chosenKOf data maxScale).
  assert (HN : 0 < IZR (Z.of_nat (length data))).
  { apply IZR_lt. destruct data as [|x data]; [|simpl; lia].
    exfalso. apply He. unfold totalEnergy. simpl. lra. }
  assert (Hsc : 0 < sc) by (apply Rdiv_lt_0_compat; assumption).
  pose proof (atan2_bound_phase data (chosenKOf data maxScale)) as Hp. fold p in Hp.
  pose proof PI_RGT_0 as Hpi.
  assert (Hq : (- p * sc) / (2 * PI) * (2 * PI) = - p * sc) by (field; lra).
  destruct (normalise_terminates fuel ((- p * sc) / (2 * PI)) sc Hf Hsc)
    as (r1 & r2 & Hr1 & Hr2).
  { set (q := (- p * sc) / (2 * PI)) in *. split; nra. }
  rewrite Hr1, Hr2. eexists. split; [reflexivity|]. cbn [scale offset].
  split; [reflexivity|].
  apply (lowerLoop_Some _ _ _ _ Hr2). apply (raiseLoop_Some _ _ _ _ Hr1).
Qed.


(** ** The fitter on two concrete signals *)

Lemma cos_plus_2PI (x : R) : cos (x + 2 * PI) = cos x.
Proof. rewrite <- (cos_period x 1). f_equal. simpl. lra. Qed.

Lemma sin_plus_2PI (x : R) : sin (x + 2 * PI) = sin x.
Proof. rewrite <- (sin_period x 1). f_equal. simpl. lra. Qed.

(** The sums of [calculateDFTBin] on [sig8], for any angle step. *)
Lemma dftLoop_sig8 (a : R) :
  dftLoop sig8 a 0 0 0 =
  (cos (a * 1) + cos (a * 3) + 3 * cos (a * 4),
   sin (a * 1) + sin (a * 3) + 3 * sin (a * 4)).
Proof.
  unfold sig8. cbn [dftLoop].
  change (0 + 1)%Z with 1%Z. change (1 + 1)%Z with 2%Z.
  change (2 + 1)%Z with 3%Z. change (3 + 1)%Z with 4%Z.
  f_equal; ring.
Qed.

Lemma binMagnitude_sig8_2 : binMagnitude sig8 2 = 3.
Proof.
  unfold binMagnitude, calculateDFTBin.
  change (Z.of_nat (length sig8)) with 8%Z.
  rewrite dftLoop_sig8. cbn [magnitude].
  replace (-2 * PI * 2 / 8 * 1) with (- (PI / 2)) by lra.
  replace (-2 * PI * 2 / 8 * 3) with (- (3 * (PI / 2))) by lra.
  replace (-2 * PI * 2 / 8 * 4) with (- (2 * PI)) by lra.
  rewrite !cos_neg, !sin_neg, cos_PI2, sin_PI2, cos_3PI2, sin_3PI2, cos_2PI, sin_2PI.
  replace ((0 + 0 + 3 * 1) * (0 + 0 + 3 * 1) + (- (1) + - -1 + 3 * - 0) * (- (1) + - -1 + 3 * - 0))
    with (3 * 3) by ring.
  apply sqrt_square. lra.
Qed.

Lemma binMagnitude_sig8_4 : binMagnitude sig8 4 = 1.
Proof.
  unfold binMagnitude, calculateDFTBin.
  change (Z.of_nat (length sig8)) with 8%Z.
  rewrite dftLoop_sig8. cbn [magnitude].
  replace (-2 * PI * 4 / 8 * 1) with (- PI) by lra.
  replace (-2 * PI * 4 / 8 * 3) with (- (PI + 2 * PI)) by lra.
  replace (-2 * PI * 4 / 8 * 4) with (- (2 * PI + 2 * PI)) by lra.
  rewrite !cos_neg, !sin_neg, !cos_plus_2PI, !sin_plus_2PI, cos_PI, sin_PI, cos_2PI, sin_2PI.
  replace ((-1 + -1 + 3 * 1) * (-1 + -1 + 3 * 1) + (- 0 + - 0 + 3 * - 0) * (- 0 + - 0 + 3 * - 0))
    with (1 * 1) by ring.
  apply sqrt_square. lra.
Qed.

Lemma binMagnitude_sig8_3 : binMagnitude sig8 3 = sqrt 11.
Proof.
  unfold binMagnitude, calculateDFTBin.
  change (Z.of_nat (length sig8)) with 8%Z.
  rewrite dftLoop_sig8. cbn [magnitude].
  replace (-2 * PI * 3 / 8 * 1) with (- (3 * (PI / 4))) by lra.
  replace (-2 * PI * 3 / 8 * 3) with (- (PI / 4 + 2 * PI)) by lra.
  replace (-2 * PI * 3 / 8 * 4) with (- (PI + 2 * PI)) by lra.
  rewrite !cos_neg, !sin_neg, !cos_plus_2PI, !sin_plus_2PI,
    cos_3PI4, sin_3PI4, cos_PI4, sin_PI4, cos_PI, sin_PI.
  f_equal.
  assert (Hs : sqrt 2 * sqrt 2 = 2) by (apply sqrt_sqrt; lra).
  assert (Hp : 0 < sqrt 2) by (apply sqrt_lt_R0; lra).
  assert (Hi : 1 / sqrt 2 = sqrt 2 / 2) by (apply Rmult_eq_reg_r with (sqrt 2); [field_simplify; lra | lra]).
  replace (-1 / sqrt 2) with (- (1 / sqrt 2)) by (field; lra).
  rewrite Hi. nra.
Qed.

(** ** The band, the sweep and the choice on [sig8] and [edge2] *)

Lemma bandMin_sig8 : bandMin sig8 3 = 2%Z.
Proof.
  unfold bandMin, minK. change (Z.of_nat (length sig8)) with 8%Z.
  rewrite (Zfloor_eq 2 (8 / 3)) by lra. reflexivity.
Qed.

Lemma bandMax_sig8 : bandMax sig8 = 4%Z.
Proof.
  unfold bandMax, maxK. change (Z.of_nat (length sig8)) with 8%Z.
  apply Zfloor_eq. lra.
Qed.

Lemma sqrt11_bounds : 33 / 10 < sqrt 11 < 34 / 10.
Proof.
  assert (Hs : sqrt 11 * sqrt 11 = 11) by (apply sqrt_sqrt; lra).
  assert (Hp : 0 <= sqrt 11) by apply sqrt_pos.
  split; nra.
Qed.

Lemma globalMax_sig8 : globalMaxOf sig8 3 = sqrt 11.
Proof.
  destruct (globalMax_spec sig8 3) as (_ & Hub & Hex).
  rewrite bandMin_sig8, bandMax_sig8 in *.
  pose proof (Hub 3%Z ltac:(lia)) as H3. rewrite binMagnitude_sig8_3 in H3.
  destruct (Hex ltac:(lia)) as (k & Hk & Hgm).
  pose proof sqrt11_bounds as Hb.
  assert (Hcases : k = 2%Z \/ k = 3%Z \/ k = 4%Z) by lia.
  destruct Hcases as [ -> | [ -> | -> ] ].
  - rewrite binMagnitude_sig8_2 in Hgm. lra.
  - rewrite binMagnitude_sig8_3 in Hgm. exact Hgm.
  - rewrite binMagnitude_sig8_4 in Hgm. lra.
Qed.

Lemma energy_sig8 : totalEnergy sig8 = 5.
Proof. unfold totalEnergy, sig8. simpl. ring. Qed.

(** The scan accepts bin 3 on [sig8] with [maxScale = 3]. *)
Lemma selectedBin_sig8 : selectedBin sig8 3 = Some 3%Z.
Proof.
  unfold selectedBin. rewrite globalMax_sig8, bandMin_sig8, bandMax_sig8.
  change (range (2 + 1) (4 - 1)) with [3%Z]. cbn [peakBin].
  change (3 - 1)%Z with 2%Z. change (3 + 1)%Z with 4%Z.
  assert (H2 : aget (mageValsOf sig8 3) 2 = 3).
  { rewrite mageVals_band by (rewrite bandMin_sig8, bandMax_sig8; lia).
    apply binMagnitude_sig8_2. }
  assert (H3 : aget (mageValsOf sig8 3) 3 = sqrt 11).
  { rewrite mageVals_band by (rewrite bandMin_sig8, bandMax_sig8; lia).
    apply binMagnitude_sig8_3. }
  assert (H4 : aget (mageValsOf sig8 3) 4 = 1).
  { rewrite mageVals_band by (rewrite bandMin_sig8, bandMax_sig8; lia).
    apply binMagnitude_sig8_4. }
  rewrite H2, H3, H4. pose proof sqrt11_bounds as Hb.
  rewrite decide_True by lra. rewrite decide_True by lra. reflexivity.
Qed.

(** The refined bin on [sig8]: below 8/3, so that the scale is above 3. *)
Lemma chosenK_sig8 : 5 / 2 < chosenKOf sig8 3 < 8 / 3.
Proof.
  rewrite (chosenK_selected _ _ _ selectedBin_sig8).
  pose proof (selectedBin_Some _ _ _ selectedBin_sig8) as (_ & (H1 & H3 & _) & _).
  pose proof (refine_bounds _ _ H1 H3) as (_ & Hlo & _).
  split; [lra|].
  unfold refine. change (3 - 1)%Z with 2%Z. change (3 + 1)%Z with 4%Z.
  rewrite !mageVals_band by (rewrite bandMin_sig8, bandMax_sig8; lia).
  rewrite binMagnitude_sig8_2, binMagnitude_sig8_3, binMagnitude_sig8_4.
  pose proof sqrt11_bounds as Hb.
  rewrite decide_True by lra.
  assert (Hi : / (2 * (3 - 2 * sqrt 11 + 1)) < 0) by (apply Rinv_lt_0_compat; lra).
  assert (Hone : / (2 * (3 - 2 * sqrt 11 + 1)) * (2 * (3 - 2 * sqrt 11 + 1)) = 1)
    by (apply Rinv_l; lra).
  unfold Rdiv. set (i := / (2 * (3 - 2 * sqrt 11 + 1))) in *. nra.
Qed.

Lemma energy_edge2 : totalEnergy edge2 = 1.
Proof. unfold totalEnergy, edge2. simpl. ring. Qed.

Lemma bandMax_edge2 : bandMax edge2 = 1%Z.
Proof.
  unfold bandMax, maxK. change (Z.of_nat (length edge2)) with 2%Z.
  apply Zfloor_eq. lra.
Qed.

Lemma bandMin_edge2_2 : bandMin edge2 2 = 1%Z.
Proof.
  unfold bandMin, minK. change (Z.of_nat (length edge2)) with 2%Z.
  rewrite (Zfloor_eq 1 (2 / 2)) by lra. reflexivity.
Qed.

Lemma bandMin_edge2_1 : bandMin edge2 1 = 2%Z.
Proof.
  unfold bandMin, minK. change (Z.of_nat (length edge2)) with 2%Z.
  rewrite (Zfloor_eq 2 (2 / 1)) by lra. reflexivity.
Qed.

(** With [maxScale = 2] the scan range of [edge2] is empty. *)
Lemma selectedBin_edge2 : selectedBin edge2 2 = None.
Proof.
  unfold selectedBin. rewrite bandMin_edge2_2, bandMax_edge2. reflexivity.
Qed.

Lemma chosenK_edge2 : chosenKOf edge2 2 = 1.
Proof.
  destruct (chosenK_fallback edge2 2 selectedBin_edge2) as (k & Hk & _ & _ & ->).
  - rewrite bandMin_edge2_2, bandMax_edge2. lia.
  - rewrite bandMin_edge2_2, bandMax_edge2 in Hk. f_equal. lia.
Qed.

Lemma dftBin_edge2 :
  magnitude (calculateDFTBin edge2 1) = 1 /\ phase (calculateDFTBin edge2 1) = PI.
Proof.
  unfold calculateDFTBin. change (Z.of_nat (length edge2)) with 2%Z.
  unfold edge2. cbn [dftLoop]. change (0 + 1)%Z with 1%Z.
  replace (-2 * PI * 1 / 2 * 1) with (- PI) by lra.
  rewrite cos_neg, sin_neg, cos_PI, sin_PI. cbn [magnitude phase].
  split.
  - replace ((0 + 0 * cos (-2 * PI * 1 / 2 * 0) + 1 * -1)
             * (0 + 0 * cos (-2 * PI * 1 / 2 * 0) + 1 * -1)
             + (0 + 0 * sin (-2 * PI * 1 / 2 * 0) + 1 * - 0)
               * (0 + 0 * sin (-2 * PI * 1 / 2 * 0) + 1 * - 0))
      with (1 * 1) by ring.
    apply sqrt_square. lra.
  - replace (0 + 0 * cos (-2 * PI * 1 / 2 * 0) + 1 * -1) with (-1) by ring.
    replace (0 + 0 * sin (-2 * PI * 1 / 2 * 0) + 1 * - 0) with 0 by ring.
    unfold atan2. rewrite decide_False by lra. rewrite decide_True by lra.
    rewrite decide_True by lra.
    replace (0 / -1) with 0 by (field; lra). rewrite atan_0. ring.
Qed.

(** The estimate for [edge2] with [maxScale = 2]: no bin can be scanned,
    the fallback takes bin 1, hence scale 2; the phase is PI, which puts
    the grid line at offset 1. *)
Example edge2_estimate :
  exists r, analyzePeriodicity 2 edge2 2 = Some r
            /\ scale r = 2 /\ offset r = 1 /\ confidence r = 2.
Proof.
  rewrite analyze_unfold by (rewrite energy_edge2; lra). cbv zeta.
  rewrite chosenK_edge2. destruct dftBin_edge2 as [-> ->].
  rewrite energy_edge2. change (Z.of_nat (length edge2)) with 2%Z.
  pose proof PI_RGT_0 as Hpi.
  replace (- PI * (2 / 1) / (2 * PI)) with (-1) by (field; lra).
  replace (2 / 1) with 2 by (field; lra).
  cbn [raiseLoop]. rewrite decide_True by lra. rewrite decide_False by lra.
  cbn [lowerLoop]. rewrite decide_False by lra.
  eexists. split; [reflexivity|]. cbn [scale offset confidence].
  repeat split; field.
Qed.

(** ** Positivity of the chosen bin *)

Lemma length_pos_of_band (data : list R) (maxScale : R) (k : Z) :
  (bandMin data maxScale < k < bandMax data)%Z ->
  0 < IZR (Z.of_nat (length data)).
Proof.
  intros Hk. pose proof (minK_ge_1 (Z.of_nat (length data)) maxScale) as Hmin.
  fold (bandMin data maxScale) in Hmin.
  pose proof (maxK_le_half (Z.of_nat (length data))) as Hmax.
  fold (bandMax data) in Hmax.
  assert (3 <= IZR (bandMax data)) by (apply IZR_le; lia). lra.
Qed.

Lemma chosenK_ge_1 (data : list R) (maxScale : R) :
  (bandMin data maxScale <= bandMax data)%Z -> 1 <= chosenKOf data maxScale.
Proof.
  intros Hne. pose proof (minK_ge_1 (Z.of_nat (length data)) maxScale) as Hmin.
  fold (bandMin data maxScale) in Hmin.
  destruct (selectedBin data maxScale) as [k|] eqn:Hsel.
  - rewrite (chosenK_selected _ _ _ Hsel).
    pose proof (selectedBin_Some _ _ _ Hsel) as (Hr & (H1 & H3 & _) & _).
    pose proof (refine_bounds _ _ H1 H3) as (_ & Hlo & _).
    assert (2 <= IZR k) by (apply IZR_le; lia). lra.
  - destruct (chosenK_fallback _ _ Hsel Hne) as (k & Hk & _ & _ & ->).
    apply IZR_le. lia.
Qed.

(** ** The claims on the fitter *)

(** C1 (as amended).  For a signal of length N with total energy at least
    10^-4 and [maxScale >= 2], whenever the scan accepts a bin [k] the
    fitter returns [scale = N / chosenK] with
    [2 < scale < N / (minK + 1/2)]; the scale [N / k] of the accepted
    integer bin itself lies strictly between 2 and [maxScale]. *)
Theorem scale_range_after_refinement (fuel : nat) (data : list R) (maxScale : R) (k : Z) :
  totalEnergy data >= 1 / 10000 ->
  2 <= maxScale ->
  selectedBin data maxScale = Some k ->
  (2 <= fuel)%nat ->
  exists r, analyzePeriodicity fuel data maxScale = Some r
    /\ scale r = IZR (Z.of_nat (length data)) / chosenKOf data maxScale
    /\ 2 < scale r
    /\ scale r < IZR (Z.of_nat (length data)) / (IZR (bandMin data maxScale) + 1 / 2)
    /\ 2 < IZR (Z.of_nat (length data)) / IZR k < maxScale.
Proof.
  intros He Hs Hsel Hf.
  pose proof (selectedBin_Some _ _ _ Hsel) as (Hr & (H1 & H3 & _) & _).
  pose proof (refine_bounds _ _ H1 H3) as (_ & Hlo & Hhi).
  rewrite <- (chosenK_selected _ _ _ Hsel) in Hlo, Hhi.
  pose proof (minK_ge_1 (Z.of_nat (length data)) maxScale) as Hmin.
  pose proof (minK_above (Z.of_nat (length data)) maxScale) as Habove.
  pose proof (maxK_le_half (Z.of_nat (length data))) as Hmax.
  fold (bandMin data maxScale) in Hmin, Habove. fold (bandMax data) in Hmax.
  pose proof (length_pos_of_band _ _ _ Hr) as HN.
  assert (Hk1 : IZR (bandMin data maxScale) + 1 <= IZR k).
  { rewrite <- plus_IZR. apply IZR_le. lia. }
  assert (Hk2 : IZR k <= IZR (bandMax data) - 1).
  { rewrite <- minus_IZR. apply IZR_le. lia. }
  assert (Hm1 : 1 <= IZR (bandMin data maxScale)) by (apply IZR_le; lia).
  destruct (analyze_returns fuel data maxScale) as (r & Hret & Hsc & _);
    [lra|lra|exact Hf|].
  exists r. split; [exact Hret|]. split; [exact Hsc|]. rewrite Hsc.
  split; [apply Rdiv_gt_bound; lra|].
  split.
  { unfold Rdiv. apply Rmult_lt_compat_l; [exact HN|].
    apply Rinv_lt_contravar; [|lra].
    apply Rmult_lt_0_compat; lra. }
  split; [apply Rdiv_gt_bound; lra|].
  apply Rdiv_lt_bound; [lra|].
  assert (Hq : IZR (Z.of_nat (length data)) / maxScale * maxScale
               = IZR (Z.of_nat (length data))) by (field; lra).
  nra.
Qed.

Lemma scale_range_after_refinement_witness :
  totalEnergy sig8 >= 1 / 10000 /\ 2 <= 3 /\ selectedBin sig8 3 = Some 3%Z /\
  exists r, analyzePeriodicity 2 sig8 3 = Some r
    /\ scale r = IZR (Z.of_nat (length sig8)) / chosenKOf sig8 3
    /\ 2 < scale r
    /\ scale r < IZR (Z.of_nat (length sig8)) / (IZR (bandMin sig8 3) + 1 / 2)
    /\ 2 < IZR (Z.of_nat (length sig8)) / IZR 3 < 3.
Proof.
  assert (He : totalEnergy sig8 >= 1 / 10000) by (rewrite energy_sig8; lra).
  assert (Hs : 2 <= 3) by lra.
  split; [exact He|]. split; [exact Hs|]. split; [exact selectedBin_sig8|].
  apply (scale_range_after_refinement 2 sig8 3 3 He Hs selectedBin_sig8).
  lia.
Defined.

(** C1 (as stated) fails on the signal [0,1,0,1,3,0,0,0] with
    [maxScale = 3]: the scan accepts bin 3, the refined bin falls below
    8/3 and the returned scale exceeds 3. *)
Lemma scale_exceeds_maxScale :
  totalEnergy sig8 >= 1 / 10000 /\ 2 <= 3 /\ selectedBin sig8 3 = Some 3%Z /\
  exists r, analyzePeriodicity 2 sig8 3 = Some r /\ ~ (2 <= scale r <= 3).
Proof.
  split; [rewrite energy_sig8; lra|]. split; [lra|]. split; [exact selectedBin_sig8|].
  pose proof chosenK_sig8 as [Hlo Hhi].
  destruct (analyze_returns 2 sig8 3) as (r & Hret & Hsc & _);
    [rewrite energy_sig8; lra|lra|lia|].
  exists r. split; [exact Hret|]. rewrite Hsc.
  change (Z.of_nat (length sig8)) with 8%Z.
  assert (3 < 8 / chosenKOf sig8 3) by (apply Rdiv_gt_bound; lra). lra.
Qed.

(** C3 (as amended).  On every signal of total energy below 10^-4, and on
    every signal of at least two samples with [maxScale >= 2], the fitter
    terminates and returns a result; two units of fuel suffice. *)
Theorem fit_returns_on_valid_input (fuel : nat) (data : list R) (maxScale : R) :
  (2 <= fuel)%nat ->
  totalEnergy data < 1 / 10000 \/ ((2 <= length data)%nat /\ 2 <= maxScale) ->
  exists r, analyzePeriodicity fuel data maxScale = Some r.
Proof.
  intros Hf Hvalid.
  destruct (decide (totalEnergy data < 1 / 10000)) as [Hlow|Hhigh].
  - eexists. apply analyze_degenerate. exact Hlow.
  - destruct Hvalid as [Hlow|[HN Hs]]; [contradiction|].
    assert (Hband : (bandMin data maxScale <= bandMax data)%Z).
    { apply band_nonempty; [lia|exact Hs]. }
    pose proof (chosenK_ge_1 _ _ Hband) as Hk.
    destruct (analyze_returns fuel data maxScale Hhigh) as (r & Hret & _);
      [lra|exact Hf|].
    exists r. exact Hret.
Qed.

Lemma fit_returns_on_valid_input_witness :
  (2 <= 2)%nat /\
  (totalEnergy edge2 < 1 / 10000 \/ ((2 <= length edge2)%nat /\ 2 <= 2)) /\
  exists r, analyzePeriodicity 2 edge2 2 = Some r.
Proof.
  assert (Hf : (2 <= 2)%nat) by lia.
  assert (Hv : totalEnergy edge2 < 1 / 10000 \/ ((2 <= length edge2)%nat /\ 2 <= 2)).
  { right. split; [simpl; lia|lra]. }
  split; [exact Hf|]. split; [exact Hv|].
  exact (fit_returns_on_valid_input 2 edge2 2 Hf Hv).
Defined.

(** C3 (as stated) fails: on the signal [0, 1] with [maxScale = 1] the band
    is empty, [chosenK] stays -1, the scale is -2 and the second
    normalisation loop never ends, whatever the fuel. *)
Lemma fit_diverges_on_empty_band :
  totalEnergy edge2 >= 1 / 10000
  /\ chosenKOf edge2 1 = -1
  /\ forall fuel, analyzePeriodicity fuel edge2 1 = None.
Proof.
  assert (Hk : chosenKOf edge2 1 = -1).
  { apply chosenK_empty_band. rewrite bandMin_edge2_1, bandMax_edge2. lia. }
  split; [rewrite energy_edge2; lra|]. split; [exact Hk|].
  intros fuel. rewrite analyze_unfold by (rewrite energy_edge2; lra). cbv zeta.
  rewrite Hk.
  change (Z.of_nat (length edge2)) with 2%Z.
  destruct (raiseLoop fuel _ (2 / -1)) as [o1|] eqn:Hr; [|reflexivity].
  apply raiseLoop_Some in Hr.
  rewrite lowerLoop_negative; [reflexivity|lra|lra].
Qed.

(** C4.  Every estimate the fitter returns has [0 <= offset < scale]; above
    the energy threshold the offset differs from
    [-phase * scale / (2 PI)] by a whole number of periods. *)
Theorem offset_in_period (fuel : nat) (data : list R) (maxScale : R)
  (r : AxisEstimate) :
  analyzePeriodicity fuel data maxScale = Some r ->
  0 <= offset r < scale r
  /\ (~ totalEnergy data < 1 / 10000 ->
      exists n : Z,
        offset r =
        (- phase (calculateDFTBin data (chosenKOf data maxScale)) * scale r) / (2 * PI)
        + IZR n * scale r).
Proof.
  intros Hret.
  destruct (decide (totalEnergy data < 1 / 10000)) as [Hlow|Hhigh].
  - rewrite analyze_degenerate in Hret by exact Hlow.
    injection Hret as <-. cbn [offset scale]. split; [lra|contradiction].
  - rewrite analyze_unfold in Hret by exact Hhigh. cbv zeta in Hret.
    destruct (raiseLoop fuel _ _) as [o1|] eqn:Hr1; [|discriminate].
    destruct (lowerLoop fuel o1 _) as [o2|] eqn:Hr2; [|discriminate].
    injection Hret as <-. cbn [offset scale].
    split.
    + apply (lowerLoop_Some _ _ _ _ Hr2). apply (raiseLoop_Some _ _ _ _ Hr1).
    + intros _. apply raiseLoop_shift in Hr1 as [n1 ->].
      apply lowerLoop_shift in Hr2 as [n2 ->].
      exists (n1 + n2)%Z. rewrite plus_IZR. ring.
Qed.

Lemma offset_in_period_witness :
  exists r, analyzePeriodicity 2 edge2 2 = Some r
    /\ 0 <= offset r < scale r
    /\ (~ totalEnergy edge2 < 1 / 10000 ->
        exists n : Z,
          offset r =
          (- phase (calculateDFTBin edge2 (chosenKOf edge2 2)) * scale r) / (2 * PI)
          + IZR n * scale r).
Proof.
  destruct edge2_estimate as (r & Hret & _).
  exists r. split; [exact Hret|].
  exact (offset_in_period 2 edge2 2 r Hret).
Defined.

(** C5.  The bin accepted by the peak test is the smallest integer [k]
    strictly between [minK] and [maxK] with [m[k] > m[k-1]],
    [m[k] > m[k+1]] and [m[k] > 0.4 * globalMax]; no smaller [k] of that
    range passes the three tests.  It is the bin [chosenK] is refined
    from. *)
Theorem first_peak_is_selected (data : list R) (maxScale : R) (k : Z) :
  selectedBin data maxScale = Some k ->
  let m := binMagnitude data in
  let globalMax := globalMaxOf data maxScale in
  (bandMin data maxScale < k < bandMax data)%Z
  /\ m k > m (k - 1)%Z /\ m k > m (k + 1)%Z /\ m k > 4 / 10 * globalMax
  /\ (forall j, (bandMin data maxScale < j < k)%Z ->
        ~ (m j > m (j - 1)%Z /\ m j > m (j + 1)%Z /\ m j > 4 / 10 * globalMax))
  /\ chosenKOf data maxScale = refine (mageValsOf data maxScale) k.
Proof.
  intros Hsel m globalMax.
  pose proof (selectedBin_Some _ _ _ Hsel) as (Hr & Hk & Hfirst).
  split; [exact Hr|].
  apply peakTest_band in Hk as (H1 & H3 & Ht); [|exact Hr].
  split; [exact H1|]. split; [exact H3|].
  split; [unfold m, globalMax; lra|].
  split; [|apply chosenK_selected; exact Hsel].
  intros j Hj (J1 & J3 & Jt). apply (Hfirst j Hj).
  apply peakTest_band; [lia|].
  split; [exact J1|]. split; [exact J3|]. unfold m, globalMax in Jt. lra.
Qed.

Lemma first_peak_is_selected_witness :
  selectedBin sig8 3 = Some 3%Z /\
  let m := binMagnitude sig8 in
  let globalMax := globalMaxOf sig8 3 in
  (bandMin sig8 3 < 3 < bandMax sig8)%Z
  /\ m 3%Z > m (3 - 1)%Z /\ m 3%Z > m (3 + 1)%Z /\ m 3%Z > 4 / 10 * globalMax
  /\ (forall j, (bandMin sig8 3 < j < 3)%Z ->
        ~ (m j > m (j - 1)%Z /\ m j > m (j + 1)%Z /\ m j > 4 / 10 * globalMax))
  /\ chosenKOf sig8 3 = refine (mageValsOf sig8 3) 3.
Proof.
  split; [exact selectedBin_sig8|].
  exact (first_peak_is_selected sig8 3 3 selectedBin_sig8).
Defined.

(** C6.  When no bin of the scan band passes the peak-plus-threshold test
    (signal of at least two samples, [maxScale >= 2], energy at least
    10^-4), the fitter chooses the smallest integer [k] of [minK, maxK]
    whose magnitude equals the global maximum, does not refine it, and
    returns [scale = N / k]. *)
Theorem fallback_takes_first_global_max (fuel : nat) (data : list R) (maxScale : R) :
  (2 <= length data)%nat ->
  2 <= maxScale ->
  totalEnergy data >= 1 / 10000 ->
  selectedBin data maxScale = None ->
  (2 <= fuel)%nat ->
  exists k : Z,
    (bandMin data maxScale <= k <= bandMax data)%Z
    /\ binMagnitude data k = globalMaxOf data maxScale
    /\ (forall j, (bandMin data maxScale <= j < k)%Z ->
                  binMagnitude data j <> globalMaxOf data maxScale)
    /\ chosenKOf data maxScale = IZR k
    /\ exists r, analyzePeriodicity fuel data maxScale = Some r
                 /\ scale r = IZR (Z.of_nat (length data)) / IZR k.
Proof.
  intros HN Hs He Hsel Hf.
  assert (Hband : (bandMin data maxScale <= bandMax data)%Z).
  { apply band_nonempty; [lia|exact Hs]. }
  destruct (chosenK_fallback _ _ Hsel Hband) as (k & Hk & Hm & Hfirst & Hc).
  exists k. split; [exact Hk|]. split; [exact Hm|]. split; [exact Hfirst|].
  split; [exact Hc|].
  pose proof (chosenK_ge_1 _ _ Hband) as Hpos.
  destruct (analyze_returns fuel data maxScale) as (r & Hret & Hsc & _);
    [lra|lra|exact Hf|].
  exists r. split; [exact Hret|]. rewrite Hsc, Hc. reflexivity.
Qed.

Lemma fallback_takes_first_global_max_witness :
  (2 <= length edge2)%nat /\ 2 <= 2 /\ totalEnergy edge2 >= 1 / 10000
  /\ selectedBin edge2 2 = None /\ (2 <= 2)%nat
  /\ exists k : Z,
      (bandMin edge2 2 <= k <= bandMax edge2)%Z
      /\ binMagnitude edge2 k = globalMaxOf edge2 2
      /\ (forall j, (bandMin edge2 2 <= j < k)%Z ->
                    binMagnitude edge2 j <> globalMaxOf edge2 2)
      /\ chosenKOf edge2 2 = IZR k
      /\ exists r, analyzePeriodicity 2 edge2 2 = Some r
                   /\ scale r = IZR (Z.of_nat (length edge2)) / IZR k.
Proof.
  assert (HN : (2 <= length edge2)%nat) by (simpl; lia).
  assert (Hs : 2 <= 2) by lra.
  assert (He : totalEnergy edge2 >= 1 / 10000) by (rewrite energy_edge2; lra).
  assert (Hf : (2 <= 2)%nat) by lia.
  split; [exact HN|]. split; [exact Hs|]. split; [exact He|].
  split; [exact selectedBin_edge2|]. split; [exact Hf|].
  exact (fallback_takes_first_global_max 2 edge2 2 HN Hs He selectedBin_edge2 Hf).
Defined.

(** C9.  At an accepted bin [k] (a strict local maximum of the
    magnitudes) the denominator [d = m[k-1] - 2 m[k] + m[k+1]] of the
    parabolic interpolation is negative, the refined bin is
    [k + (m[k-1] - m[k+1]) / (2 d)] and lies strictly between [k - 1/2] and
    [k + 1/2]; it is positive, and so is the scale [N / chosenK] the
    fitter returns. *)
Theorem refined_bin_within_half (data : list R) (maxScale : R) (k : Z) :
  selectedBin data maxScale = Some k ->
  let m := binMagnitude data in
  let d := m (k - 1)%Z - 2 * m k + m (k + 1)%Z in
  m k > m (k - 1)%Z /\ m k > m (k + 1)%Z
  /\ d < 0
  /\ chosenKOf data maxScale = IZR k + (m (k - 1)%Z - m (k + 1)%Z) / (2 * d)
  /\ IZR k - 1 / 2 < chosenKOf data maxScale < IZR k + 1 / 2
  /\ 0 < chosenKOf data maxScale
  /\ 0 < IZR (Z.of_nat (length data)) / chosenKOf data maxScale
  /\ (totalEnergy data >= 1 / 10000 ->
      forall fuel, (2 <= fuel)%nat ->
        exists r, analyzePeriodicity fuel data maxScale = Some r
                  /\ scale r = IZR (Z.of_nat (length data)) / chosenKOf data maxScale
                  /\ 0 < scale r).
Proof.
  intros Hsel m d.
  pose proof (selectedBin_Some _ _ _ Hsel) as (Hr & Hk & _).
  pose proof Hk as (A1 & A3 & _).
  pose proof (refine_bounds _ _ A1 A3) as (Hd & Hlo & Hhi).
  apply peakTest_band in Hk as (H1 & H3 & _); [|exact Hr].
  pose proof (minK_ge_1 (Z.of_nat (length data)) maxScale) as Hmin.
  fold (bandMin data maxScale) in Hmin.
  assert (Hk2 : 2 <= IZR k) by (apply IZR_le; lia).
  pose proof (length_pos_of_band _ _ _ Hr) as HN.
  rewrite (chosenK_selected _ _ _ Hsel).
  assert (Hrefine : refine (mageValsOf data maxScale) k
                    = IZR k + (m (k - 1)%Z - m (k + 1)%Z) / (2 * d)).
  { unfold refine. rewrite decide_True by lra.
    unfold d, m. rewrite !mageVals_band by lia. reflexivity. }
  assert (Hpos : 0 < refine (mageValsOf data maxScale) k) by lra.
  assert (Hscale : 0 < IZR (Z.of_nat (length data)) / refine (mageValsOf data maxScale) k)
    by (apply Rdiv_lt_0_compat; assumption).
  split; [exact H1|]. split; [exact H3|].
  split; [unfold d, m; rewrite !mageVals_band in Hd by lia; exact Hd|].
  split; [exact Hrefine|]. split; [lra|]. split; [exact Hpos|].
  split; [exact Hscale|].
  intros He fuel Hf.
  destruct (analyze_returns fuel data maxScale) as (r & Hret & Hsc & _);
    [lra|rewrite (chosenK_selected _ _ _ Hsel); exact Hpos|exact Hf|].
  rewrite (chosenK_selected _ _ _ Hsel) in Hsc.
  exists r. split; [exact Hret|]. split; [exact Hsc|]. rewrite Hsc. exact Hscale.
Qed.

Lemma refined_bin_within_half_witness :
  selectedBin sig8 3 = Some 3%Z /\
  let m := binMagnitude sig8 in
  let d := m (3 - 1)%Z - 2 * m 3%Z + m (3 + 1)%Z in
  m 3%Z > m (3 - 1)%Z /\ m 3%Z > m (3 + 1)%Z
  /\ d < 0
  /\ chosenKOf sig8 3 = IZR 3 + (m (3 - 1)%Z - m (3 + 1)%Z) / (2 * d)
  /\ IZR 3 - 1 / 2 < chosenKOf sig8 3 < IZR 3 + 1 / 2
  /\ 0 < chosenKOf sig8 3
  /\ 0 < IZR (Z.of_nat (length sig8)) / chosenKOf sig8 3
  /\ (totalEnergy sig8 >= 1 / 10000 ->
      forall fuel, (2 <= fuel)%nat ->
        exists r, analyzePeriodicity fuel sig8 3 = Some r
                  /\ scale r = IZR (Z.of_nat (length sig8)) / chosenKOf sig8 3
                  /\ 0 < scale r).
Proof.
  split; [exact selectedBin_sig8|].
  exact (refined_bin_within_half sig8 3 3 selectedBin_sig8).
Defined.

End AnalyzerFacts.

(** * Properties of the shaders and of the grid bounds *)
Module MainFacts.
Import Analyzer Main AnalyzerFacts.

(** ** Float-to-integer conversions *)

Lemma trunc_nonneg (x : R) (z : Z) :
  0 <= IZR z -> IZR z <= x < IZR z + 1 -> trunc x = z.
Proof.
  intros Hz Hx. unfold trunc. rewrite decide_True by lra.
  apply Zfloor_eq. exact Hx.
Qed.

Lemma trunc_pixel_centre (x : Z) : (0 <= x)%Z -> trunc (IZR x + 1 / 2) = x.
Proof.
  intros Hx. apply trunc_nonneg; [apply IZR_le in Hx; exact Hx|lra].
Qed.

Lemma trunc_IZR (z : Z) : trunc (IZR z) = z.
Proof.
  unfold trunc. case_decide; [apply ZfloorZ|].
  unfold Zceil. rewrite <- opp_IZR, ZfloorZ. lia.
Qed.

Lemma Zceil_eq (z : Z) (x : R) : IZR z - 1 < x <= IZR z -> Zceil x = z.
Proof.
  intros Hx. unfold Zceil.
  rewrite (Zfloor_eq (- z) (- x)); [lia|]. rewrite opp_IZR. lra.
Qed.

(** ** The edge signals of a flat image *)

Lemma totalEnergy_zeros (data : list R) :
  Forall (fun d => d = 0) data -> totalEnergy data = 0.
Proof.
  unfold totalEnergy. intros H.
  assert (Hgen : forall acc, fold_left Rplus data acc = acc).
  { induction H as [|d data -> _ IH]; intros acc; simpl; [reflexivity|].
    rewrite IH. ring. }
  apply Hgen.
Qed.

Section FlatImage.
Variable img : sampler2D.
Variable c : vec4.
Hypothesis flat :
  forall x y, (0 <= x < texWidth img)%Z -> (0 <= y < texHeight img)%Z ->
              texel img x y = c.

Lemma colDiff_flat (x : Z) (ys : list Z) :
  (0 <= x < texWidth img)%Z ->
  Forall (fun y => (0 <= y < texHeight img)%Z) ys ->
  fold_left (colDiffStep img x) ys 0 = 0.
Proof.
  intros Hx Hys. induction Hys as [|y ys Hy _ IH]; simpl; [reflexivity|].
  replace (colDiffStep img x 0 y) with 0; [exact IH|].
  unfold colDiffStep, texelFetch.
  rewrite (flat x y Hx Hy).
  rewrite (flat (if (x >? 0)%Z then (x - 1)%Z else 0%Z) y);
    [|destruct (Z.gtb_spec x 0); lia|exact Hy].
  rewrite !Rminus_diag, Rabs_R0. ring.
Qed.

Lemma rowDiff_flat (y : Z) (xs : list Z) :
  (0 <= y < texHeight img)%Z ->
  Forall (fun x => (0 <= x < texWidth img)%Z) xs ->
  fold_left (rowDiffStep img y) xs 0 = 0.
Proof.
  intros Hy Hxs. induction Hxs as [|x xs Hx _ IH]; simpl; [reflexivity|].
  replace (rowDiffStep img y 0 x) with 0; [exact IH|].
  unfold rowDiffStep, texelFetch.
  rewrite (flat x y Hx Hy).
  rewrite (flat x (if (y >? 0)%Z then (y - 1)%Z else 0%Z));
    [|exact Hx|destruct (Z.gtb_spec y 0); lia].
  rewrite !Rminus_diag, Rabs_R0. ring.
Qed.

Lemma range_Forall (n : Z) :
  Forall (fun i => (0 <= i < n)%Z) (range 0 (n - 1)).
Proof. apply Forall_forall. intros i Hi. apply elem_of_range in Hi. lia. Qed.

Lemma colData_flat : Forall (fun d => d = 0) (colData img).
Proof.
  unfold colData. apply Forall_map, Forall_forall. intros x Hx.
  apply elem_of_range in Hx. cbn beta.
  unfold fsColDiff. rewrite trunc_pixel_centre by lia.
  destruct (Z.geb_spec x (texWidth img)); [reflexivity|].
  cbn [red]. apply colDiff_flat; [lia|apply range_Forall].
Qed.

Lemma rowData_flat : Forall (fun d => d = 0) (rowData img).
Proof.
  unfold rowData. apply Forall_map, Forall_forall. intros y Hy.
  apply elem_of_range in Hy. cbn beta.
  unfold fsRowDiff. rewrite trunc_pixel_centre by lia.
  destruct (Z.geb_spec y (texHeight img)); [reflexivity|].
  cbn [red]. apply rowDiff_flat; [lia|apply range_Forall].
Qed.
End FlatImage.

(** C7.  A signal of total energy below 10^-4 yields exactly
    [{scale = 1, offset = 0, confidence = 0}]; for an image of one colour
    both edge signals are zero everywhere and both axes yield that
    estimate. *)
Theorem flat_image_degenerate (fuel : nat) (data : list R) (maxScale : R)
  (img : sampler2D) (c : vec4) :
  totalEnergy data < 1 / 10000 ->
  (forall x y, (0 <= x < texWidth img)%Z -> (0 <= y < texHeight img)%Z ->
               texel img x y = c) ->
  analyzePeriodicity fuel data maxScale
  = Some {| scale := 1; offset := 0; confidence := 0 |}
  /\ Forall (fun d => d = 0) (colData img)
  /\ Forall (fun d => d = 0) (rowData img)
  /\ runAnalysis fuel img maxScale
     = (Some {| scale := 1; offset := 0; confidence := 0 |},
        Some {| scale := 1; offset := 0; confidence := 0 |}).
Proof.
  intros Hlow Hflat.
  pose proof (colData_flat img c Hflat) as Hcol.
  pose proof (rowData_flat img c Hflat) as Hrow.
  split; [apply analyze_degenerate; exact Hlow|].
  split; [exact Hcol|]. split; [exact Hrow|].
  unfold runAnalysis.
  rewrite !analyze_degenerate; [reflexivity| |];
    rewrite totalEnergy_zeros by assumption; lra.
Qed.

Lemma flat_image_degenerate_witness :
  totalEnergy [0; 0] < 1 / 10000 /\
  (forall x y, (0 <= x < texWidth flat2)%Z -> (0 <= y < texHeight flat2)%Z ->
               texel flat2 x y = mkRGBA (1 / 2) (1 / 2) (1 / 2) 1) /\
  analyzePeriodicity 2 [0; 0] 16
  = Some {| scale := 1; offset := 0; confidence := 0 |}
  /\ Forall (fun d => d = 0) (colData flat2)
  /\ Forall (fun d => d = 0) (rowData flat2)
  /\ runAnalysis 2 flat2 16
     = (Some {| scale := 1; offset := 0; confidence := 0 |},
        Some {| scale := 1; offset := 0; confidence := 0 |}).
Proof.
  assert (He : totalEnergy [0; 0] < 1 / 10000) by (unfold totalEnergy; simpl; lra).
  assert (Hflat : forall x y, (0 <= x < texWidth flat2)%Z -> (0 <= y < texHeight flat2)%Z ->
                  texel flat2 x y = mkRGBA (1 / 2) (1 / 2) (1 / 2) 1)
    by (intros x y _ _; reflexivity).
  split; [exact He|]. split; [exact Hflat|].
  exact (flat_image_degenerate 2 [0; 0] 16 flat2 _ He Hflat).
Defined.

(** C8.  With both scales at least 1, the grid cell of every pixel
    [(px, py)] of the image lies within the bounds [updateUI] derives:
    [minGridX <= floor((px - Ox) / Sx) <= maxGridX], and the same on Y. *)
Theorem grid_covers_image (imgWidth imgHeight : Z) (resX resY : AxisEstimate)
  (px py : Z) :
  1 <= scale resX -> 1 <= scale resY ->
  (0 <= px < imgWidth)%Z -> (0 <= py < imgHeight)%Z ->
  let b := updateUI imgWidth imgHeight resX resY in
  minGridX b = Zfloor ((0 - offset resX) / scale resX)
  /\ maxGridX b = Zfloor ((IZR imgWidth - 1 - offset resX) / scale resX)
  /\ minGridY b = Zfloor ((0 - offset resY) / scale resY)
  /\ maxGridY b = Zfloor ((IZR imgHeight - 1 - offset resY) / scale resY)
  /\ (minGridX b <= Unity.gridIndex px (offset resX) (scale resX) <= maxGridX b)%Z
  /\ (minGridY b <= Unity.gridIndex py (offset resY) (scale resY) <= maxGridY b)%Z.
Proof.
  intros Hsx Hsy Hpx Hpy b.
  repeat (split; [reflexivity|]).
  assert (Hmono : forall s a1 a2, 1 <= s -> a1 <= a2 -> a1 / s <= a2 / s).
  { intros s a1 a2 Hs Ha. unfold Rdiv. apply Rmult_le_compat_r; [|exact Ha].
    left. apply Rinv_0_lt_compat. lra. }
  assert (Hx0 : 0 <= IZR px) by (apply IZR_le; lia).
  assert (Hx1 : IZR px <= IZR imgWidth - 1).
  { rewrite <- minus_IZR. apply IZR_le. lia. }
  assert (Hy0 : 0 <= IZR py) by (apply IZR_le; lia).
  assert (Hy1 : IZR py <= IZR imgHeight - 1).
  { rewrite <- minus_IZR. apply IZR_le. lia. }
  unfold b, updateUI, Unity.gridIndex, Unity.FloorToInt. cbn [minGridX maxGridX minGridY maxGridY].
  repeat split; apply Zfloor_le; apply Hmono; lra.
Qed.

Lemma grid_covers_image_witness :
  1 <= 5 /\ 1 <= 5 /\ (0 <= 41 < 42)%Z /\ (0 <= 7 < 42)%Z /\
  let resX := {| scale := 5; offset := 2; confidence := 1 |} in
  let resY := {| scale := 5; offset := 2; confidence := 1 |} in
  let b := updateUI 42 42 resX resY in
  minGridX b = Zfloor ((0 - offset resX) / scale resX)
  /\ maxGridX b = Zfloor ((IZR 42 - 1 - offset resX) / scale resX)
  /\ minGridY b = Zfloor ((0 - offset resY) / scale resY)
  /\ maxGridY b = Zfloor ((IZR 42 - 1 - offset resY) / scale resY)
  /\ (minGridX b <= Unity.gridIndex 41 (offset resX) (scale resX) <= maxGridX b)%Z
  /\ (minGridY b <= Unity.gridIndex 7 (offset resY) (scale resY) <= maxGridY b)%Z.
Proof.
  assert (H5 : 1 <= 5) by lra.
  assert (Hx : (0 <= 41 < 42)%Z) by lia.
  assert (Hy : (0 <= 7 < 42)%Z) by lia.
  split; [exact H5|]. split; [exact H5|]. split; [exact Hx|]. split; [exact Hy|].
  exact (grid_covers_image 42 42 {| scale := 5; offset := 2; confidence := 1 |}
           {| scale := 5; offset := 2; confidence := 1 |} 41 7 H5 H5 Hx Hy).
Defined.

(** ** The nearest-pixel lookups of the down-sampling shader *)

Lemma boxSum_empty (img : sampler2D) (minX maxX minY maxY : Z) :
  (maxX < minX)%Z \/ (maxY < minY)%Z ->
  boxSum img minX maxX minY maxY = (mkRGBA 0 0 0 0, 0).
Proof.
  intros [Hx|Hy]; unfold boxSum.
  - rewrite (range_nil minX maxX) by exact Hx. cbn [fold_left].
    induction (range minY maxY) as [|sy l IH]; [reflexivity|exact IH].
  - rewrite (range_nil minY maxY) by exact Hy. reflexivity.
Qed.

Lemma fsDownsample_centerOnly (u : DownsampleUniforms) (fragX fragY : R) :
  uSampleCenterOnly u = true ->
  fsDownsample u fragX fragY =
  texelFetch (uImage u)
    (clamp (trunc (cellCenterX u fragX)) 0 (texWidth (uImage u) - 1))
    (clamp (trunc (cellCenterY u fragY)) 0 (texHeight (uImage u) - 1)).
Proof. intros H. unfold fsDownsample. rewrite H. reflexivity. Qed.

Lemma fsDownsample_emptyBox (u : DownsampleUniforms) (fragX fragY : R) :
  uSampleCenterOnly u = false ->
  boxEmpty u fragX fragY ->
  fsDownsample u fragX fragY =
  texelFetch (uImage u)
    (clamp (trunc (cellCenterX u fragX)) 0 (texWidth (uImage u) - 1))
    (clamp (trunc (cellCenterY u fragY)) 0 (texHeight (uImage u) - 1)).
Proof.
  intros H Hbox. unfold fsDownsample. rewrite H.
  unfold boxEmpty, cellCenterX, cellCenterY in Hbox. cbv zeta in Hbox.
  cbv zeta. rewrite (boxSum_empty _ _ _ _ _ Hbox).
  rewrite decide_False by lra. reflexivity.
Qed.

(** The cell centre of the fragment (1.5, 1.5) of [centerOnly4]. *)
Lemma centerOnly4_centre :
  cellCenterX centerOnly4 (3 / 2) = 7 / 4 /\ cellCenterY centerOnly4 (3 / 2) = 7 / 4.
Proof.
  unfold cellCenterX, cellCenterY, centerOnly4.
  cbn [uOffsetX uOffsetY uScaleX uScaleY uGridOffsetX uGridOffsetY].
  rewrite (Zfloor_eq 1 (3 / 2)) by lra. split; lra.
Qed.

(** On it the shader fetches texel (1, 1), the specification's rule
    texel (2, 2). *)
Lemma centerOnly4_fetch :
  fsDownsample centerOnly4 (3 / 2) (3 / 2) = texelFetch ramp4 1 1
  /\ nearestPixel_spec ramp4 (7 / 4) (7 / 4) = texelFetch ramp4 2 2.
Proof.
  split.
  - rewrite fsDownsample_centerOnly by reflexivity.
    destruct centerOnly4_centre as [-> ->].
    rewrite (trunc_nonneg (7 / 4) 1) by lra. reflexivity.
  - unfold nearestPixel_spec, round_spec.
    rewrite (Zfloor_eq 2 (7 / 4 + 1 / 2)) by lra. reflexivity.
Qed.

(** The box of the fragment (1.5, 1.5) of [boxed4] holds no pixel: its
    centre is 1.5 and its half-width 0.45. *)
Example boxed4_box_empty : boxEmpty boxed4 (3 / 2) (3 / 2).
Proof.
  unfold boxEmpty, cellCenterX, cellCenterY, boxed4.
  cbn [uOffsetX uOffsetY uScaleX uScaleY uGridOffsetX uGridOffsetY uImage
       ramp4 texWidth texHeight].
  rewrite (Zfloor_eq 1 (3 / 2)) by lra.
  rewrite (Zceil_eq 2) by lra.
  rewrite (Zfloor_eq 1 (3 / 4 + (1 + -1) * (3 / 2) + 3 / 2 * (1 / 2) + 3 / 2 * (3 / 10)))
    by lra.
  rewrite !trunc_IZR. left. reflexivity.
Qed.

End MainFacts.

(** * Properties of the C# reconstruction *)
Module UnityFacts.
Import Unity AnalyzerFacts.

(** ** Rounding *)

Lemma RoundToInt_nearest (f : R) : Rabs (IZR (RoundToInt f) - f) <= 1 / 2.
Proof.
  pose proof (Zfloor_bound f) as [Hlo Hhi]. unfold RoundToInt.
  repeat case_decide; try destruct (Z.even (Zfloor f));
    rewrite ?plus_IZR; apply Rabs_le; lra.
Qed.

Lemma cellColor_fallback (srcPixels : list Color) (w h : Z) (sx sy ox oy : R)
  (gridX gridY : Z) :
  (count (boxAcc srcPixels w h sx sy ox oy gridX gridY) <= 0)%Z ->
  cellColor srcPixels w h sx sy ox oy gridX gridY =
  pixelAt srcPixels
    (Clamp (RoundToInt (oy + IZR gridY * sy + sy * (1 / 2))) 0 (h - 1) * w
     + Clamp (RoundToInt (ox + IZR gridX * sx + sx * (1 / 2))) 0 (w - 1)).
Proof.
  intros H. unfold cellColor. cbv zeta.
  destruct (Z.gtb_spec (count (boxAcc srcPixels w h sx sy ox oy gridX gridY)) 0);
    [lia|reflexivity].
Qed.

(** ** Grid indices *)

Lemma gridIndex_mono (o s : R) (p q : Z) :
  0 < s -> (p <= q)%Z -> (gridIndex p o s <= gridIndex q o s)%Z.
Proof.
  intros Hs Hpq. unfold gridIndex, FloorToInt. apply Zfloor_le.
  apply IZR_le in Hpq. unfold Rdiv. apply Rmult_le_compat_r; [|lra].
  left. apply Rinv_0_lt_compat. exact Hs.
Qed.

(** With a scale of at least 1 the index grows by at most one per pixel. *)
Lemma gridIndex_succ (o s : R) (p : Z) :
  1 <= s -> (gridIndex (p + 1) o s <= gridIndex p o s + 1)%Z.
Proof.
  intros Hs. unfold gridIndex, FloorToInt.
  rewrite <- (Zfloor_addz 1 ((IZR p - o) / s)). apply Zfloor_le.
  rewrite plus_IZR.
  assert (Hi : 0 < / s <= 1).
  { split; [apply Rinv_0_lt_compat; lra|].
    rewrite <- Rinv_1. apply Rinv_le_contravar; lra. }
  unfold Rdiv. nra.
Qed.

Lemma gridIndex_growth (o s : R) (n : nat) :
  1 <= s ->
  forall p, (gridIndex (p + Z.of_nat n) o s <= gridIndex p o s + Z.of_nat n)%Z.
Proof.
  intros Hs. induction n as [|n IH]; intros p.
  - rewrite Z.add_0_r. lia.
  - replace (p + Z.of_nat (S n))%Z with ((p + Z.of_nat n) + 1)%Z by lia.
    pose proof (gridIndex_succ o s (p + Z.of_nat n) Hs). specialize (IH p). lia.
Qed.

(** Hence every index between those of two pixels is the index of a pixel
    in between. *)
Lemma gridIndex_onto (o s : R) (n : nat) :
  1 <= s ->
  forall p g,
    (gridIndex p o s <= g <= gridIndex (p + Z.of_nat n) o s)%Z ->
    exists q, (p <= q <= p + Z.of_nat n)%Z /\ gridIndex q o s = g.
Proof.
  intros Hs. induction n as [|n IH]; intros p g Hg.
  - rewrite Z.add_0_r in Hg. exists p. split; lia.
  - replace (p + Z.of_nat (S n))%Z with ((p + Z.of_nat n) + 1)%Z in Hg by lia.
    destruct (Z_le_gt_dec g (gridIndex (p + Z.of_nat n) o s)) as [Hle|Hgt].
    + destruct (IH p g) as (q & Hq & Hgq); [lia|]. exists q. split; [lia|exact Hgq].
    + pose proof (gridIndex_succ o s (p + Z.of_nat n) Hs).
      exists (p + Z.of_nat n + 1)%Z. split; lia.
Qed.

(** ** The preview pass *)

Section PreviewPass.
Variable srcPixels : list Color.
Variables w h : Z.
Variables sx sy ox oy : R.

Lemma previewInv_ext (V V' : Z -> Z -> Prop) (st : Preview) :
  (forall x y, V x y <-> V' x y) -> previewInv sx sy ox oy V st -> previewInv sx sy ox oy V' st.
Proof.
  intros Heq (Hv & H1 & H2 & H3 & H4).
  split; [intros x y Hxy; apply Hv, Heq, Hxy|].
  repeat split;
    match goal with
    | H : _ \/ _ |- _ \/ _ =>
        destruct H as [H|(x & y & Hxy & H)];
        [left; exact H|right; exists x, y; split; [apply Heq, Hxy|exact H]]
    end.
Qed.

Lemma pixelStep_bounds (st : Preview) (x y : Z) :
  let st' := pixelStep srcPixels w h sx sy ox oy y st x in
  minGridX st' = Z.min (gridIndex x ox sx) (minGridX st)
  /\ maxGridX st' = Z.max (gridIndex x ox sx) (maxGridX st)
  /\ minGridY st' = Z.min (gridIndex y oy sy) (minGridY st)
  /\ maxGridY st' = Z.max (gridIndex y oy sy) (maxGridY st).
Proof.
  unfold pixelStep. cbv zeta.
  destruct (cellColors st !! (gridIndex x ox sx, gridIndex y oy sy)); cbn [minGridX maxGridX minGridY maxGridY];
    repeat split;
    repeat match goal with
           | |- context [(?a <? ?b)%Z] => destruct (Z.ltb_spec a b)
           | |- context [(?a >? ?b)%Z] => destruct (Z.gtb_spec a b)
           end; lia.
Qed.

Lemma pixelStep_cache (st : Preview) (x y : Z) :
  let st' := pixelStep srcPixels w h sx sy ox oy y st x in
  is_Some (cellColors st' !! (gridIndex x ox sx, gridIndex y oy sy))
  /\ forall key, is_Some (cellColors st !! key) -> is_Some (cellColors st' !! key).
Proof.
  unfold pixelStep. cbv zeta.
  destruct (cellColors st !! (gridIndex x ox sx, gridIndex y oy sy)) as [c|] eqn:Hc; cbn [cellColors].
  - split; [rewrite Hc; eauto|auto].
  - split; [rewrite lookup_insert_eq; eauto|].
    intros key Hkey. destruct (decide (key = (gridIndex x ox sx, gridIndex y oy sy))) as [->|Hne].
    + rewrite lookup_insert_eq. eauto.
    + rewrite lookup_insert_ne by congruence. exact Hkey.
Qed.

Lemma pixelStep_inv (V : Z -> Z -> Prop) (st : Preview) (x y : Z) :
  previewInv sx sy ox oy V st ->
  previewInv sx sy ox oy (fun x' y' => V x' y' \/ (x' = x /\ y' = y))
             (pixelStep srcPixels w h sx sy ox oy y st x).
Proof.
  intros (Hv & H1 & H2 & H3 & H4).
  pose proof (pixelStep_bounds st x y) as (B1 & B2 & B3 & B4).
  pose proof (pixelStep_cache st x y) as (C1 & C2).
  cbv zeta in *. split.
  { intros x' y' [Hxy|[-> ->]].
    - destruct (Hv x' y' Hxy) as (Hc & Hx & Hy).
      split; [apply C2; exact Hc|]. lia.
    - split; [exact C1|]. lia. }
  repeat split.
  - destruct (Z.min_spec (gridIndex x ox sx) (minGridX st)) as [[_ E]|[_ E]].
    + right. exists x, y. split; [right; tauto|lia].
    + destruct H1 as [H1|(x0 & y0 & Hxy & H1)]; [left; lia|].
      right. exists x0, y0. split; [left; exact Hxy|lia].
  - destruct (Z.max_spec (gridIndex x ox sx) (maxGridX st)) as [[_ E]|[_ E]].
    + destruct H2 as [H2|(x0 & y0 & Hxy & H2)]; [left; lia|].
      right. exists x0, y0. split; [left; exact Hxy|lia].
    + right. exists x, y. split; [right; tauto|lia].
  - destruct (Z.min_spec (gridIndex y oy sy) (minGridY st)) as [[_ E]|[_ E]].
    + right. exists x, y. split; [right; tauto|lia].
    + destruct H3 as [H3|(x0 & y0 & Hxy & H3)]; [left; lia|].
      right. exists x0, y0. split; [left; exact Hxy|lia].
  - destruct (Z.max_spec (gridIndex y oy sy) (maxGridY st)) as [[_ E]|[_ E]].
    + destruct H4 as [H4|(x0 & y0 & Hxy & H4)]; [left; lia|].
      right. exists x0, y0. split; [left; exact Hxy|lia].
    + right. exists x, y. split; [right; tauto|lia].
Qed.

Lemma rowFold_inv (xs : list Z) (y : Z) :
  forall (V : Z -> Z -> Prop) (st : Preview),
    previewInv sx sy ox oy V st ->
    previewInv sx sy ox oy (fun x' y' => V x' y' \/ (x' ∈ xs /\ y' = y))
               (fold_left (pixelStep srcPixels w h sx sy ox oy y) xs st).
Proof.
  induction xs as [|x xs IH]; intros V st Hinv; cbn [fold_left].
  - eapply previewInv_ext; [|exact Hinv].
    intros x' y'. split; [tauto|]. intros [Hv|[Hin _]]; [exact Hv|inversion Hin].
  - eapply previewInv_ext; [|apply IH, pixelStep_inv, Hinv].
    intros x' y'. cbn beta. rewrite elem_of_cons. tauto.
Qed.

Lemma rowsFold_inv (xs ys : list Z) :
  forall (V : Z -> Z -> Prop) (st : Preview),
    previewInv sx sy ox oy V st ->
    previewInv sx sy ox oy (fun x' y' => V x' y' \/ (x' ∈ xs /\ y' ∈ ys))
               (fold_left (fun st y => fold_left (pixelStep srcPixels w h sx sy ox oy y) xs st)
                          ys st).
Proof.
  induction ys as [|y ys IH]; intros V st Hinv; cbn [fold_left].
  - eapply previewInv_ext; [|exact Hinv].
    intros x' y'. split; [tauto|]. intros [Hv|[_ Hin]]; [exact Hv|inversion Hin].
  - eapply previewInv_ext; [|apply IH, rowFold_inv, Hinv].
    intros x' y'. cbn beta. rewrite elem_of_cons. tauto.
Qed.

(** After the whole pass every pixel of the image has been visited. *)
Lemma previewPass_inv :
  previewInv sx sy ox oy (fun x y => (0 <= x < w)%Z /\ (0 <= y < h)%Z)
             (previewPass srcPixels w h sx sy ox oy).
Proof.
  unfold previewPass, rowStep.
  eapply previewInv_ext; [|apply rowsFold_inv with (V := fun _ _ => False)].
  - intros x y. cbn beta. rewrite !elem_of_range.
    split; [intros [[]|H]; lia|]. intros H. right. lia.
  - split; [intros x y []|]. cbn [minGridX maxGridX minGridY maxGridY].
    repeat split; left; reflexivity.
Qed.

Hypothesis width_pos : (0 < w)%Z.
Hypothesis height_pos : (0 < h)%Z.
Hypothesis sx_ge_1 : 1 <= sx.
Hypothesis sy_ge_1 : 1 <= sy.
Hypothesis gridX_int :
  forall x, (0 <= x < w)%Z -> (int_MinValue <= gridIndex x ox sx <= int_MaxValue)%Z.
Hypothesis gridY_int :
  forall y, (0 <= y < h)%Z -> (int_MinValue <= gridIndex y oy sy <= int_MaxValue)%Z.

(** The bounds found by the pass are the indices of the first and of the
    last pixel of each axis. *)
Lemma previewPass_bounds :
  let st := previewPass srcPixels w h sx sy ox oy in
  minGridX st = gridIndex 0 ox sx /\ maxGridX st = gridIndex (w - 1) ox sx
  /\ minGridY st = gridIndex 0 oy sy /\ maxGridY st = gridIndex (h - 1) oy sy.
Proof.
  destruct previewPass_inv as (Hv & H1 & H2 & H3 & H4). cbv zeta.
  destruct (Hv 0%Z 0%Z) as (_ & Hx0 & Hy0); [lia|].
  destruct (Hv (w - 1)%Z (h - 1)%Z) as (_ & Hx1 & Hy1); [lia|].
  pose proof (gridX_int 0 ltac:(lia)) as I0. pose proof (gridX_int (w - 1) ltac:(lia)) as I1.
  pose proof (gridY_int 0 ltac:(lia)) as J0. pose proof (gridY_int (h - 1) ltac:(lia)) as J1.
  assert (Hmx : forall x, (0 <= x < w)%Z -> (gridIndex 0 ox sx <= gridIndex x ox sx <= gridIndex (w - 1) ox sx)%Z).
  { intros x Hx. split; apply gridIndex_mono; lra || lia. }
  assert (Hmy : forall y, (0 <= y < h)%Z -> (gridIndex 0 oy sy <= gridIndex y oy sy <= gridIndex (h - 1) oy sy)%Z).
  { intros y Hy. split; apply gridIndex_mono; lra || lia. }
  repeat split.
  - destruct H1 as [E|(x & y & [Hx Hy] & E)]; [lia|]. specialize (Hmx x Hx). lia.
  - destruct H2 as [E|(x & y & [Hx Hy] & E)]; [lia|]. specialize (Hmx x Hx). lia.
  - destruct H3 as [E|(x & y & [Hx Hy] & E)]; [lia|]. specialize (Hmy y Hy). lia.
  - destruct H4 as [E|(x & y & [Hx Hy] & E)]; [lia|]. specialize (Hmy y Hy). lia.
Qed.

(** Every cell of the bounding rectangle is in the cache. *)
Lemma previewPass_covers (gx gy : Z) :
  let st := previewPass srcPixels w h sx sy ox oy in
  (0 <= gx < maxGridX st - minGridX st + 1)%Z ->
  (0 <= gy < maxGridY st - minGridY st + 1)%Z ->
  is_Some (lowResLookup st gx gy).
Proof.
  cbv zeta. destruct previewPass_bounds as (E1 & E2 & E3 & E4).
  rewrite E1, E2, E3, E4. intros Hgx Hgy. unfold lowResLookup. rewrite E1, E3.
  destruct (gridIndex_onto ox sx (Z.to_nat (w - 1)) sx_ge_1 0 (gridIndex 0 ox sx + gx))
    as (x & Hx & Ex).
  { rewrite Z2Nat.id by lia.
    replace (0 + (w - 1))%Z with (w - 1)%Z by lia. lia. }
  destruct (gridIndex_onto oy sy (Z.to_nat (h - 1)) sy_ge_1 0 (gridIndex 0 oy sy + gy))
    as (y & Hy & Ey).
  { rewrite Z2Nat.id by lia.
    replace (0 + (h - 1))%Z with (h - 1)%Z by lia. lia. }
  rewrite Z2Nat.id in Hx, Hy by lia.
  destruct previewPass_inv as (Hv & _).
  destruct (Hv x y) as (Hc & _); [lia|].
  rewrite <- Ex, <- Ey. exact Hc.
Qed.

(** The low-res size is positive and at most the image size. *)
Lemma previewPass_size :
  let st := previewPass srcPixels w h sx sy ox oy in
  (0 < maxGridX st - minGridX st + 1 <= w)%Z
  /\ (0 < maxGridY st - minGridY st + 1 <= h)%Z.
Proof.
  cbv zeta. destruct previewPass_bounds as (E1 & E2 & E3 & E4).
  rewrite E1, E2, E3, E4.
  pose proof (gridIndex_mono ox sx 0 (w - 1) ltac:(lra) ltac:(lia)) as Mx.
  pose proof (gridIndex_mono oy sy 0 (h - 1) ltac:(lra) ltac:(lia)) as My.
  pose proof (gridIndex_growth ox sx (Z.to_nat (w - 1)) sx_ge_1 0) as Gx.
  pose proof (gridIndex_growth oy sy (Z.to_nat (h - 1)) sy_ge_1 0) as Gy.
  rewrite Z2Nat.id in Gx, Gy by lia.
  replace (0 + (w - 1))%Z with (w - 1)%Z in Gx by lia.
  replace (0 + (h - 1))%Z with (h - 1)%Z in Gy by lia.
  lia.
Qed.
End PreviewPass.

Lemma clampScale_ge_1 (s : R) : 1 <= clampScale s.
Proof. unfold clampScale. case_decide; lra. Qed.

(** ** The claims on the reconstruction *)

(** C10.  For an image of positive size whose grid indices are C# [int]s,
    with [sx] and [sy] clamped to at least 1, every cell of
    [minGridX, maxGridX] x [minGridY, maxGridY] has been cached by the
    preview pass: each [TryGetValue] of the low-res loop succeeds, so the
    [Color.black] branch is never taken.  The low-res size is positive and
    at most the image size. *)
Theorem lowres_lookup_never_misses (srcPixels : list Color) (w h : Z)
  (res : ResolutionResult) :
  (0 < w)%Z -> (0 < h)%Z ->
  (forall x, (0 <= x < w)%Z ->
     (int_MinValue <= gridIndex x (offsetX res) (clampScale (scaleX res))
      <= int_MaxValue)%Z) ->
  (forall y, (0 <= y < h)%Z ->
     (int_MinValue <= gridIndex y (offsetY res) (clampScale (scaleY res))
      <= int_MaxValue)%Z) ->
  let rec := ReconstructImage srcPixels w h res in
  (0 < lrW rec <= w)%Z /\ (0 < lrH rec <= h)%Z
  /\ (forall gx gy, (0 <= gx < lrW rec)%Z -> (0 <= gy < lrH rec)%Z ->
        is_Some (lowResLookup (preview rec) gx gy))
  /\ lowRes rec = Some (lowResPixels (preview rec) (lrW rec) (lrH rec)).
Proof.
  intros Hw Hh Hx Hy rec.
  pose proof (clampScale_ge_1 (scaleX res)) as Hsx.
  pose proof (clampScale_ge_1 (scaleY res)) as Hsy.
  pose proof (previewPass_size srcPixels w h _ _ _ _ Hw Hh Hsx Hsy Hx Hy) as [Sx Sy].
  cbv zeta in Sx, Sy.
  unfold rec, ReconstructImage. cbv zeta. cbn [lrW lrH preview lowRes].
  split; [exact Sx|]. split; [exact Sy|]. split.
  - intros gx gy Hgx Hgy.
    apply (previewPass_covers srcPixels w h _ _ _ _ Hw Hh Hsx Hsy Hx Hy); assumption.
  - destruct (Z.gtb_spec (maxGridX (previewPass srcPixels w h (clampScale (scaleX res))
                 (clampScale (scaleY res)) (offsetX res) (offsetY res))
               - minGridX (previewPass srcPixels w h (clampScale (scaleX res))
                 (clampScale (scaleY res)) (offsetX res) (offsetY res)) + 1) 0); [|lia].
    destruct (Z.gtb_spec (maxGridY (previewPass srcPixels w h (clampScale (scaleX res))
                 (clampScale (scaleY res)) (offsetX res) (offsetY res))
               - minGridY (previewPass srcPixels w h (clampScale (scaleX res))
                 (clampScale (scaleY res)) (offsetX res) (offsetY res)) + 1) 0); [|lia].
    reflexivity.
Qed.

Lemma gridIndex_result2 (x : Z) :
  (0 <= x < 2)%Z -> gridIndex x 0 (clampScale 2) = 0%Z.
Proof.
  intros Hx. unfold clampScale. rewrite decide_False by lra.
  unfold gridIndex, FloorToInt. apply Zfloor_eq.
  assert (0 <= IZR x <= 1) by (split; apply IZR_le; lia). lra.
Qed.

Lemma lowres_lookup_never_misses_witness :
  (0 < 2)%Z /\
  (forall x, (0 <= x < 2)%Z ->
     (int_MinValue <= gridIndex x (offsetX result2) (clampScale (scaleX result2))
      <= int_MaxValue)%Z) /\
  let rec := ReconstructImage pixels2 2 2 result2 in
  (0 < lrW rec <= 2)%Z /\ (0 < lrH rec <= 2)%Z
  /\ (forall gx gy, (0 <= gx < lrW rec)%Z -> (0 <= gy < lrH rec)%Z ->
        is_Some (lowResLookup (preview rec) gx gy))
  /\ lowRes rec = Some (lowResPixels (preview rec) (lrW rec) (lrH rec)).
Proof.
  assert (H2 : (0 < 2)%Z) by lia.
  assert (Hfit : forall x, (0 <= x < 2)%Z ->
            (int_MinValue <= gridIndex x 0 (clampScale 2) <= int_MaxValue)%Z).
  { intros x Hx. rewrite (gridIndex_result2 x Hx). unfold int_MinValue, int_MaxValue. lia. }
  split; [exact H2|]. split; [exact Hfit|].
  exact (lowres_lookup_never_misses pixels2 2 2 result2 H2 H2 Hfit Hfit).
Defined.

(** C2 (as amended).  In the low-res shader of main.js, in
    [sampleCenterOnly] mode and in the empty-box fallback, the cell colour
    is the image pixel at [(clamp(trunc(cx), 0, W-1), clamp(trunc(cy), 0,
    H-1))]: the centre is truncated towards zero before clamping.  The
    empty-box fallback of the C# reconstruction fetches the pixel at the
    centre rounded to a nearest integer and clamped. *)
Theorem nearest_lookup_truncates_in_shader
  (u : Main.DownsampleUniforms) (fragX fragY : R)
  (srcPixels : list Color) (w h : Z) (sx sy ox oy : R) (gridX gridY : Z) :
  (Main.uSampleCenterOnly u = true \/ Main.boxEmpty u fragX fragY ->
   Main.fsDownsample u fragX fragY =
   Main.texelFetch (Main.uImage u)
     (Main.clamp (trunc (Main.cellCenterX u fragX)) 0
                 (Main.texWidth (Main.uImage u) - 1))
     (Main.clamp (trunc (Main.cellCenterY u fragY)) 0
                 (Main.texHeight (Main.uImage u) - 1)))
  /\ ((count (boxAcc srcPixels w h sx sy ox oy gridX gridY) <= 0)%Z ->
      let cx := ox + IZR gridX * sx + sx * (1 / 2) in
      let cy := oy + IZR gridY * sy + sy * (1 / 2) in
      cellColor srcPixels w h sx sy ox oy gridX gridY =
      pixelAt srcPixels
        (Clamp (RoundToInt cy) 0 (h - 1) * w + Clamp (RoundToInt cx) 0 (w - 1))
      /\ Rabs (IZR (RoundToInt cx) - cx) <= 1 / 2
      /\ Rabs (IZR (RoundToInt cy) - cy) <= 1 / 2).
Proof.
  split.
  - intros Hmode. destruct (Main.uSampleCenterOnly u) eqn:Hflag.
    + apply MainFacts.fsDownsample_centerOnly. exact Hflag.
    + destruct Hmode as [Habs|Hbox]; [discriminate|].
      apply MainFacts.fsDownsample_emptyBox; assumption.
  - intros Hcount cx cy.
    split; [apply cellColor_fallback; exact Hcount|].
    split; apply RoundToInt_nearest.
Qed.

(** The box of cell (0, 0) of a 2 x 2 image at scale 1 and offset 0 holds
    no pixel: its centre is 0.5 and its half-width 0.3. *)
Lemma boxAcc_empty_cell :
  (count (boxAcc pixels2 2 2 1 1 0 0 0 0) <= 0)%Z.
Proof.
  unfold boxAcc, CeilToInt, FloorToInt. cbv zeta.
  rewrite (MainFacts.Zceil_eq 1) by lra.
  rewrite (Zfloor_eq 0) by lra.
  change (Analyzer.range 1 0) with (@nil Z). cbn [fold_left count]. lia.
Qed.

Lemma nearest_lookup_truncates_in_shader_witness :
  (Main.uSampleCenterOnly Main.centerOnly4 = true
   \/ Main.boxEmpty Main.centerOnly4 (3 / 2) (3 / 2))
  /\ (count (boxAcc pixels2 2 2 1 1 0 0 0 0) <= 0)%Z
  /\ Main.fsDownsample Main.centerOnly4 (3 / 2) (3 / 2) =
     Main.texelFetch (Main.uImage Main.centerOnly4)
       (Main.clamp (trunc (Main.cellCenterX Main.centerOnly4 (3 / 2))) 0
                   (Main.texWidth (Main.uImage Main.centerOnly4) - 1))
       (Main.clamp (trunc (Main.cellCenterY Main.centerOnly4 (3 / 2))) 0
                   (Main.texHeight (Main.uImage Main.centerOnly4) - 1))
  /\ cellColor pixels2 2 2 1 1 0 0 0 0 =
     pixelAt pixels2
       (Clamp (RoundToInt (0 + IZR 0 * 1 + 1 * (1 / 2))) 0 (2 - 1) * 2
        + Clamp (RoundToInt (0 + IZR 0 * 1 + 1 * (1 / 2))) 0 (2 - 1)).
Proof.
  assert (Hmode : Main.uSampleCenterOnly Main.centerOnly4 = true
                  \/ Main.boxEmpty Main.centerOnly4 (3 / 2) (3 / 2))
    by (left; reflexivity).
  split; [exact Hmode|]. split; [exact boxAcc_empty_cell|].
  destruct (nearest_lookup_truncates_in_shader Main.centerOnly4 (3 / 2) (3 / 2)
              pixels2 2 2 1 1 0 0 0 0) as [Hjs Hcs].
  split; [exact (Hjs Hmode)|].
  exact (proj1 (Hcs boxAcc_empty_cell)).
Defined.

(** C2 (as stated) fails on [centerOnly4]: the cell of the fragment
    (1.5, 1.5) has its centre at 1.75 on both axes; the shader fetches
    texel (1, 1) where rounding would give texel (2, 2), and the two
    texels differ. *)
Lemma center_sample_not_rounded :
  Main.uSampleCenterOnly Main.centerOnly4 = true
  /\ Main.fsDownsample Main.centerOnly4 (3 / 2) (3 / 2)
     <> Main.nearestPixel_spec (Main.uImage Main.centerOnly4)
          (Main.cellCenterX Main.centerOnly4 (3 / 2))
          (Main.cellCenterY Main.centerOnly4 (3 / 2)).
Proof.
  split; [reflexivity|].
  destruct MainFacts.centerOnly4_centre as [-> ->].
  destruct MainFacts.centerOnly4_fetch as [-> Hspec].
  change (Main.uImage Main.centerOnly4) with Main.ramp4. rewrite Hspec.
  unfold Main.texelFetch, Main.ramp4. cbn [Main.texel].
  intros Heq. apply (f_equal red) in Heq. cbn [red] in Heq. lra.
Qed.

End UnityFacts.

(** * Further properties of the analyzer *)
Module AnalyzerExtra.
Import Analyzer AnalyzerFacts.

(** ** The DFT sums *)


Lemma dftLoop_linComb (a b step : R) (s1 : list R) :
  forall (s2 : list R) (n : Z) (r1 i1 r2 i2 : R),
    length s1 = length s2 ->
    dftLoop (linComb a s1 b s2) step n (a * r1 + b * r2) (a * i1 + b * i2) =
    (a * fst (dftLoop s1 step n r1 i1) + b * fst (dftLoop s2 step n r2 i2),
     a * snd (dftLoop s1 step n r1 i1) + b * snd (dftLoop s2 step n r2 i2)).
Proof.
  induction s1 as [|x s1 IH]; intros [|y s2] n r1 i1 r2 i2 Hlen;
    try discriminate; cbn [linComb zip_with dftLoop fst snd]; [reflexivity|].
  fold (linComb a s1 b s2).
  replace (a * r1 + b * r2 + (a * x + b * y) * cos (step * IZR n))
    with (a * (r1 + x * cos (step * IZR n)) + b * (r2 + y * cos (step * IZR n)))
    by ring.
  replace (a * i1 + b * i2 + (a * x + b * y) * sin (step * IZR n))
    with (a * (i1 + x * sin (step * IZR n)) + b * (i2 + y * sin (step * IZR n)))
    by ring.
  apply IH. simpl in Hlen. congruence.
Qed.

(** X1.  The two sums of the DFT bin are linear in the signal: for two
    signals of the same length, the sums of [a * s1 + b * s2] at any bin
    [k] are [a] times those of [s1] plus [b] times those of [s2]. *)
Theorem dft_sums_linear (a b k : R) (s1 s2 : list R) :
  length s1 = length s2 ->
  dftSums (linComb a s1 b s2) k =
  (a * fst (dftSums s1 k) + b * fst (dftSums s2 k),
   a * snd (dftSums s1 k) + b * snd (dftSums s2 k)).
Proof.
  intros Hlen. unfold dftSums.
  assert (Hl : length (linComb a s1 b s2) = length s1).
  { unfold linComb. rewrite length_zip_with. lia. }
  rewrite Hl, <- Hlen.
  replace 0 with (a * 0 + b * 0) at 1 2 by ring.
  apply dftLoop_linComb. exact Hlen.
Qed.

Lemma dft_sums_linear_witness :
  length edge2 = length [1; 0] /\
  dftSums (linComb 2 edge2 3 [1; 0]) 1 =
  (2 * fst (dftSums edge2 1) + 3 * fst (dftSums [1; 0] 1),
   2 * snd (dftSums edge2 1) + 3 * snd (dftSums [1; 0] 1)).
Proof.
  assert (Hlen : length edge2 = length [1; 0]) by reflexivity.
  split; [exact Hlen|]. exact (dft_sums_linear 2 3 1 edge2 [1; 0] Hlen).
Defined.

(** ** The magnitude is at most the sum of the absolute samples *)









Lemma analyze_Some_inv (fuel : nat) (data : list R) (maxScale : R)
  (r : AxisEstimate) :
  analyzePeriodicity fuel data maxScale = Some r ->
  (totalEnergy data < 1 / 10000
   /\ r = {| scale := 1; offset := 0; confidence := 0 |})
  \/ (~ totalEnergy data < 1 / 10000
      /\ scale r = IZR (Z.of_nat (length data)) / chosenKOf data maxScale
      /\ confidence r =
         magnitude (calculateDFTBin data (chosenKOf data maxScale))
         / (totalEnergy data / scale r)).
Proof.
  intros Hret.
  destruct (decide (totalEnergy data < 1 / 10000)) as [Hlow|Hhigh].
  - left. rewrite analyze_degenerate in Hret by exact Hlow.
    injection Hret as <-. split; [exact Hlow|reflexivity].
  - right. rewrite analyze_unfold in Hret by exact Hhigh. cbv zeta in Hret.
    destruct (raiseLoop fuel _ _) as [o1|]; [|discriminate].
    destruct (lowerLoop fuel o1 _) as [o2|]; [|discriminate].
    injection Hret as <-. cbn [scale confidence]. repeat split. exact Hhigh.
Qed.




(** ** The range of the returned scale *)

Lemma chosenK_le_maxK (data : list R) (maxScale : R) :
  (bandMin data maxScale <= bandMax data)%Z ->
  chosenKOf data maxScale <= IZR (bandMax data).
Proof.
  intros Hne.
  destruct (selectedBin data maxScale) as [k|] eqn:Hsel.
  - rewrite (chosenK_selected _ _ _ Hsel).
    pose proof (selectedBin_Some _ _ _ Hsel) as (Hr & (H1 & H3 & _) & _).
    pose proof (refine_bounds _ _ H1 H3) as (_ & _ & Hhi).
    assert (IZR k <= IZR (bandMax data) - 1).
    { rewrite <- minus_IZR. apply IZR_le. lia. }
    lra.
  - destruct (chosenK_fallback _ _ Hsel Hne) as (k & Hk & _ & _ & ->).
    apply IZR_le. lia.
Qed.

Lemma nondegenerate_scale_range (data : list R) (maxScale : R) :
  (bandMin data maxScale <= bandMax data)%Z ->
  2 <= IZR (Z.of_nat (length data)) / chosenKOf data maxScale
    <= IZR (Z.of_nat (length data)).
Proof.
  intros Hband.
  pose proof (chosenK_ge_1 _ _ Hband) as Hlo.
  pose proof (chosenK_le_maxK _ _ Hband) as Hhi.
  pose proof (maxK_le_half (Z.of_nat (length data))) as Hmax.
  fold (bandMax data) in Hmax.
  set (c := chosenKOf data maxScale) in *.
  set (n := IZR (Z.of_nat (length data))) in *.
  split.
  - apply Rmult_le_reg_r with c; [lra|].
    replace (n / c * c) with n by (field; lra). lra.
  - apply Rmult_le_reg_r with c; [lra|].
    replace (n / c * c) with n by (field; lra). nra.
Qed.

(** X4.  On a signal of N >= 2 samples with [maxScale >= 2], the scale of
    every returned estimate is 1 (total energy below 10^-4) or lies
    between 2 and N. *)
Theorem returned_scale_range (fuel : nat) (data : list R) (maxScale : R)
  (r : AxisEstimate) :
  (2 <= length data)%nat -> 2 <= maxScale ->
  analyzePeriodicity fuel data maxScale = Some r ->
  (totalEnergy data < 1 / 10000 /\ scale r = 1)
  \/ (totalEnergy data >= 1 / 10000
      /\ 2 <= scale r <= IZR (Z.of_nat (length data))).
Proof.
  intros HN Hs Hret.
  destruct (analyze_Some_inv _ _ _ _ Hret) as [[Hlow ->]|(Hhigh & Hsc & _)].
  - left. split; [exact Hlow|reflexivity].
  - right. split; [lra|]. rewrite Hsc.
    apply nondegenerate_scale_range, band_nonempty; [lia|exact Hs].
Qed.

Lemma returned_scale_range_witness :
  (2 <= length edge2)%nat /\ 2 <= 2 /\
  exists r, analyzePeriodicity 2 edge2 2 = Some r
    /\ ((totalEnergy edge2 < 1 / 10000 /\ scale r = 1)
        \/ (totalEnergy edge2 >= 1 / 10000
            /\ 2 <= scale r <= IZR (Z.of_nat (length edge2)))).
Proof.
  assert (HN : (2 <= length edge2)%nat) by (simpl; lia).
  assert (Hs : 2 <= 2) by lra.
  split; [exact HN|]. split; [exact Hs|].
  destruct edge2_estimate as (r & Hret & _).
  exists r. split; [exact Hret|].
  exact (returned_scale_range 2 edge2 2 r HN Hs Hret).
Defined.

(** ** Termination *)

Lemma energy_length_pos (data : list R) :
  ~ totalEnergy data < 1 / 10000 -> 0 < IZR (Z.of_nat (length data)).
Proof.
  intros He. apply IZR_lt. destruct data as [|x data]; [|simpl; lia].
  exfalso. apply He. unfold totalEnergy. simpl. lra.
Qed.

Lemma analyze_empty_band (fuel : nat) (data : list R) (maxScale : R) :
  ~ totalEnergy data < 1 / 10000 ->
  (bandMax data < bandMin data maxScale)%Z ->
  analyzePeriodicity fuel data maxScale = None.
Proof.
  intros He Hband. rewrite analyze_unfold by exact He. cbv zeta.
  rewrite chosenK_empty_band by exact Hband.
  pose proof (energy_length_pos data He) as HN.
  assert (Hsc : IZR (Z.of_nat (length data)) / -1 < 0).
  { replace (IZR (Z.of_nat (length data)) / -1)
      with (- IZR (Z.of_nat (length data))) by (field; lra). lra. }
  destruct (raiseLoop fuel _ _) as [o1|] eqn:Hr; [|reflexivity].
  apply raiseLoop_Some in Hr.
  rewrite lowerLoop_negative; [reflexivity|exact Hsc|lra].
Qed.



(** X6.  A signal of a single sample, or a [maxScale] in (0, 1], leaves
    the band empty: above the energy threshold the fitter then returns for
    no amount of fuel. *)
Theorem fit_never_returns_below_one (fuel : nat) (data : list R) (maxScale : R) :
  totalEnergy data >= 1 / 10000 ->
  length data = 1%nat \/ 0 < maxScale <= 1 ->
  analyzePeriodicity fuel data maxScale = None.
Proof.
  intros He Hcase. apply analyze_empty_band; [lra|].
  pose proof (energy_length_pos data ltac:(lra)) as HN.
  pose proof (minK_ge_1 (Z.of_nat (length data)) maxScale) as Hmin.
  pose proof (minK_floor (Z.of_nat (length data)) maxScale) as Hfl.
  pose proof (maxK_le_half (Z.of_nat (length data))) as Hmax.
  fold (bandMin data maxScale) in Hmin, Hfl. fold (bandMax data) in Hmax.
  apply lt_IZR.
  destruct Hcase as [H1|[Hs0 Hs1]].
  - rewrite H1 in Hmax. change (Z.of_nat 1) with 1%Z in Hmax.
    apply IZR_le in Hmin. lra.
  - assert (Hq : IZR (Z.of_nat (length data)) <= IZR (Z.of_nat (length data)) / maxScale).
    { apply Rmult_le_reg_r with maxScale; [exact Hs0|].
      replace (IZR (Z.of_nat (length data)) / maxScale * maxScale)
        with (IZR (Z.of_nat (length data))) by (field; lra). nra. }
    apply Zfloor_lub in Hq. apply IZR_le in Hq, Hfl. lra.
Qed.

Lemma fit_never_returns_below_one_witness :
  totalEnergy edge2 >= 1 / 10000 /\ (length edge2 = 1%nat \/ 0 < 1 <= 1) /\
  analyzePeriodicity 5 edge2 1 = None.
Proof.
  assert (He : totalEnergy edge2 >= 1 / 10000) by (rewrite energy_edge2; lra).
  assert (Hc : length edge2 = 1%nat \/ 0 < 1 <= 1) by (right; lra).
  split; [exact He|]. split; [exact Hc|].
  exact (fit_never_returns_below_one 5 edge2 1 He Hc).
Defined.


(** ** What the sweep leaves behind *)





(** ** Scaling the signal by a positive factor *)

Section Scaling.
Variable a : R.
Hypothesis a_pos : 0 < a.















End Scaling.



End AnalyzerExtra.

(** * Further properties of the shaders and of the download *)
Module MainExtra.
Import Analyzer Main AnalyzerFacts MainFacts.

(** ** The edge signals *)

Lemma colDiffStep_nonneg (img : sampler2D) (x : Z) (sum : R) (y : Z) :
  0 <= sum -> 0 <= colDiffStep img x sum y.
Proof.
  intros H. unfold colDiffStep.
  pose proof (Rabs_pos (red (texelFetch img x y)
                       - red (texelFetch img (if (x >? 0)%Z then (x - 1)%Z else 0%Z) y))).
  pose proof (Rabs_pos (green (texelFetch img x y)
                       - green (texelFetch img (if (x >? 0)%Z then (x - 1)%Z else 0%Z) y))).
  pose proof (Rabs_pos (blue (texelFetch img x y)
                       - blue (texelFetch img (if (x >? 0)%Z then (x - 1)%Z else 0%Z) y))).
  lra.
Qed.

Lemma rowDiffStep_nonneg (img : sampler2D) (y : Z) (sum : R) (x : Z) :
  0 <= sum -> 0 <= rowDiffStep img y sum x.
Proof.
  intros H. unfold rowDiffStep.
  pose proof (Rabs_pos (red (texelFetch img x y)
                       - red (texelFetch img x (if (y >? 0)%Z then (y - 1)%Z else 0%Z)))).
  pose proof (Rabs_pos (green (texelFetch img x y)
                       - green (texelFetch img x (if (y >? 0)%Z then (y - 1)%Z else 0%Z)))).
  pose proof (Rabs_pos (blue (texelFetch img x y)
                       - blue (texelFetch img x (if (y >? 0)%Z then (y - 1)%Z else 0%Z)))).
  lra.
Qed.

Lemma fold_nonneg {A : Type} (f : R -> A -> R) (l : list A) :
  (forall s a, 0 <= s -> 0 <= f s a) ->
  forall s, 0 <= s -> 0 <= fold_left f l s.
Proof.
  intros Hf. induction l as [|a l IH]; intros s Hs; simpl; [exact Hs|].
  apply IH, Hf, Hs.
Qed.

Lemma fold_fixed {A : Type} (f : R -> A -> R) (l : list A) (s : R) :
  (forall a, f s a = s) -> fold_left f l s = s.
Proof.
  intros Hf. induction l as [|a l IH]; simpl; [reflexivity|]. rewrite Hf. exact IH.
Qed.

Lemma fsColDiff_nonneg (img : sampler2D) (w h : Z) (fragX : R) :
  0 <= red (fsColDiff img w h fragX).
Proof.
  unfold fsColDiff. destruct (trunc fragX >=? w)%Z; cbn [red]; [lra|].
  apply fold_nonneg; [intros; apply colDiffStep_nonneg; assumption|lra].
Qed.

Lemma fsRowDiff_nonneg (img : sampler2D) (w h : Z) (fragY : R) :
  0 <= red (fsRowDiff img w h fragY).
Proof.
  unfold fsRowDiff. destruct (trunc fragY >=? h)%Z; cbn [red]; [lra|].
  apply fold_nonneg; [intros; apply rowDiffStep_nonneg; assumption|lra].
Qed.

Lemma length_range (lo hi : Z) : length (range lo hi) = Z.to_nat (hi - lo + 1).
Proof. unfold range. apply length_seqZ. Qed.

Lemma colData_nonneg (img : sampler2D) : Forall (fun d => 0 <= d) (colData img).
Proof.
  unfold colData. apply Forall_map, Forall_forall. intros x _. apply fsColDiff_nonneg.
Qed.

Lemma rowData_nonneg (img : sampler2D) : Forall (fun d => 0 <= d) (rowData img).
Proof.
  unfold rowData. apply Forall_map, Forall_forall. intros y _. apply fsRowDiff_nonneg.
Qed.

(** X9.  The column signal has one sample per image column and the row
    signal one per row; no sample is negative; and, because the
    difference of column 0 (row 0) is taken with itself, the first sample
    of each signal is 0. *)
Theorem edge_signals_shape (img : sampler2D) :
  (1 <= texWidth img)%Z -> (1 <= texHeight img)%Z ->
  length (colData img) = Z.to_nat (texWidth img)
  /\ length (rowData img) = Z.to_nat (texHeight img)
  /\ Forall (fun d => 0 <= d) (colData img)
  /\ Forall (fun d => 0 <= d) (rowData img)
  /\ colData img !! 0%nat = Some 0
  /\ rowData img !! 0%nat = Some 0.
Proof.
  intros Hw Hh.
  split; [unfold colData; rewrite length_map, length_range; f_equal; lia|].
  split; [unfold rowData; rewrite length_map, length_range; f_equal; lia|].
  split; [apply colData_nonneg|]. split; [apply rowData_nonneg|].
  split.
  - unfold colData. rewrite (range_cons 0) by lia. cbn [map lookup list_lookup].
    f_equal. unfold fsColDiff. rewrite (trunc_pixel_centre 0) by lia.
    destruct (Z.geb_spec 0 (texWidth img)); [lia|]. cbn [red].
    apply fold_fixed. intros y. unfold colDiffStep. cbn [Z.gtb Z.compare].
    rewrite !Rminus_diag, Rabs_R0. ring.
  - unfold rowData. rewrite (range_cons 0) by lia. cbn [map lookup list_lookup].
    f_equal. unfold fsRowDiff. rewrite (trunc_pixel_centre 0) by lia.
    destruct (Z.geb_spec 0 (texHeight img)); [lia|]. cbn [red].
    apply fold_fixed. intros x. unfold rowDiffStep. cbn [Z.gtb Z.compare].
    rewrite !Rminus_diag, Rabs_R0. ring.
Qed.

Lemma edge_signals_shape_witness :
  (1 <= texWidth ramp4)%Z /\ (1 <= texHeight ramp4)%Z /\
  length (colData ramp4) = Z.to_nat (texWidth ramp4)
  /\ length (rowData ramp4) = Z.to_nat (texHeight ramp4)
  /\ Forall (fun d => 0 <= d) (colData ramp4)
  /\ Forall (fun d => 0 <= d) (rowData ramp4)
  /\ colData ramp4 !! 0%nat = Some 0
  /\ rowData ramp4 !! 0%nat = Some 0.
Proof.
  assert (Hw : (1 <= texWidth ramp4)%Z) by (cbn; lia).
  assert (Hh : (1 <= texHeight ramp4)%Z) by (cbn; lia).
  split; [exact Hw|]. split; [exact Hh|].
  exact (edge_signals_shape ramp4 Hw Hh).
Defined.



(** ** The box filter of the down-sampling shader *)

Lemma fsDownsample_box (u : DownsampleUniforms) (fragX fragY : R) :
  uSampleCenterOnly u = false ->
  fsDownsample u fragX fragY =
  let '(minX, maxX, minY, maxY) :=
    boxBounds (uImage u) (uScaleX u) (uScaleY u)
              (cellCenterX u fragX) (cellCenterY u fragY) in
  let '(sum, count) := boxSum (uImage u) minX maxX minY maxY in
  if decide (count > 0) then vdiv sum count
  else texelFetch (uImage u)
         (clamp (trunc (cellCenterX u fragX)) 0 (texWidth (uImage u) - 1))
         (clamp (trunc (cellCenterY u fragY)) 0 (texHeight (uImage u) - 1)).
Proof. intros H. unfold fsDownsample. rewrite H. reflexivity. Qed.

(** An invariant of the state [(sum, count)] kept by every step inside the
    rectangle holds after the two loops. *)
Lemma boxSum_invariant (Inv : vec4 * R -> Prop) (img : sampler2D)
  (minX maxX minY maxY : Z) :
  Inv (mkRGBA 0 0 0 0, 0) ->
  (forall st sx sy, (minX <= sx <= maxX)%Z -> (minY <= sy <= maxY)%Z ->
     Inv st -> Inv (vadd (fst st) (texelFetch img sx sy), snd st + 1)) ->
  Inv (boxSum img minX maxX minY maxY).
Proof.
  intros H0 Hstep. unfold boxSum.
  assert (Hrow : forall sy xs st, (minY <= sy <= maxY)%Z ->
            Forall (fun sx => (minX <= sx <= maxX)%Z) xs -> Inv st ->
            Inv (fold_left (fun st sx => (vadd (fst st) (texelFetch img sx sy), snd st + 1))
                           xs st)).
  { intros sy xs. induction xs as [|sx xs IH]; intros st Hsy Hxs Hst; simpl; [exact Hst|].
    inversion Hxs; subst. apply IH; [exact Hsy|assumption|].
    apply Hstep; assumption. }
  assert (Hxs : Forall (fun sx => (minX <= sx <= maxX)%Z) (range minX maxX)).
  { apply Forall_forall. intros sx Hsx. apply elem_of_range in Hsx. exact Hsx. }
  assert (Hys : Forall (fun sy => (minY <= sy <= maxY)%Z) (range minY maxY)).
  { apply Forall_forall. intros sy Hsy. apply elem_of_range in Hsy. exact Hsy. }
  revert Hys H0. generalize (mkRGBA 0 0 0 0, 0). generalize (range minY maxY).
  intros ys. induction ys as [|sy ys IH]; intros st Hys Hst; simpl; [exact Hst|].
  inversion Hys; subst. apply IH; [assumption|]. apply Hrow; assumption.
Qed.

Lemma boxSum_ext (img1 img2 : sampler2D) (minX maxX minY maxY : Z) :
  (forall sx sy, (minX <= sx <= maxX)%Z -> (minY <= sy <= maxY)%Z ->
                 texel img1 sx sy = texel img2 sx sy) ->
  boxSum img1 minX maxX minY maxY = boxSum img2 minX maxX minY maxY.
Proof.
  intros Heq. unfold boxSum.
  assert (Hrow : forall sy xs st, (minY <= sy <= maxY)%Z ->
            Forall (fun sx => (minX <= sx <= maxX)%Z) xs ->
            fold_left (fun st sx => (vadd (fst st) (texelFetch img1 sx sy), snd st + 1)) xs st
            = fold_left (fun st sx => (vadd (fst st) (texelFetch img2 sx sy), snd st + 1)) xs st).
  { intros sy xs. induction xs as [|sx xs IH]; intros st Hsy Hxs; cbn [fold_left];
      [reflexivity|].
    inversion Hxs; subst. rewrite IH by assumption.
    unfold texelFetch. rewrite (Heq sx sy) by assumption. reflexivity. }
  assert (Hxs : Forall (fun sx => (minX <= sx <= maxX)%Z) (range minX maxX)).
  { apply Forall_forall. intros sx Hsx. apply elem_of_range in Hsx. exact Hsx. }
  assert (Hys : Forall (fun sy => (minY <= sy <= maxY)%Z) (range minY maxY)).
  { apply Forall_forall. intros sy Hsy. apply elem_of_range in Hsy. exact Hsy. }
  revert Hys. generalize (mkRGBA 0 0 0 0, 0). generalize (range minY maxY).
  intros ys. induction ys as [|sy ys IH]; intros st Hys; simpl; [reflexivity|].
  inversion Hys; subst. rewrite Hrow by assumption. apply IH. assumption.
Qed.

Lemma boxSum_count (img : sampler2D) (minX maxX minY maxY : Z) :
  snd (boxSum img minX maxX minY maxY)
  = IZR (Z.max 0 (maxX - minX + 1) * Z.max 0 (maxY - minY + 1)).
Proof.
  unfold boxSum.
  assert (Hrow : forall sy xs st,
            snd (fold_left (fun st sx => (vadd (fst st) (texelFetch img sx sy), snd st + 1)) xs st)
            = snd st + INR (length xs)).
  { intros sy xs. induction xs as [|sx xs IH]; intros st.
    - simpl. ring.
    - cbn [fold_left]. rewrite IH. cbn [snd]. rewrite length_cons, S_INR. ring. }
  assert (Hall : forall ys st,
            snd (fold_left (fun st sy =>
                   fold_left (fun st sx => (vadd (fst st) (texelFetch img sx sy), snd st + 1))
                             (range minX maxX) st) ys st)
            = snd st + INR (length ys) * INR (length (range minX maxX))).
  { intros ys. induction ys as [|sy ys IH]; intros st.
    - simpl. ring.
    - cbn [fold_left]. rewrite IH, Hrow, length_cons, S_INR. ring. }
  rewrite Hall. cbn [snd]. rewrite !length_range, !INR_IZR_INZ.
  replace (Z.of_nat (Z.to_nat (maxX - minX + 1))) with (Z.max 0 (maxX - minX + 1)) by lia.
  replace (Z.of_nat (Z.to_nat (maxY - minY + 1))) with (Z.max 0 (maxY - minY + 1)) by lia.
  rewrite mult_IZR. ring.
Qed.

(** The clipped box lies inside the texture. *)
Lemma boxBounds_inside (img : sampler2D) (sx sy cx cy : R) :
  let '(minX, maxX, minY, maxY) := boxBounds img sx sy cx cy in
  (0 <= minX)%Z /\ (maxX <= texWidth img - 1)%Z
  /\ (0 <= minY)%Z /\ (maxY <= texHeight img - 1)%Z.
Proof. unfold boxBounds. cbv zeta. repeat split; lia. Qed.

Lemma clamp_inside (x n : Z) : (1 <= n)%Z -> (0 <= clamp x 0 (n - 1) < n)%Z.
Proof. intros H. unfold clamp. lia. Qed.

(** X11.  [fsDownsample] never fetches a texel outside the texture (of
    positive size): binding another texture of the same size with the same
    texels inside gives the same colour, in every mode. *)
Theorem downsample_reads_inside (u : DownsampleUniforms) (img' : sampler2D)
  (fragX fragY : R) :
  (1 <= texWidth (uImage u))%Z -> (1 <= texHeight (uImage u))%Z ->
  sameInside (uImage u) img' ->
  fsDownsample (withImage u img') fragX fragY = fsDownsample u fragX fragY.
Proof.
  intros Hw Hh (Ew & Eh & Etex).
  assert (Hfetch : forall x y,
            texelFetch img' (clamp x 0 (texWidth img' - 1)) (clamp y 0 (texHeight img' - 1))
            = texelFetch (uImage u) (clamp x 0 (texWidth (uImage u) - 1))
                         (clamp y 0 (texHeight (uImage u) - 1))).
  { intros x y. rewrite <- Ew, <- Eh. unfold texelFetch. symmetry.
    apply Etex; apply clamp_inside; assumption. }
  destruct (uSampleCenterOnly u) eqn:Hmode.
  - rewrite !fsDownsample_centerOnly by (try exact Hmode; cbn; exact Hmode).
    apply Hfetch.
  - rewrite (fsDownsample_box u) by exact Hmode.
    rewrite (fsDownsample_box (withImage u img')) by (cbn; exact Hmode).
    change (cellCenterX (withImage u img') fragX) with (cellCenterX u fragX).
    change (cellCenterY (withImage u img') fragY) with (cellCenterY u fragY).
    cbn [withImage uImage uScaleX uScaleY].
    assert (Hb : boxBounds img' (uScaleX u) (uScaleY u) (cellCenterX u fragX)
                   (cellCenterY u fragY)
                 = boxBounds (uImage u) (uScaleX u) (uScaleY u) (cellCenterX u fragX)
                     (cellCenterY u fragY)).
    { unfold boxBounds. rewrite Ew, Eh. reflexivity. }
    rewrite Hb.
    pose proof (boxBounds_inside (uImage u) (uScaleX u) (uScaleY u)
                  (cellCenterX u fragX) (cellCenterY u fragY)) as Hin.
    destruct (boxBounds (uImage u) _ _ _ _) as [[[minX maxX] minY] maxY].
    destruct Hin as (I1 & I2 & I3 & I4).
    rewrite (boxSum_ext img' (uImage u)).
    + destruct (boxSum (uImage u) minX maxX minY maxY) as [sum count].
      case_decide; [reflexivity|apply Hfetch].
    + intros sx sy Hsx Hsy. symmetry. apply Etex; lia.
Qed.

Lemma downsample_reads_inside_witness :
  (1 <= texWidth (uImage boxed4))%Z /\ (1 <= texHeight (uImage boxed4))%Z /\
  sameInside (uImage boxed4) ramp4_padded /\
  fsDownsample (withImage boxed4 ramp4_padded) (5 / 2) (1 / 2)
  = fsDownsample boxed4 (5 / 2) (1 / 2).
Proof.
  assert (Hw : (1 <= texWidth (uImage boxed4))%Z) by (cbn; lia).
  assert (Hh : (1 <= texHeight (uImage boxed4))%Z) by (cbn; lia).
  assert (Hs : sameInside (uImage boxed4) ramp4_padded).
  { split; [reflexivity|]. split; [reflexivity|].
    intros x y Hx Hy. cbn [boxed4 uImage ramp4 ramp4_padded texel].
    rewrite !Z.max_r by lia. reflexivity. }
  split; [exact Hw|]. split; [exact Hh|]. split; [exact Hs|].
  exact (downsample_reads_inside boxed4 ramp4_padded (5 / 2) (1 / 2) Hw Hh Hs).
Defined.

(** ** Colour range and the mean *)

Lemma scaled_within (lo hi s c : R) :
  0 < c -> lo * c <= s <= hi * c -> lo <= s / c <= hi.
Proof.
  intros Hc [H1 H2].
  assert (Hi : 0 < / c) by (apply Rinv_0_lt_compat; exact Hc).
  assert (E : s / c * c = s) by (field; lra).
  split; apply Rmult_le_reg_r with c; try exact Hc; rewrite E; assumption.
Qed.

(** X12.  If every texel inside the texture has its four channels in
    [[lo, hi]], so has the colour [fsDownsample] returns, in every mode:
    the box filter is a mean and the fallbacks fetch inside the texture. *)
Theorem downsample_within_range (u : DownsampleUniforms) (lo hi : R)
  (fragX fragY : R) :
  (1 <= texWidth (uImage u))%Z -> (1 <= texHeight (uImage u))%Z ->
  (forall x y, (0 <= x < texWidth (uImage u))%Z -> (0 <= y < texHeight (uImage u))%Z ->
               channelsWithin lo hi (texel (uImage u) x y)) ->
  channelsWithin lo hi (fsDownsample u fragX fragY).
Proof.
  intros Hw Hh Htex.
  assert (Hfetch : forall x y,
            channelsWithin lo hi
              (texelFetch (uImage u) (clamp x 0 (texWidth (uImage u) - 1))
                          (clamp y 0 (texHeight (uImage u) - 1)))).
  { intros x y. apply Htex; apply clamp_inside; assumption. }
  destruct (uSampleCenterOnly u) eqn:Hmode.
  - rewrite fsDownsample_centerOnly by exact Hmode. apply Hfetch.
  - rewrite fsDownsample_box by exact Hmode.
    pose proof (boxBounds_inside (uImage u) (uScaleX u) (uScaleY u)
                  (cellCenterX u fragX) (cellCenterY u fragY)) as Hin.
    destruct (boxBounds (uImage u) _ _ _ _) as [[[minX maxX] minY] maxY].
    destruct Hin as (I1 & I2 & I3 & I4).
    pose proof (boxSum_invariant
      (fun st => 0 <= snd st
                 /\ lo * snd st <= red (fst st) <= hi * snd st
                 /\ lo * snd st <= green (fst st) <= hi * snd st
                 /\ lo * snd st <= blue (fst st) <= hi * snd st
                 /\ lo * snd st <= alpha (fst st) <= hi * snd st)
      (uImage u) minX maxX minY maxY) as Hinv.
    cbv beta in Hinv.
    destruct Hinv as (C0 & Cr & Cg & Cb & Ca).
    { cbn [fst snd red green blue alpha]. repeat split; lra. }
    { intros st sx sy Hsx Hsy (S0 & Sr & Sg & Sb & Sa).
      destruct (Htex sx sy ltac:(lia) ltac:(lia)) as (Tr & Tg & Tb & Ta).
      unfold texelFetch, vadd. cbn [fst snd red green blue alpha].
      repeat split; lra. }
    destruct (boxSum (uImage u) minX maxX minY maxY) as [sum count].
    cbn [fst snd] in *.
    case_decide; [|apply Hfetch].
    unfold channelsWithin, vdiv. cbn [red green blue alpha].
    repeat split; apply (scaled_within lo hi _ count); lra.
Qed.

Lemma downsample_within_range_witness :
  (1 <= texWidth (uImage boxed4))%Z /\ (1 <= texHeight (uImage boxed4))%Z /\
  (forall x y, (0 <= x < texWidth (uImage boxed4))%Z ->
               (0 <= y < texHeight (uImage boxed4))%Z ->
               channelsWithin 0 1 (texel (uImage boxed4) x y)) /\
  channelsWithin 0 1 (fsDownsample boxed4 (5 / 2) (1 / 2)).
Proof.
  assert (Hw : (1 <= texWidth (uImage boxed4))%Z) by (cbn; lia).
  assert (Hh : (1 <= texHeight (uImage boxed4))%Z) by (cbn; lia).
  assert (Ht : forall x y, (0 <= x < texWidth (uImage boxed4))%Z ->
               (0 <= y < texHeight (uImage boxed4))%Z ->
               channelsWithin 0 1 (texel (uImage boxed4) x y)).
  { intros x y Hx Hy. cbn [boxed4 uImage ramp4 texel texWidth texHeight] in *.
    unfold channelsWithin. cbn [red green blue alpha].
    assert (0 <= IZR x <= 3) by (split; apply IZR_le; lia).
    assert (0 <= IZR y <= 3) by (split; apply IZR_le; lia).
    repeat split; lra. }
  split; [exact Hw|]. split; [exact Hh|]. split; [exact Ht|].
  exact (downsample_within_range boxed4 0 1 (5 / 2) (1 / 2) Hw Hh Ht).
Defined.

(** X13.  With the box filter, when the clipped box [minX..maxX] x
    [minY..maxY] is not empty the shader returns the sum of its texels
    divided by their number [(maxX - minX + 1) * (maxY - minY + 1)]; the
    nearest-pixel fallback is taken exactly when the box is empty. *)
Theorem box_filter_is_mean (u : DownsampleUniforms) (fragX fragY : R)
  (minX maxX minY maxY : Z) :
  uSampleCenterOnly u = false ->
  boxBounds (uImage u) (uScaleX u) (uScaleY u)
            (cellCenterX u fragX) (cellCenterY u fragY) = (minX, maxX, minY, maxY) ->
  ((minX <= maxX)%Z /\ (minY <= maxY)%Z ->
   fsDownsample u fragX fragY =
   vdiv (fst (boxSum (uImage u) minX maxX minY maxY))
        (IZR ((maxX - minX + 1) * (maxY - minY + 1))))
  /\ (boxEmpty u fragX fragY <-> (maxX < minX)%Z \/ (maxY < minY)%Z).
Proof.
  intros Hmode Hb. split.
  - intros [Hx Hy]. rewrite fsDownsample_box by exact Hmode. rewrite Hb.
    pose proof (boxSum_count (uImage u) minX maxX minY maxY) as Hc.
    destruct (boxSum (uImage u) minX maxX minY maxY) as [sum count].
    cbn [fst snd] in *.
    rewrite !Z.max_r in Hc by lia. rewrite Hc.
    rewrite decide_True; [reflexivity|].
    apply IZR_lt. nia.
  - unfold boxEmpty. unfold boxBounds in Hb. cbv zeta in *.
    injection Hb as <- <- <- <-. reflexivity.
Qed.

(** The box of the output pixel (2, 0) of [boxed4]: the single image
    pixel (3, 0). *)
Lemma boxed4_bounds :
  boxBounds (uImage boxed4) (uScaleX boxed4) (uScaleY boxed4)
            (cellCenterX boxed4 (2 + 1 / 2)) (cellCenterY boxed4 (0 + 1 / 2))
  = (3, 3, 0, 0)%Z.
Proof.
  unfold boxBounds, cellCenterX, cellCenterY, boxed4.
  cbn [uOffsetX uOffsetY uScaleX uScaleY uGridOffsetX uGridOffsetY uImage
       ramp4 texWidth texHeight].
  rewrite (Zfloor_eq 2 (2 + 1 / 2)) by lra. rewrite (Zfloor_eq 0 (0 + 1 / 2)) by lra.
  rewrite (Zceil_eq 3 (3 / 4 + (2 + -1) * (3 / 2) + 3 / 2 * (1 / 2) - 3 / 2 * (3 / 10)))
    by lra.
  rewrite (Zfloor_eq 3 (3 / 4 + (2 + -1) * (3 / 2) + 3 / 2 * (1 / 2) + 3 / 2 * (3 / 10)))
    by lra.
  rewrite (Zceil_eq 0 (3 / 4 + (0 + -1) * (3 / 2) + 3 / 2 * (1 / 2) - 3 / 2 * (3 / 10)))
    by lra.
  rewrite (Zfloor_eq 0 (3 / 4 + (0 + -1) * (3 / 2) + 3 / 2 * (1 / 2) + 3 / 2 * (3 / 10)))
    by lra.
  rewrite !trunc_IZR. reflexivity.
Qed.

Lemma box_filter_is_mean_witness :
  uSampleCenterOnly boxed4 = false /\
  boxBounds (uImage boxed4) (uScaleX boxed4) (uScaleY boxed4)
            (cellCenterX boxed4 (2 + 1 / 2)) (cellCenterY boxed4 (0 + 1 / 2))
  = (3, 3, 0, 0)%Z /\
  fsDownsample boxed4 (2 + 1 / 2) (0 + 1 / 2) =
  vdiv (fst (boxSum (uImage boxed4) 3 3 0 0)) (IZR ((3 - 3 + 1) * (0 - 0 + 1))).
Proof.
  assert (Hm : uSampleCenterOnly boxed4 = false) by reflexivity.
  split; [exact Hm|]. split; [exact boxed4_bounds|].
  apply (proj1 (box_filter_is_mean boxed4 (2 + 1 / 2) (0 + 1 / 2) 3 3 0 0 Hm boxed4_bounds)).
  lia.
Defined.

(** ** The size of the reconstructed grid *)

Lemma floor_span (a b : R) :
  b - a - 1 < IZR (Zfloor b - Zfloor a) < b - a + 1.
Proof.
  pose proof (Zfloor_bound a) as [A1 A2]. pose proof (Zfloor_bound b) as [B1 B2].
  rewrite minus_IZR. lra.
Qed.

Lemma grid_size_bounds (n : Z) (o s : R) :
  0 < s -> (1 <= n)%Z ->
  let size := (Zfloor ((IZR n - 1 - o) / s) - Zfloor ((0 - o) / s) + 1)%Z in
  (IZR n - 1) / s < IZR size < (IZR n - 1) / s + 2
  /\ (1 <= size)%Z
  /\ (1 <= s -> (size <= n)%Z).
Proof.
  intros Hs Hn size.
  pose proof (floor_span ((0 - o) / s) ((IZR n - 1 - o) / s)) as Hspan.
  assert (Hd : (IZR n - 1 - o) / s - (0 - o) / s = (IZR n - 1) / s) by (field; lra).
  rewrite Hd in Hspan.
  assert (Hsize : IZR size
                  = IZR (Zfloor ((IZR n - 1 - o) / s) - Zfloor ((0 - o) / s)) + 1).
  { unfold size. rewrite plus_IZR. reflexivity. }
  assert (Hn1 : 0 <= IZR n - 1).
  { apply IZR_le in Hn. lra. }
  assert (HL : 0 <= (IZR n - 1) / s).
  { unfold Rdiv. apply Rmult_le_pos; [exact Hn1|]. left. apply Rinv_0_lt_compat, Hs. }
  split; [lra|]. split.
  - assert (H0 : IZR 0 < IZR size) by lra. apply lt_IZR in H0. lia.
  - intros Hs1.
    assert (HLn : (IZR n - 1) / s <= IZR n - 1).
    { apply Rmult_le_reg_r with s; [exact Hs|].
      replace ((IZR n - 1) / s * s) with (IZR n - 1) by (field; lra). nra. }
    assert (IZR size < IZR (n + 1)) by (rewrite plus_IZR; lra).
    apply lt_IZR in H. lia.
Qed.

(** X14.  The size [updateUI] reports for the reconstructed image is, on
    each axis, strictly between [(W - 1) / S] and [(W - 1) / S + 2] for a
    positive scale [S] and a width [W >= 1]; it is at least 1, and at most
    [W] when [S >= 1]. *)
Theorem updateUI_size_bounds (imgWidth imgHeight : Z) (resX resY : AxisEstimate) :
  0 < scale resX -> 0 < scale resY ->
  (1 <= imgWidth)%Z -> (1 <= imgHeight)%Z ->
  let b := updateUI imgWidth imgHeight resX resY in
  ((IZR imgWidth - 1) / scale resX < IZR (recW b) < (IZR imgWidth - 1) / scale resX + 2
   /\ (IZR imgHeight - 1) / scale resY < IZR (recH b)
      < (IZR imgHeight - 1) / scale resY + 2)
  /\ (1 <= recW b)%Z /\ (1 <= recH b)%Z
  /\ (1 <= scale resX -> (recW b <= imgWidth)%Z)
  /\ (1 <= scale resY -> (recH b <= imgHeight)%Z).
Proof.
  intros Hsx Hsy Hw Hh b.
  destruct (grid_size_bounds imgWidth (offset resX) (scale resX) Hsx Hw) as (A1 & A2 & A3).
  destruct (grid_size_bounds imgHeight (offset resY) (scale resY) Hsy Hh) as (B1 & B2 & B3).
  unfold b, updateUI. cbn [recW recH]. tauto.
Qed.

Lemma updateUI_size_bounds_witness :
  0 < 5 /\ (1 <= 42)%Z /\
  let res := {| scale := 5; offset := 2; confidence := 1 |} in
  let b := updateUI 42 42 res res in
  ((IZR 42 - 1) / scale res < IZR (recW b) < (IZR 42 - 1) / scale res + 2
   /\ (IZR 42 - 1) / scale res < IZR (recH b) < (IZR 42 - 1) / scale res + 2)
  /\ (1 <= recW b)%Z /\ (1 <= recH b)%Z
  /\ (1 <= scale res -> (recW b <= 42)%Z)
  /\ (1 <= scale res -> (recH b <= 42)%Z).
Proof.
  assert (H5 : 0 < 5) by lra.
  assert (H42 : (1 <= 42)%Z) by lia.
  split; [exact H5|]. split; [exact H42|].
  exact (updateUI_size_bounds 42 42 {| scale := 5; offset := 2; confidence := 1 |}
           {| scale := 5; offset := 2; confidence := 1 |} H5 H5 H42 H42).
Defined.

(** ** The download *)

Lemma downloadSetup_Some (img : sampler2D) (resX resY : AxisEstimate)
  (sampleCenter : bool) (newW newH : Z) (u : DownsampleUniforms) :
  downloadSetup (Some img) (Some (resX, resY)) sampleCenter = Some (newW, newH, u) ->
  let b := updateUI (texWidth img) (texHeight img) resX resY in
  3 / 2 <= scale resX /\ 3 / 2 <= scale resY
  /\ newW = recW b /\ newH = recH b
  /\ u = mkDownsampleUniforms img (scale resX) (offset resX) (scale resY)
           (offset resY) (IZR (minGridX b)) (IZR (minGridY b)) newH sampleCenter.
Proof.
  unfold downloadSetup. cbv zeta.
  destruct (bool_decide (scale resX < 3 / 2)) eqn:Gx; [discriminate|].
  destruct (bool_decide (scale resY < 3 / 2)) eqn:Gy; [discriminate|].
  cbn [orb]. intros [= <- <- <-].
  apply bool_decide_eq_false in Gx. apply bool_decide_eq_false in Gy.
  repeat split; lra.
Qed.

(** X15.  The download handler produces an image exactly when a result is
    available with both scales at least 1.5; its size is the one
    [updateUI] displays, at least 1 x 1 and at most the size of the source
    image. *)
Theorem download_size (img : sampler2D) (resX resY : AxisEstimate)
  (sampleCenter : bool) :
  (1 <= texWidth img)%Z -> (1 <= texHeight img)%Z ->
  let b := updateUI (texWidth img) (texHeight img) resX resY in
  (downloadSetup (Some img) (Some (resX, resY)) sampleCenter = None
   <-> scale resX < 3 / 2 \/ scale resY < 3 / 2)
  /\ forall newW newH u,
       downloadSetup (Some img) (Some (resX, resY)) sampleCenter = Some (newW, newH, u) ->
       newW = recW b /\ newH = recH b
       /\ (1 <= newW <= texWidth img)%Z /\ (1 <= newH <= texHeight img)%Z.
Proof.
  intros Hw Hh b. split.
  - unfold downloadSetup. cbv zeta.
    destruct (bool_decide (scale resX < 3 / 2)) eqn:Gx.
    + apply bool_decide_eq_true in Gx. cbn [orb]. tauto.
    + apply bool_decide_eq_false in Gx.
      destruct (bool_decide (scale resY < 3 / 2)) eqn:Gy; cbn [orb].
      * apply bool_decide_eq_true in Gy. tauto.
      * apply bool_decide_eq_false in Gy. split; [discriminate|]. tauto.
  - intros newW newH u Hset.
    apply downloadSetup_Some in Hset as (Sx & Sy & Ew & Eh & _).
    destruct (grid_size_bounds (texWidth img) (offset resX) (scale resX)) as (_ & A2 & A3);
      [lra|exact Hw|].
    destruct (grid_size_bounds (texHeight img) (offset resY) (scale resY)) as (_ & B2 & B3);
      [lra|exact Hh|].
    specialize (A3 ltac:(lra)). specialize (B3 ltac:(lra)).
    subst newW newH. unfold b, updateUI. cbn [recW recH]. lia.
Qed.

Lemma download_size_witness :
  (1 <= texWidth ramp4)%Z /\ (1 <= texHeight ramp4)%Z /\
  let res := {| scale := 3; offset := 1 / 4; confidence := 1 |} in
  let b := updateUI (texWidth ramp4) (texHeight ramp4) res res in
  (downloadSetup (Some ramp4) (Some (res, res)) true = None
   <-> scale res < 3 / 2 \/ scale res < 3 / 2)
  /\ forall newW newH u,
       downloadSetup (Some ramp4) (Some (res, res)) true = Some (newW, newH, u) ->
       newW = recW b /\ newH = recH b
       /\ (1 <= newW <= texWidth ramp4)%Z /\ (1 <= newH <= texHeight ramp4)%Z.
Proof.
  assert (Hw : (1 <= texWidth ramp4)%Z) by (cbn; lia).
  assert (Hh : (1 <= texHeight ramp4)%Z) by (cbn; lia).
  split; [exact Hw|]. split; [exact Hh|].
  exact (download_size ramp4 {| scale := 3; offset := 1 / 4; confidence := 1 |}
           {| scale := 3; offset := 1 / 4; confidence := 1 |} true Hw Hh).
Defined.

(** ** The box of a cell holds pixels of that cell only *)

Lemma box_pixel_in_cell (o s : R) (k p : Z) :
  0 < s ->
  let c := o + IZR k * s + s * (1 / 2) in
  (Zceil (c - s * (3 / 10)) <= p <= Zfloor (c + s * (3 / 10)))%Z ->
  Zfloor ((IZR p - o) / s) = k.
Proof.
  intros Hs c [Hlo Hhi].
  pose proof (Zceil_bound (c - s * (3 / 10))) as [_ C].
  pose proof (Zfloor_bound (c + s * (3 / 10))) as [F _].
  apply IZR_le in Hlo, Hhi.
  set (q := (IZR p - o) / s).
  assert (Hq : q * s = IZR p - o) by (unfold q; field; lra).
  unfold c in *.
  apply Zfloor_eq. split; nra.
Qed.

Lemma cellCenter_download (u : DownsampleUniforms) (g : Z) (gx : Z) :
  uGridOffsetX u = IZR g ->
  cellCenterX u (IZR gx + 1 / 2) = uOffsetX u + IZR (g + gx) * uScaleX u + uScaleX u * (1 / 2).
Proof.
  intros Hg. unfold cellCenterX. rewrite Hg.
  rewrite (Zfloor_eq gx (IZR gx + 1 / 2)) by lra. rewrite plus_IZR. ring.
Qed.

Lemma cellCenterY_download (u : DownsampleUniforms) (g : Z) (gy : Z) :
  uGridOffsetY u = IZR g ->
  cellCenterY u (IZR gy + 1 / 2) = uOffsetY u + IZR (g + gy) * uScaleY u + uScaleY u * (1 / 2).
Proof.
  intros Hg. unfold cellCenterY. rewrite Hg.
  rewrite (Zfloor_eq gy (IZR gy + 1 / 2)) by lra. rewrite plus_IZR. ring.
Qed.

(** X16.  In a download, every image pixel [(sx, sy)] that the box filter
    reads for the output pixel [(gx, gy)] lies inside the image and in the
    grid cell [(minGridX + gx, minGridY + gy)] that output pixel stands
    for: the mean never mixes neighbouring cells. *)
Theorem download_box_within_cell (img : sampler2D) (resX resY : AxisEstimate)
  (sampleCenter : bool) (newW newH : Z) (u : DownsampleUniforms)
  (gx gy minX maxX minY maxY sx sy : Z) :
  downloadSetup (Some img) (Some (resX, resY)) sampleCenter = Some (newW, newH, u) ->
  boxBounds (uImage u) (uScaleX u) (uScaleY u)
            (cellCenterX u (IZR gx + 1 / 2)) (cellCenterY u (IZR gy + 1 / 2))
  = (minX, maxX, minY, maxY) ->
  (minX <= sx <= maxX)%Z -> (minY <= sy <= maxY)%Z ->
  let b := updateUI (texWidth img) (texHeight img) resX resY in
  (0 <= sx < texWidth img)%Z /\ (0 <= sy < texHeight img)%Z
  /\ Unity.gridIndex sx (offset resX) (scale resX) = (minGridX b + gx)%Z
  /\ Unity.gridIndex sy (offset resY) (scale resY) = (minGridY b + gy)%Z.
Proof.
  intros Hset Hb Hsx Hsy b.
  apply downloadSetup_Some in Hset as (Sx & Sy & _ & _ & ->).
  fold b in Hb.
  rewrite (cellCenter_download _ (minGridX b)) in Hb by reflexivity.
  rewrite (cellCenterY_download _ (minGridY b)) in Hb by reflexivity.
  cbn [uImage uScaleX uScaleY uOffsetX uOffsetY] in Hb.
  unfold boxBounds in Hb. cbv zeta in Hb. rewrite !trunc_IZR in Hb.
  injection Hb as <- <- <- <-.
  split; [lia|]. split; [lia|].
  unfold Unity.gridIndex, Unity.FloorToInt.
  split; apply box_pixel_in_cell; try lra; cbv zeta;
    unfold b, updateUI; cbn [minGridX minGridY]; lia.
Qed.

(** The download of [ramp4] at scale 3/2 and offset 3/4 with the box
    filter: a 3 x 3 canvas and the uniforms [boxed4]. *)
Lemma downloadSetup_boxed4 :
  downloadSetup (Some ramp4)
    (Some ({| scale := 3 / 2; offset := 3 / 4; confidence := 1 |},
           {| scale := 3 / 2; offset := 3 / 4; confidence := 1 |})) false
  = Some (3%Z, 3%Z, boxed4).
Proof.
  unfold downloadSetup. cbn [scale offset ramp4 texWidth texHeight].
  rewrite bool_decide_eq_false_2 by lra. cbn [orb].
  rewrite (Zfloor_eq (-1) ((0 - 3 / 4) / (3 / 2))) by lra.
  rewrite (Zfloor_eq 1 ((4 - 1 - 3 / 4) / (3 / 2))) by lra.
  reflexivity.
Qed.

Lemma download_box_within_cell_witness :
  let res := {| scale := 3 / 2; offset := 3 / 4; confidence := 1 |} in
  let b := updateUI (texWidth ramp4) (texHeight ramp4) res res in
  downloadSetup (Some ramp4) (Some (res, res)) false = Some (3%Z, 3%Z, boxed4) /\
  (3 <= 3 <= 3)%Z /\ (0 <= 0 <= 0)%Z /\
  (0 <= 3 < texWidth ramp4)%Z /\ (0 <= 0 < texHeight ramp4)%Z
  /\ Unity.gridIndex 3 (offset res) (scale res) = (minGridX b + 2)%Z
  /\ Unity.gridIndex 0 (offset res) (scale res) = (minGridY b + 0)%Z.
Proof.
  cbv zeta.
  assert (H3 : (3 <= 3 <= 3)%Z) by lia.
  assert (H0 : (0 <= 0 <= 0)%Z) by lia.
  split; [exact downloadSetup_boxed4|]. split; [exact H3|]. split; [exact H0|].
  exact (download_box_within_cell ramp4 _ _ false 3 3 boxed4 2 0 3 3 0 0 3 0
           downloadSetup_boxed4 boxed4_bounds H3 H0).
Defined.

(** ** The display shader *)


Lemma texture_at (img : sampler2D) (cx cy : R) :
  (1 <= texWidth img)%Z -> (1 <= texHeight img)%Z ->
  texture img (cx / IZR (texWidth img)) (cy / IZR (texHeight img)) =
  texelFetch img (clamp (Zfloor cx) 0 (texWidth img - 1))
                 (clamp (Zfloor cy) 0 (texHeight img - 1)).
Proof.
  intros Hw Hh. unfold texture.
  apply IZR_le in Hw, Hh.
  replace (cx / IZR (texWidth img) * IZR (texWidth img)) with cx by (field; lra).
  replace (cy / IZR (texHeight img) * IZR (texHeight img)) with cy by (field; lra).
  reflexivity.
Qed.

(** X17.  With the reconstructed view switched off, or with a scale of at
    most 1 on either axis (as for the degenerate estimate), the display
    shader shows the image itself: the fragment of pixel [(px, py)] gets
    the texel [(px, py)]. *)
Theorem display_shows_original (img : sampler2D) (resX resY : AxisEstimate)
  (show sampleCenter : bool) (px py : Z) :
  (0 <= px < texWidth img)%Z -> (0 <= py < texHeight img)%Z ->
  show = false \/ scale resX <= 1 \/ scale resY <= 1 ->
  fsDisplay (displayUniforms img resX resY show sampleCenter)
            (IZR px + 1 / 2) (IZR py + 1 / 2)
  = texel img px py.
Proof.
  intros Hx Hy Hcase. unfold fsDisplay, displayUniforms.
  cbn [dShowReconstructed dScaleX dScaleY dImage dResolutionX dResolutionY].
  assert (Hcond : show && bool_decide (scale resX > 1) && bool_decide (scale resY > 1)
                  = false).
  { destruct Hcase as [->|[H|H]]; [reflexivity| |].
    - rewrite (bool_decide_eq_false_2 (scale resX > 1)) by lra.
      destruct show; reflexivity.
    - rewrite (bool_decide_eq_false_2 (scale resY > 1)) by lra.
      destruct show, (bool_decide (scale resX > 1)); reflexivity. }
  rewrite Hcond, texture_at by lia.
  rewrite (Zfloor_eq px (IZR px + 1 / 2)) by lra.
  rewrite (Zfloor_eq py (IZR py + 1 / 2)) by lra.
  unfold texelFetch, clamp. f_equal; lia.
Qed.

Lemma display_shows_original_witness :
  (0 <= 1 < texWidth flat2)%Z /\ (0 <= 0 < texHeight flat2)%Z /\
  (true = false \/ 1 <= 1 \/ 1 <= 1) /\
  fsDisplay (displayUniforms flat2 {| scale := 1; offset := 0; confidence := 0 |}
               {| scale := 1; offset := 0; confidence := 0 |} true false)
            (IZR 1 + 1 / 2) (IZR 0 + 1 / 2)
  = texel flat2 1 0.
Proof.
  assert (Hx : (0 <= 1 < texWidth flat2)%Z) by (cbn; lia).
  assert (Hy : (0 <= 0 < texHeight flat2)%Z) by (cbn; lia).
  assert (Hc : true = false \/ 1 <= 1 \/ 1 <= 1) by (right; left; lra).
  split; [exact Hx|]. split; [exact Hy|]. split; [exact Hc|].
  exact (display_shows_original flat2 {| scale := 1; offset := 0; confidence := 0 |}
           {| scale := 1; offset := 0; confidence := 0 |} true false 1 0 Hx Hy Hc).
Defined.



End MainExtra.

(** * Further properties of the C# reconstruction *)
Module UnityExtra.
Import Unity AnalyzerFacts UnityFacts.

(** ** The preview and the cache *)

Section PreviewCorrect.
Variable srcPixels : list Color.
Variables w h : Z.
Variables sx sy ox oy : R.

Lemma previewCorrect_ext (V V' : Z -> Z -> Prop) (st : Preview) :
  (forall x y, V x y <-> V' x y) ->
  previewCorrect srcPixels w h sx sy ox oy V st ->
  previewCorrect srcPixels w h sx sy ox oy V' st.
Proof.
  intros Heq (Hin & Hc & Hl & Hd).
  split; [intros x y Hxy; apply Hin, Heq, Hxy|].
  split; [exact Hc|]. split; [exact Hl|].
  intros x y Hxy. apply Hd, Heq, Hxy.
Qed.

Lemma pixel_index_lt (x y : Z) :
  (0 <= x < w)%Z -> (0 <= y < h)%Z ->
  (Z.to_nat (y * w + x) < Z.to_nat (w * h))%nat.
Proof. intros Hx Hy. apply Z2Nat.inj_lt; nia. Qed.

Lemma pixel_index_inj (x y x' y' : Z) :
  (0 <= x < w)%Z -> (0 <= y < h)%Z -> (0 <= x' < w)%Z -> (0 <= y' < h)%Z ->
  Z.to_nat (y * w + x) = Z.to_nat (y' * w + x') -> x = x' /\ y = y'.
Proof.
  intros Hx Hy Hx' Hy' E. apply Z2Nat.inj in E; [|nia|nia].
  assert (y = y') by nia. subst. split; [lia|reflexivity].
Qed.

Lemma pixelStep_correct (V : Z -> Z -> Prop) (st : Preview) (x y : Z) :
  (0 <= x < w)%Z -> (0 <= y < h)%Z ->
  previewCorrect srcPixels w h sx sy ox oy V st ->
  previewCorrect srcPixels w h sx sy ox oy
    (fun x' y' => V x' y' \/ (x' = x /\ y' = y))
    (pixelStep srcPixels w h sx sy ox oy y st x).
Proof.
  intros Hx Hy (Hin & Hc & Hl & Hd).
  pose proof (pixel_index_lt x y Hx Hy) as Hlt.
  assert (Hdst : forall (pix : list Color) avg,
            length pix = Z.to_nat (w * h) ->
            (forall x' y', V x' y' ->
               pix !! Z.to_nat (y' * w + x')
               = Some (cellColor srcPixels w h sx sy ox oy
                                 (gridIndex x' ox sx) (gridIndex y' oy sy))) ->
            avg = cellColor srcPixels w h sx sy ox oy
                            (gridIndex x ox sx) (gridIndex y oy sy) ->
            forall x' y', V x' y' \/ (x' = x /\ y' = y) ->
              <[Z.to_nat (y * w + x) := avg]> pix !! Z.to_nat (y' * w + x')
              = Some (cellColor srcPixels w h sx sy ox oy
                                (gridIndex x' ox sx) (gridIndex y' oy sy))).
  { intros pix avg Hlen Hold -> x' y' Hcase.
    destruct (decide (Z.to_nat (y * w + x) = Z.to_nat (y' * w + x'))) as [E|NE].
    - assert (Hr : (0 <= x' < w)%Z /\ (0 <= y' < h)%Z).
      { destruct Hcase as [Hv|[-> ->]]; [apply Hin, Hv|tauto]. }
      destruct (pixel_index_inj x y x' y' Hx Hy (proj1 Hr) (proj2 Hr) E) as [<- <-].
      apply list_lookup_insert_eq. rewrite Hlen. exact Hlt.
    - rewrite list_lookup_insert_ne by exact NE.
      destruct Hcase as [Hv|[-> ->]]; [apply Hold, Hv|contradiction]. }
  unfold pixelStep. cbv zeta.
  destruct (cellColors st !! (gridIndex x ox sx, gridIndex y oy sy)) as [c|] eqn:Hlook.
  - split; [intros x' y' [Hv|[-> ->]]; [apply Hin, Hv|tauto]|].
    cbn [cellColors dstPixels].
    split; [exact Hc|]. split; [rewrite length_insert; exact Hl|].
    apply Hdst; [exact Hl|exact Hd|]. apply Hc. exact Hlook.
  - split; [intros x' y' [Hv|[-> ->]]; [apply Hin, Hv|tauto]|].
    cbn [cellColors dstPixels].
    split.
    { intros gX gY c Hk.
      destruct (decide ((gridIndex x ox sx, gridIndex y oy sy) = (gX, gY))) as [E|NE].
      - rewrite E in Hk. rewrite lookup_insert_eq in Hk.
        injection E as <- <-. congruence.
      - rewrite lookup_insert_ne in Hk by exact NE. apply Hc. exact Hk. }
    split; [rewrite length_insert; exact Hl|].
    apply Hdst; [exact Hl|exact Hd|reflexivity].
Qed.

Lemma rowFold_correct (xs : list Z) (y : Z) :
  Forall (fun x => (0 <= x < w)%Z) xs -> (0 <= y < h)%Z ->
  forall (V : Z -> Z -> Prop) (st : Preview),
    previewCorrect srcPixels w h sx sy ox oy V st ->
    previewCorrect srcPixels w h sx sy ox oy
      (fun x' y' => V x' y' \/ (x' ∈ xs /\ y' = y))
      (fold_left (pixelStep srcPixels w h sx sy ox oy y) xs st).
Proof.
  intros Hxs Hy. induction Hxs as [|x xs Hx _ IH]; intros V st Hinv; cbn [fold_left].
  - eapply previewCorrect_ext; [|exact Hinv].
    intros x' y'. split; [tauto|]. intros [Hv|[Hin _]]; [exact Hv|inversion Hin].
  - eapply previewCorrect_ext; [|apply IH, pixelStep_correct; [exact Hx|exact Hy|exact Hinv]].
    intros x' y'. cbn beta. rewrite elem_of_cons. tauto.
Qed.

Lemma rowsFold_correct (xs ys : list Z) :
  Forall (fun x => (0 <= x < w)%Z) xs -> Forall (fun y => (0 <= y < h)%Z) ys ->
  forall (V : Z -> Z -> Prop) (st : Preview),
    previewCorrect srcPixels w h sx sy ox oy V st ->
    previewCorrect srcPixels w h sx sy ox oy
      (fun x' y' => V x' y' \/ (x' ∈ xs /\ y' ∈ ys))
      (fold_left (fun st y => fold_left (pixelStep srcPixels w h sx sy ox oy y) xs st)
                 ys st).
Proof.
  intros Hxs Hys. induction Hys as [|y ys Hy _ IH]; intros V st Hinv; cbn [fold_left].
  - eapply previewCorrect_ext; [|exact Hinv].
    intros x' y'. split; [tauto|]. intros [Hv|[_ Hin]]; [exact Hv|inversion Hin].
  - eapply previewCorrect_ext; [|apply IH, rowFold_correct; [exact Hxs|exact Hy|exact Hinv]].
    intros x' y'. cbn beta. rewrite elem_of_cons. tauto.
Qed.

Lemma range_inside (n : Z) : Forall (fun i => (0 <= i < n)%Z) (Analyzer.range 0 (n - 1)).
Proof. apply Forall_forall. intros i Hi. apply elem_of_range in Hi. lia. Qed.

Lemma previewPass_correct :
  previewCorrect srcPixels w h sx sy ox oy
    (fun x y => (0 <= x < w)%Z /\ (0 <= y < h)%Z)
    (previewPass srcPixels w h sx sy ox oy).
Proof.
  unfold previewPass, rowStep.
  eapply previewCorrect_ext;
    [|apply rowsFold_correct with (V := fun _ _ => False);
      [apply range_inside|apply range_inside|]].
  - intros x y. cbn beta. rewrite !elem_of_range.
    split; [intros [[]|H]; lia|]. intros H. right. lia.
  - split; [intros x y []|]. cbn [cellColors dstPixels].
    split; [intros gX gY c Hk; rewrite lookup_empty in Hk; discriminate|].
    split; [apply length_replicate|]. intros x y [].
Qed.

End PreviewCorrect.

(** X19.  The preview has [w * h] pixels and each pixel [(x, y)] has the
    colour of the grid cell it falls into; the cache never holds anything
    but the colour of its key, so reusing a cached colour gives what
    recomputing it would. *)
Theorem preview_pixels_are_cell_colours (srcPixels : list Color) (w h : Z)
  (res : ResolutionResult) :
  let sx := clampScale (scaleX res) in
  let sy := clampScale (scaleY res) in
  let st := preview (ReconstructImage srcPixels w h res) in
  length (dstPixels st) = Z.to_nat (w * h)
  /\ (forall x y, (0 <= x < w)%Z -> (0 <= y < h)%Z ->
        dstPixels st !! Z.to_nat (y * w + x)
        = Some (cellColor srcPixels w h sx sy (offsetX res) (offsetY res)
                          (gridIndex x (offsetX res) sx) (gridIndex y (offsetY res) sy)))
  /\ (forall gX gY c, cellColors st !! (gX, gY) = Some c ->
        c = cellColor srcPixels w h sx sy (offsetX res) (offsetY res) gX gY).
Proof.
  cbv zeta. unfold ReconstructImage. cbv zeta. cbn [preview].
  destruct (previewPass_correct srcPixels w h (clampScale (scaleX res))
              (clampScale (scaleY res)) (offsetX res) (offsetY res))
    as (_ & Hc & Hl & Hd).
  split; [exact Hl|]. split; [|exact Hc].
  intros x y Hx Hy. apply Hd. split; assumption.
Qed.

Lemma preview_pixels_are_cell_colours_witness :
  let st := preview (ReconstructImage pixels2 2 2 result2) in
  (0 <= 1 < 2)%Z /\ (0 <= 0 < 2)%Z /\
  dstPixels st !! Z.to_nat (0 * 2 + 1)
  = Some (cellColor pixels2 2 2 (clampScale (scaleX result2)) (clampScale (scaleY result2))
            (offsetX result2) (offsetY result2)
            (gridIndex 1 (offsetX result2) (clampScale (scaleX result2)))
            (gridIndex 0 (offsetY result2) (clampScale (scaleY result2)))).
Proof.
  cbv zeta.
  assert (Hx : (0 <= 1 < 2)%Z) by lia.
  assert (Hy : (0 <= 0 < 2)%Z) by lia.
  split; [exact Hx|]. split; [exact Hy|].
  destruct (preview_pixels_are_cell_colours pixels2 2 2 result2) as (_ & Hd & _).
  exact (Hd 1%Z 0%Z Hx Hy).
Defined.

(** ** The low-res image *)

Lemma flat_map_rows_lookup {A : Type} (F : Z -> list A) (n : nat) (ys : list Z) :
  (forall y, length (F y) = n) ->
  forall (i j : nat) (y : Z),
    ys !! i = Some y -> (j < n)%nat ->
    flat_map F ys !! (i * n + j)%nat = F y !! j.
Proof.
  intros Hlen. induction ys as [|y0 ys IH]; intros i j y Hi Hj; [discriminate|].
  cbn [flat_map]. destruct i as [|i].
  - injection Hi as <-. cbn. rewrite lookup_app_l by (rewrite Hlen; exact Hj).
    reflexivity.
  - cbn in Hi. rewrite lookup_app_r by (rewrite Hlen; nia).
    rewrite Hlen. replace (S i * n + j - n)%nat with (i * n + j)%nat by nia.
    apply IH; assumption.
Qed.

Lemma flat_map_rows_length {A : Type} (F : Z -> list A) (n : nat) (ys : list Z) :
  (forall y, length (F y) = n) -> length (flat_map F ys) = (length ys * n)%nat.
Proof.
  intros Hlen. induction ys as [|y ys IH]; [reflexivity|].
  cbn [flat_map]. rewrite length_app, IH, Hlen. cbn. lia.
Qed.

Lemma range_lookup (n i : Z) :
  (0 <= i < n)%Z -> Analyzer.range 0 (n - 1) !! Z.to_nat i = Some i.
Proof.
  intros Hi. unfold Analyzer.range.
  rewrite lookup_seqZ. split; lia.
Qed.

(** X20.  On an image of positive size whose grid indices are C# [int]s,
    the low-res image has [lrW * lrH] pixels and its pixel [(gx, gy)],
    stored at index [gy * lrW + gx], has the colour of the grid cell
    [(minGridX + gx, minGridY + gy)]. *)
Theorem lowres_pixels_are_cell_colours (srcPixels : list Color) (w h : Z)
  (res : ResolutionResult) :
  (0 < w)%Z -> (0 < h)%Z ->
  (forall x, (0 <= x < w)%Z ->
     (int_MinValue <= gridIndex x (offsetX res) (clampScale (scaleX res))
      <= int_MaxValue)%Z) ->
  (forall y, (0 <= y < h)%Z ->
     (int_MinValue <= gridIndex y (offsetY res) (clampScale (scaleY res))
      <= int_MaxValue)%Z) ->
  let rec := ReconstructImage srcPixels w h res in
  exists lrPixels,
    lowRes rec = Some lrPixels
    /\ length lrPixels = Z.to_nat (lrW rec * lrH rec)
    /\ forall gx gy, (0 <= gx < lrW rec)%Z -> (0 <= gy < lrH rec)%Z ->
         lrPixels !! Z.to_nat (gy * lrW rec + gx)
         = Some (cellColor srcPixels w h (clampScale (scaleX res))
                   (clampScale (scaleY res)) (offsetX res) (offsetY res)
                   (minGridX (preview rec) + gx) (minGridY (preview rec) + gy)).
Proof.
  intros Hw Hh Hx Hy rec.
  pose proof (clampScale_ge_1 (scaleX res)) as Hsx.
  pose proof (clampScale_ge_1 (scaleY res)) as Hsy.
  pose proof (previewPass_size srcPixels w h _ _ _ _ Hw Hh Hsx Hsy Hx Hy) as [Sx Sy].
  pose proof (previewPass_covers srcPixels w h _ _ _ _ Hw Hh Hsx Hsy Hx Hy) as Hcov.
  destruct (previewPass_correct srcPixels w h (clampScale (scaleX res))
              (clampScale (scaleY res)) (offsetX res) (offsetY res))
    as (_ & Hcache & _ & _).
  cbv zeta in Sx, Sy, Hcov.
  unfold rec, ReconstructImage. cbv zeta. cbn [lrW lrH preview lowRes].
  set (st := previewPass srcPixels w h (clampScale (scaleX res))
               (clampScale (scaleY res)) (offsetX res) (offsetY res)) in *.
  set (W := (maxGridX st - minGridX st + 1)%Z) in *.
  set (H := (maxGridY st - minGridY st + 1)%Z) in *.
  destruct (Z.gtb_spec W 0); [|lia]. destruct (Z.gtb_spec H 0); [|lia]. cbn [andb].
  eexists. split; [reflexivity|].
  assert (Hrow : forall gy,
            length (map (fun gx => match lowResLookup st gx gy with
                                   | Some c => c
                                   | None => Color_black
                                   end) (Analyzer.range 0 (W - 1))) = Z.to_nat W).
  { intros gy. rewrite length_map. unfold Analyzer.range. rewrite length_seqZ.
    f_equal. lia. }
  split.
  - unfold lowResPixels. rewrite (flat_map_rows_length _ (Z.to_nat W)) by exact Hrow.
    unfold Analyzer.range. rewrite length_seqZ. nia.
  - intros gx gy Hgx Hgy. unfold lowResPixels.
    replace (Z.to_nat (gy * W + gx)) with (Z.to_nat gy * Z.to_nat W + Z.to_nat gx)%nat
      by nia.
    rewrite (flat_map_rows_lookup _ (Z.to_nat W) _ Hrow _ _ gy);
      [|apply range_lookup; lia|lia].
    rewrite list_lookup_fmap, (range_lookup W gx) by lia. cbn [fmap option_fmap option_map].
    destruct (Hcov gx gy Hgx Hgy) as [c Hc]. rewrite Hc. f_equal.
    unfold lowResLookup in Hc. apply Hcache. exact Hc.
Qed.

Lemma lowres_pixels_are_cell_colours_witness :
  (0 < 2)%Z /\
  (forall x, (0 <= x < 2)%Z ->
     (int_MinValue <= gridIndex x (offsetX result2) (clampScale (scaleX result2))
      <= int_MaxValue)%Z) /\
  let rec := ReconstructImage pixels2 2 2 result2 in
  exists lrPixels,
    lowRes rec = Some lrPixels
    /\ length lrPixels = Z.to_nat (lrW rec * lrH rec)
    /\ forall gx gy, (0 <= gx < lrW rec)%Z -> (0 <= gy < lrH rec)%Z ->
         lrPixels !! Z.to_nat (gy * lrW rec + gx)
         = Some (cellColor pixels2 2 2 (clampScale (scaleX result2))
                   (clampScale (scaleY result2)) (offsetX result2) (offsetY result2)
                   (minGridX (preview rec) + gx) (minGridY (preview rec) + gy)).
Proof.
  assert (H2 : (0 < 2)%Z) by lia.
  assert (Hfit : forall x, (0 <= x < 2)%Z ->
            (int_MinValue <= gridIndex x 0 (clampScale 2) <= int_MaxValue)%Z).
  { intros x Hx. rewrite (gridIndex_result2 x Hx). unfold int_MinValue, int_MaxValue. lia. }
  split; [exact H2|]. split; [exact Hfit|].
  exact (lowres_pixels_are_cell_colours pixels2 2 2 result2 H2 H2 Hfit Hfit).
Defined.

(** ** The C# bounds and those of [updateUI] *)

(** X21.  On an image of positive size, with scales of at least 1 and
    grid indices that are C# [int]s, the bounds the C# preview loop finds
    by visiting every pixel are the bounds [updateUI] of main.js computes
    in closed form for the same scale and offset, and the low-res size
    [lrW x lrH] is the size [recW x recH] it displays. *)
Theorem reconstruct_bounds_match_updateUI (srcPixels : list Color) (w h : Z)
  (res : ResolutionResult) :
  (0 < w)%Z -> (0 < h)%Z ->
  1 <= scaleX res -> 1 <= scaleY res ->
  (forall x, (0 <= x < w)%Z ->
     (int_MinValue <= gridIndex x (offsetX res) (scaleX res) <= int_MaxValue)%Z) ->
  (forall y, (0 <= y < h)%Z ->
     (int_MinValue <= gridIndex y (offsetY res) (scaleY res) <= int_MaxValue)%Z) ->
  let rec := ReconstructImage srcPixels w h res in
  let b := Main.updateUI w h
             {| Analyzer.scale := scaleX res; Analyzer.offset := offsetX res;
                Analyzer.confidence := confidenceX res |}
             {| Analyzer.scale := scaleY res; Analyzer.offset := offsetY res;
                Analyzer.confidence := confidenceY res |} in
  minGridX (preview rec) = Main.minGridX b /\ maxGridX (preview rec) = Main.maxGridX b
  /\ minGridY (preview rec) = Main.minGridY b /\ maxGridY (preview rec) = Main.maxGridY b
  /\ lrW rec = Main.recW b /\ lrH rec = Main.recH b.
Proof.
  intros Hw Hh Hsx Hsy Hx Hy rec b.
  assert (Cx : clampScale (scaleX res) = scaleX res)
    by (unfold clampScale; rewrite decide_False by lra; reflexivity).
  assert (Cy : clampScale (scaleY res) = scaleY res)
    by (unfold clampScale; rewrite decide_False by lra; reflexivity).
  unfold rec, ReconstructImage. cbv zeta. cbn [preview lrW lrH]. rewrite Cx, Cy.
  destruct (previewPass_bounds srcPixels w h _ _ _ _ Hw Hh Hsx Hsy Hx Hy)
    as (E1 & E2 & E3 & E4).
  cbv zeta in E1, E2, E3, E4. rewrite E1, E2, E3, E4.
  unfold b, Main.updateUI, gridIndex, FloorToInt.
  cbn [Main.minGridX Main.maxGridX Main.minGridY Main.maxGridY Main.recW Main.recH
       Analyzer.scale Analyzer.offset].
  rewrite !minus_IZR. repeat split; reflexivity.
Qed.

Lemma gridIndex_result2_plain (x : Z) :
  (0 <= x < 2)%Z -> gridIndex x 0 2 = 0%Z.
Proof.
  intros Hx. unfold gridIndex, FloorToInt. apply Zfloor_eq.
  assert (0 <= IZR x <= 1) by (split; apply IZR_le; lia). lra.
Qed.

Lemma reconstruct_bounds_match_updateUI_witness :
  (0 < 2)%Z /\ 1 <= scaleX result2 /\
  (forall x, (0 <= x < 2)%Z ->
     (int_MinValue <= gridIndex x (offsetX result2) (scaleX result2) <= int_MaxValue)%Z) /\
  let rec := ReconstructImage pixels2 2 2 result2 in
  let b := Main.updateUI 2 2
             {| Analyzer.scale := scaleX result2; Analyzer.offset := offsetX result2;
                Analyzer.confidence := confidenceX result2 |}
             {| Analyzer.scale := scaleY result2; Analyzer.offset := offsetY result2;
                Analyzer.confidence := confidenceY result2 |} in
  minGridX (preview rec) = Main.minGridX b /\ maxGridX (preview rec) = Main.maxGridX b
  /\ minGridY (preview rec) = Main.minGridY b /\ maxGridY (preview rec) = Main.maxGridY b
  /\ lrW rec = Main.recW b /\ lrH rec = Main.recH b.
Proof.
  assert (H2 : (0 < 2)%Z) by lia.
  assert (Hs : 1 <= scaleX result2) by (cbn; lra).
  assert (Hfit : forall x, (0 <= x < 2)%Z ->
            (int_MinValue <= gridIndex x (offsetX result2) (scaleX result2)
             <= int_MaxValue)%Z).
  { intros x Hx. cbn [result2 offsetX scaleX]. rewrite (gridIndex_result2_plain x Hx).
    unfold int_MinValue, int_MaxValue. lia. }
  split; [exact H2|]. split; [exact Hs|]. split; [exact Hfit|].
  exact (reconstruct_bounds_match_updateUI pixels2 2 2 result2 H2 H2 Hs Hs Hfit Hfit).
Defined.

(** ** The colour of a cell *)

Lemma Clamp_inside (value lo hi : Z) :
  (lo <= hi)%Z -> (lo <= Clamp value lo hi <= hi)%Z.
Proof.
  intros H. unfold Clamp.
  destruct (Z.ltb_spec value lo); [lia|]. destruct (Z.gtb_spec value hi); lia.
Qed.

Lemma boxAcc_invariant (Inv : BoxAcc -> Prop) (srcPixels : list Color) (w h : Z)
  (sx sy ox oy : R) (gridX gridY : Z) :
  Inv (mkBoxAcc 0 0 0 0 0) ->
  (forall acc px py, (0 <= px < w)%Z -> (0 <= py < h)%Z -> Inv acc ->
     let c := pixelAt srcPixels (py * w + px) in
     Inv (mkBoxAcc (rSum acc + red c) (gSum acc + green c) (bSum acc + blue c)
                   (aSum acc + alpha c) (count acc + 1))) ->
  Inv (boxAcc srcPixels w h sx sy ox oy gridX gridY).
Proof.
  intros H0 Hstep. unfold boxAcc. cbv zeta.
  set (xMin := CeilToInt (ox + IZR gridX * sx + sx * (1 / 2) - sx * (3 / 10))).
  set (xMax := FloorToInt (ox + IZR gridX * sx + sx * (1 / 2) + sx * (3 / 10))).
  clearbody xMin xMax.
  assert (Hinner : forall py xs acc, (0 <= py < h)%Z -> Inv acc ->
            Inv (fold_left (boxInner srcPixels w (py * w)) xs acc)).
  { intros py xs. induction xs as [|px xs IH]; intros acc Hpy Hacc; cbn [fold_left];
      [exact Hacc|].
    apply IH; [exact Hpy|]. unfold boxInner.
    destruct (Z.ltb_spec px 0); cbn [orb]; [exact Hacc|].
    destruct (Z.geb_spec px w); [exact Hacc|].
    apply Hstep; [lia|exact Hpy|exact Hacc]. }
  revert H0. generalize (mkBoxAcc 0 0 0 0 0).
  induction (Analyzer.range _ _) as [|py ys IH]; intros acc Hacc; cbn [fold_left];
    [exact Hacc|].
  apply IH. unfold boxOuter.
  destruct (Z.ltb_spec py 0); cbn [orb]; [exact Hacc|].
  destruct (Z.geb_spec py h); [exact Hacc|].
  apply Hinner; [lia|exact Hacc].
Qed.

Lemma boxAcc_ext (l1 l2 : list Color) (w h : Z) (sx sy ox oy : R) (gridX gridY : Z) :
  (forall px py, (0 <= px < w)%Z -> (0 <= py < h)%Z ->
                 pixelAt l1 (py * w + px) = pixelAt l2 (py * w + px)) ->
  boxAcc l1 w h sx sy ox oy gridX gridY = boxAcc l2 w h sx sy ox oy gridX gridY.
Proof.
  intros Heq. unfold boxAcc. cbv zeta.
  set (xMin := CeilToInt (ox + IZR gridX * sx + sx * (1 / 2) - sx * (3 / 10))).
  set (xMax := FloorToInt (ox + IZR gridX * sx + sx * (1 / 2) + sx * (3 / 10))).
  clearbody xMin xMax.
  assert (Hinner : forall py xs acc, (0 <= py < h)%Z ->
            fold_left (boxInner l1 w (py * w)) xs acc
            = fold_left (boxInner l2 w (py * w)) xs acc).
  { intros py xs. induction xs as [|px xs IH]; intros acc Hpy; cbn [fold_left];
      [reflexivity|].
    rewrite IH by exact Hpy. f_equal. unfold boxInner.
    destruct (Z.ltb_spec px 0); cbn [orb]; [reflexivity|].
    destruct (Z.geb_spec px w); [reflexivity|].
    rewrite Heq by lia. reflexivity. }
  generalize (mkBoxAcc 0 0 0 0 0).
  induction (Analyzer.range _ _) as [|py ys IH]; intros acc; cbn [fold_left];
    [reflexivity|].
  rewrite IH. f_equal. unfold boxOuter.
  destruct (Z.ltb_spec py 0); cbn [orb]; [reflexivity|].
  destruct (Z.geb_spec py h); [reflexivity|].
  apply Hinner. lia.
Qed.

(** X22.  [cellColor] reads [srcPixels] only at indices [py * w + px] with
    [0 <= px < w] and [0 <= py < h], in the box loops and in the fallback
    alike: two pixel arrays that agree there give the same colour, so with
    an array of [w * h] pixels no read is out of range. *)
Theorem cellColor_reads_inside (l1 l2 : list Color) (w h : Z) (sx sy ox oy : R)
  (gridX gridY : Z) :
  (1 <= w)%Z -> (1 <= h)%Z ->
  (forall px py, (0 <= px < w)%Z -> (0 <= py < h)%Z ->
                 l1 !! Z.to_nat (py * w + px) = l2 !! Z.to_nat (py * w + px)) ->
  cellColor l1 w h sx sy ox oy gridX gridY = cellColor l2 w h sx sy ox oy gridX gridY.
Proof.
  intros Hw Hh Heq.
  assert (Hpix : forall px py, (0 <= px < w)%Z -> (0 <= py < h)%Z ->
            pixelAt l1 (py * w + px) = pixelAt l2 (py * w + px)).
  { intros px py Hx Hy. unfold pixelAt. rewrite Heq by assumption. reflexivity. }
  unfold cellColor. cbv zeta. rewrite (boxAcc_ext l1 l2) by exact Hpix.
  destruct (count (boxAcc l2 w h sx sy ox oy gridX gridY) >? 0)%Z; [reflexivity|].
  pose proof (Clamp_inside (RoundToInt (ox + IZR gridX * sx + sx * (1 / 2))) 0 (w - 1)).
  pose proof (Clamp_inside (RoundToInt (oy + IZR gridY * sy + sy * (1 / 2))) 0 (h - 1)).
  apply Hpix; lia.
Qed.

Lemma cellColor_reads_inside_witness :
  (1 <= 2)%Z /\
  (forall px py, (0 <= px < 2)%Z -> (0 <= py < 2)%Z ->
     pixels2 !! Z.to_nat (py * 2 + px)
     = (pixels2 ++ [mkRGBA 0 0 0 0]) !! Z.to_nat (py * 2 + px)) /\
  cellColor pixels2 2 2 2 2 0 0 0 0 = cellColor (pixels2 ++ [mkRGBA 0 0 0 0]) 2 2 2 2 0 0 0 0.
Proof.
  assert (H2 : (1 <= 2)%Z) by lia.
  assert (Heq : forall px py, (0 <= px < 2)%Z -> (0 <= py < 2)%Z ->
     pixels2 !! Z.to_nat (py * 2 + px)
     = (pixels2 ++ [mkRGBA 0 0 0 0]) !! Z.to_nat (py * 2 + px)).
  { intros px py Hx Hy. rewrite lookup_app_l; [reflexivity|]. cbn [pixels2 length]. lia. }
  split; [exact H2|]. split; [exact Heq|].
  exact (cellColor_reads_inside pixels2 (pixels2 ++ [mkRGBA 0 0 0 0]) 2 2 2 2 0 0 0 0
           H2 H2 Heq).
Defined.

(** X23.  If the array holds [w * h] pixels whose channels all lie in
    [[lo, hi]], so do the channels of every cell colour: the box filter
    is a mean of pixels of the image and the fallback is one of them. *)
Theorem cellColor_within_range (srcPixels : list Color) (w h : Z) (sx sy ox oy : R)
  (gridX gridY : Z) (lo hi : R) :
  (1 <= w)%Z -> (1 <= h)%Z ->
  length srcPixels = Z.to_nat (w * h) ->
  Forall (channelsWithin lo hi) srcPixels ->
  channelsWithin lo hi (cellColor srcPixels w h sx sy ox oy gridX gridY).
Proof.
  intros Hw Hh Hlen Hall.
  assert (Hpix : forall px py, (0 <= px < w)%Z -> (0 <= py < h)%Z ->
            channelsWithin lo hi (pixelAt srcPixels (py * w + px))).
  { intros px py Hx Hy. unfold pixelAt.
    destruct (srcPixels !! Z.to_nat (py * w + px)) as [c|] eqn:Hc.
    - cbn [default]. rewrite Forall_forall in Hall. apply Hall.
      apply list_elem_of_lookup. eauto.
    - apply lookup_ge_None in Hc. rewrite Hlen in Hc.
      pose proof (pixel_index_lt w h px py Hx Hy). lia. }
  pose proof (boxAcc_invariant
    (fun acc => (0 <= count acc)%Z
                /\ lo * IZR (count acc) <= rSum acc <= hi * IZR (count acc)
                /\ lo * IZR (count acc) <= gSum acc <= hi * IZR (count acc)
                /\ lo * IZR (count acc) <= bSum acc <= hi * IZR (count acc)
                /\ lo * IZR (count acc) <= aSum acc <= hi * IZR (count acc))
    srcPixels w h sx sy ox oy gridX gridY) as Hinv.
  cbv beta in Hinv. destruct Hinv as (C0 & Cr & Cg & Cb & Ca).
  { cbn [count rSum gSum bSum aSum]. split; [lia|]. repeat split; lra. }
  { intros acc px py Hx Hy (S0 & Sr & Sg & Sb & Sa). cbv zeta.
    destruct (Hpix px py Hx Hy) as (Tr & Tg & Tb & Ta).
    cbn [count rSum gSum bSum aSum]. rewrite plus_IZR.
    split; [lia|]. repeat split; lra. }
  unfold cellColor. cbv zeta.
  set (acc := boxAcc srcPixels w h sx sy ox oy gridX gridY) in *.
  destruct (Z.gtb_spec (count acc) 0) as [Hpos|Hzero].
  - assert (Hc : 0 < IZR (count acc)) by (apply IZR_lt; lia).
    unfold channelsWithin. cbn [red green blue alpha].
    repeat split; apply (MainExtra.scaled_within lo hi _ (IZR (count acc))); lra.
  - pose proof (Clamp_inside (RoundToInt (ox + IZR gridX * sx + sx * (1 / 2))) 0 (w - 1)).
    pose proof (Clamp_inside (RoundToInt (oy + IZR gridY * sy + sy * (1 / 2))) 0 (h - 1)).
    apply Hpix; lia.
Qed.

Lemma cellColor_within_range_witness :
  (1 <= 2)%Z /\ length pixels2 = Z.to_nat (2 * 2) /\
  Forall (channelsWithin 0 1) pixels2 /\
  channelsWithin 0 1 (cellColor pixels2 2 2 2 2 0 0 0 0).
Proof.
  assert (H2 : (1 <= 2)%Z) by lia.
  assert (Hlen : length pixels2 = Z.to_nat (2 * 2)) by reflexivity.
  assert (Hall : Forall (channelsWithin 0 1) pixels2).
  { unfold pixels2. apply Forall_forall. intros c Hc.
    repeat (apply elem_of_cons in Hc as [ -> | Hc ]);
      [ | | | | apply elem_of_nil in Hc; destruct Hc ];
      unfold channelsWithin; cbn [red green blue alpha]; lra. }
  split; [exact H2|]. split; [exact Hlen|]. split; [exact Hall|].
  exact (cellColor_within_range pixels2 2 2 2 2 0 0 0 0 0 1 H2 H2 Hlen Hall).
Defined.

(** ** The preview on a grid of single pixels *)

Lemma boxAcc_empty_columns (srcPixels : list Color) (w h : Z) (sx sy ox oy : R)
  (gridX gridY : Z) :
  (FloorToInt (ox + IZR gridX * sx + sx * (1 / 2) + sx * (3 / 10))
   < CeilToInt (ox + IZR gridX * sx + sx * (1 / 2) - sx * (3 / 10)))%Z ->
  boxAcc srcPixels w h sx sy ox oy gridX gridY = mkBoxAcc 0 0 0 0 0.
Proof.
  intros Hempty. unfold boxAcc. cbv zeta.
  generalize (mkBoxAcc 0 0 0 0 0).
  induction (Analyzer.range _ _) as [|py ys IH]; intros acc; cbn [fold_left];
    [reflexivity|].
  replace (boxOuter _ _ _ _ _ acc py) with acc; [apply IH|].
  unfold boxOuter. destruct ((py <? 0) || (py >=? h))%Z; [reflexivity|].
  cbv zeta. rewrite (range_nil _ _ Hempty). reflexivity.
Qed.

Lemma RoundToInt_half (g : Z) : RoundToInt (0 + IZR g * 1 + 1 * (1 / 2)) = (g + g mod 2)%Z.
Proof.
  unfold RoundToInt. cbv zeta.
  rewrite (Zfloor_eq g) by lra.
  rewrite decide_False by lra. rewrite decide_False by lra.
  rewrite Zmod_even. destruct (Z.even g); lia.
Qed.

Lemma unit_cell_colour (srcPixels : list Color) (w h gridX gridY : Z) :
  cellColor srcPixels w h 1 1 0 0 gridX gridY
  = pixelAt srcPixels (Clamp (gridY + gridY mod 2) 0 (h - 1) * w
                       + Clamp (gridX + gridX mod 2) 0 (w - 1)).
Proof.
  rewrite cellColor_fallback.
  - rewrite !RoundToInt_half. reflexivity.
  - rewrite boxAcc_empty_columns; [cbn [count]; lia|].
    unfold FloorToInt, CeilToInt.
    rewrite (Zfloor_eq gridX) by lra.
    rewrite (MainFacts.Zceil_eq (gridX + 1)) by (rewrite plus_IZR; lra).
    lia.
Qed.

Lemma clampScale_le_1 (s : R) : s <= 1 -> clampScale s = 1.
Proof. intros H. unfold clampScale. destruct (decide (s < 1)); lra. Qed.

Lemma gridIndex_unit (p : Z) : gridIndex p 0 1 = p.
Proof. unfold gridIndex, FloorToInt. apply Zfloor_eq. lra. Qed.

(** X24.  When the detected scales are at most 1 and the offsets 0 (what
    the analysis returns for a signal without edges), every cell is one
    pixel, its box is empty, and the fallback rounds the centre
    [x + 0.5] to the even neighbour: the preview shows at [(x, y)] the
    source pixel at [(x + x mod 2, y + y mod 2)], clamped to the image,
    which for an odd [x] or [y] is a neighbour of the pixel [(x, y)]. *)
Theorem unit_grid_preview_takes_even_neighbour (srcPixels : list Color) (w h : Z)
  (res : ResolutionResult) (x y : Z) :
  scaleX res <= 1 -> scaleY res <= 1 -> offsetX res = 0 -> offsetY res = 0 ->
  (0 <= x < w)%Z -> (0 <= y < h)%Z ->
  dstPixels (preview (ReconstructImage srcPixels w h res)) !! Z.to_nat (y * w + x)
  = Some (pixelAt srcPixels (Clamp (y + y mod 2) 0 (h - 1) * w
                             + Clamp (x + x mod 2) 0 (w - 1))).
Proof.
  intros Hsx Hsy Hox Hoy Hx Hy.
  unfold ReconstructImage. cbv zeta. cbn [preview].
  rewrite (clampScale_le_1 _ Hsx), (clampScale_le_1 _ Hsy), Hox, Hoy.
  destruct (previewPass_correct srcPixels w h 1 1 0 0) as (_ & _ & _ & Hd).
  rewrite (Hd x y (conj Hx Hy)).
  rewrite !gridIndex_unit, unit_cell_colour. reflexivity.
Qed.

Lemma unit_grid_preview_takes_even_neighbour_witness :
  dstPixels (preview (ReconstructImage (pixels2 ++ pixels2) 4 2
                        (mkResolutionResult 1 1 0 0 0 0))) !! Z.to_nat (0 * 4 + 1)
  = Some (pixelAt (pixels2 ++ pixels2) (Clamp (0 + 0 mod 2) 0 (2 - 1) * 4
                                        + Clamp (1 + 1 mod 2) 0 (4 - 1))).
Proof.
  apply (unit_grid_preview_takes_even_neighbour (pixels2 ++ pixels2) 4 2
           (mkResolutionResult 1 1 0 0 0 0) 1 0);
    cbn [scaleX scaleY offsetX offsetY]; first [lra | lia | reflexivity].
Defined.

(** ** The rectangle the texture is drawn into *)

Lemma aspect_cross (a b c d : R) :
  0 < b -> 0 < d -> (c / d > a / b <-> c * b > a * d).
Proof.
  intros Hb Hd.
  assert (Hdb : 0 < d * b) by (apply Rmult_lt_0_compat; assumption).
  assert (E1 : c / d * (d * b) = c * b) by (field; lra).
  assert (E2 : a / b * (d * b) = a * d) by (field; lra).
  split; intros H.
  - rewrite <- E1, <- E2. apply Rmult_gt_compat_r; assumption.
  - apply Rmult_lt_reg_r with (d * b); [exact Hdb|]. rewrite E1, E2. exact H.
Qed.

Lemma OnGUI_rect_spec (sw sh tw th : Z) :
  (0 < sw)%Z -> (0 < sh)%Z -> (0 < tw)%Z -> (0 < th)%Z ->
  let r := OnGUI_rect sw sh tw th in
  0 <= Rect_x r /\ 0 <= Rect_y r
  /\ 0 < Rect_width r /\ 0 < Rect_height r
  /\ Rect_x r + Rect_width r + Rect_x r = IZR sw
  /\ Rect_y r + Rect_height r + Rect_y r = IZR sh
  /\ Rect_width r * IZR th = Rect_height r * IZR tw
  /\ (Rect_width r = IZR sw \/ Rect_height r = IZR sh).
Proof.
  intros Hsw Hsh Htw Hth.
  apply IZR_lt in Hsw, Hsh, Htw, Hth.
  set (a := IZR sw) in *. set (b := IZR sh) in *.
  set (c := IZR tw) in *. set (d := IZR th) in *.
  unfold OnGUI_rect. fold a b c d. cbv zeta.
  destruct (decide (c / d > a / b)) as [Hwide|Htall].
  - cbn [Rect_x Rect_y Rect_width Rect_height].
    apply (proj1 (aspect_cross a b c d Hsh Hth)) in Hwide.
    assert (E : a / (c / d) = a * d / c) by (field; lra).
    rewrite E.
    assert (Hpos : 0 < a * d / c).
    { apply Rdiv_lt_0_compat; [apply Rmult_lt_0_compat; assumption|assumption]. }
    assert (Hfit : a * d / c < b).
    { apply Rmult_lt_reg_r with c; [assumption|].
      replace (a * d / c * c) with (a * d) by (field; lra). lra. }
    split; [lra|]. split; [lra|]. split; [lra|]. split; [lra|].
    split; [lra|]. split; [lra|]. split; [field; lra|]. left. reflexivity.
  - cbn [Rect_x Rect_y Rect_width Rect_height].
    assert (Hnarrow : c * b <= a * d).
    { destruct (Rle_dec (c * b) (a * d)) as [Hle|Hgt]; [exact Hle|].
      exfalso. apply Htall. apply (proj2 (aspect_cross a b c d Hsh Hth)). lra. }
    assert (Hpos : 0 < b * (c / d)).
    { apply Rmult_lt_0_compat; [assumption|].
      apply Rdiv_lt_0_compat; assumption. }
    assert (Hfit : b * (c / d) <= a).
    { apply Rmult_le_reg_r with d; [assumption|].
      replace (b * (c / d) * d) with (c * b) by (field; lra). lra. }
    split; [lra|]. split; [lra|]. split; [lra|]. split; [lra|].
    split; [lra|]. split; [lra|]. split; [field; lra|]. right. reflexivity.
Qed.

(** X25.  For a screen and a texture of positive size the rectangle of
    [OnGUI] lies inside the screen, is centred in it, has the aspect ratio
    of the texture, and fills the screen along one axis. *)
Theorem OnGUI_rect_letterbox (sw sh tw th : Z) :
  (0 < sw)%Z -> (0 < sh)%Z -> (0 < tw)%Z -> (0 < th)%Z ->
  let r := OnGUI_rect sw sh tw th in
  (0 <= Rect_x r /\ Rect_x r + Rect_width r <= IZR sw)
  /\ (0 <= Rect_y r /\ Rect_y r + Rect_height r <= IZR sh)
  /\ Rect_x r = IZR sw - (Rect_x r + Rect_width r)
  /\ Rect_y r = IZR sh - (Rect_y r + Rect_height r)
  /\ Rect_width r / Rect_height r = IZR tw / IZR th
  /\ (Rect_width r = IZR sw \/ Rect_height r = IZR sh).
Proof.
  intros Hsw Hsh Htw Hth.
  destruct (OnGUI_rect_spec sw sh tw th Hsw Hsh Htw Hth)
    as (Hx & Hy & Hw & Hh & Hcx & Hcy & Hasp & Hfill).
  cbv zeta. apply IZR_lt in Hth.
  split; [lra|]. split; [lra|]. split; [lra|]. split; [lra|].
  split; [|exact Hfill].
  apply Rmult_eq_reg_r with (Rect_height (OnGUI_rect sw sh tw th) * IZR th).
  - transitivity (Rect_width (OnGUI_rect sw sh tw th) * IZR th); [field; lra|].
    rewrite Hasp. field. lra.
  - apply Rmult_integral_contrapositive_currified; lra.
Qed.

Lemma OnGUI_rect_letterbox_witness :
  let r := OnGUI_rect 1920 1080 512 512 in
  (0 <= Rect_x r /\ Rect_x r + Rect_width r <= IZR 1920)
  /\ (0 <= Rect_y r /\ Rect_y r + Rect_height r <= IZR 1080)
  /\ Rect_x r = IZR 1920 - (Rect_x r + Rect_width r)
  /\ Rect_y r = IZR 1080 - (Rect_y r + Rect_height r)
  /\ Rect_width r / Rect_height r = IZR 512 / IZR 512
  /\ (Rect_width r = IZR 1920 \/ Rect_height r = IZR 1080).
Proof.
  apply (OnGUI_rect_letterbox 1920 1080 512 512); lia.
Defined.

(** ** The view toggle *)

Lemma Update_timer (haveBoth : bool) (deltaTime : R) (st : ViewState) :
  0 <= deltaTime -> 0 <= toggleTimer st < ToggleInterval ->
  0 <= toggleTimer (Update haveBoth deltaTime st) < ToggleInterval.
Proof.
  intros Hd Ht. unfold Update, ToggleInterval in *. destruct haveBoth; [|exact Ht].
  cbv zeta. destruct (decide (toggleTimer st + deltaTime >= 1));
    cbn [toggleTimer]; lra.
Qed.

Lemma frames_timer (haveBoth : bool) (deltas : list R) :
  Forall (fun deltaTime => 0 <= deltaTime) deltas ->
  forall st, 0 <= toggleTimer st < ToggleInterval ->
             0 <= toggleTimer (frames haveBoth deltas st) < ToggleInterval.
Proof.
  unfold frames. induction 1 as [|deltaTime deltas Hd _ IH]; intros st Ht;
    cbn [fold_left]; [exact Ht|].
  apply IH. apply Update_timer; assumption.
Qed.

Lemma frames_hold (deltas : list R) :
  Forall (fun deltaTime => 0 <= deltaTime) deltas ->
  forall st, toggleTimer st + fold_right Rplus 0 deltas < ToggleInterval ->
    frames true deltas st
    = mkViewState (showOriginal st) (toggleTimer st + fold_right Rplus 0 deltas).
Proof.
  unfold frames, ToggleInterval.
  induction 1 as [|deltaTime deltas Hd Hall IH]; intros st Ht;
    cbn [fold_left fold_right] in *.
  - rewrite Rplus_0_r. destruct st; reflexivity.
  - assert (Hrest : 0 <= fold_right Rplus 0 deltas).
    { clear -Hall. induction Hall as [|e l He _ IHl]; cbn [fold_right]; lra. }
    unfold Update at 2. unfold ToggleInterval. cbv zeta.
    rewrite decide_False by lra.
    rewrite IH by (cbn [toggleTimer]; lra).
    cbn [showOriginal toggleTimer]. f_equal. lra.
Qed.

Lemma frames_app (haveBoth : bool) (l1 l2 : list R) (st : ViewState) :
  frames haveBoth (l1 ++ l2) st = frames haveBoth l2 (frames haveBoth l1 st).
Proof. unfold frames. apply fold_left_app. Qed.

(** X26.  While both textures are shown in turn the timer stays in
    [[0, ToggleInterval)]; the view does not change as long as the frame
    times since the timer was [t] add up to less than
    [ToggleInterval - t], and it changes, with the timer back at 0, on the
    first frame that brings the total to [ToggleInterval]. *)
Theorem view_held_for_interval (deltas : list R) (deltaTime : R) (st : ViewState) :
  Forall (fun d => 0 <= d) deltas -> 0 <= deltaTime ->
  0 <= toggleTimer st < ToggleInterval ->
  let total := toggleTimer st + fold_right Rplus 0 deltas in
  0 <= toggleTimer (frames true deltas st) < ToggleInterval
  /\ (total < ToggleInterval ->
      showOriginal (frames true deltas st) = showOriginal st
      /\ (total + deltaTime >= ToggleInterval ->
          frames true (deltas ++ [deltaTime]) st
          = mkViewState (negb (showOriginal st)) 0)).
Proof.
  intros Hall Hd Ht. cbv zeta. split; [apply frames_timer; assumption|].
  intros Htotal. rewrite frames_app, (frames_hold deltas Hall st Htotal).
  split; [reflexivity|]. intros Hflip.
  unfold frames. cbn [fold_left]. unfold Update. cbv zeta.
  cbn [toggleTimer showOriginal]. rewrite decide_True by exact Hflip. reflexivity.
Qed.

Lemma view_held_for_interval_witness :
  Forall (fun d => 0 <= d) [1 / 2; 1 / 4] /\ 0 <= 1 / 2 /\
  0 <= toggleTimer afterReconstruct < ToggleInterval /\
  (toggleTimer afterReconstruct + fold_right Rplus 0 [1 / 2; 1 / 4] < ToggleInterval) /\
  (toggleTimer afterReconstruct + fold_right Rplus 0 [1 / 2; 1 / 4] + 1 / 2
   >= ToggleInterval) /\
  frames true ([1 / 2; 1 / 4] ++ [1 / 2]) afterReconstruct = mkViewState true 0.
Proof.
  assert (Hall : Forall (fun d => 0 <= d) [1 / 2; 1 / 4]) by (repeat constructor; lra).
  assert (Hd : 0 <= 1 / 2) by lra.
  assert (Ht : 0 <= toggleTimer afterReconstruct < ToggleInterval)
    by (unfold afterReconstruct, ToggleInterval; cbn [toggleTimer]; lra).
  assert (Hlt : toggleTimer afterReconstruct + fold_right Rplus 0 [1 / 2; 1 / 4]
                < ToggleInterval)
    by (unfold afterReconstruct, ToggleInterval; cbn [toggleTimer fold_right]; lra).
  assert (Hge : toggleTimer afterReconstruct + fold_right Rplus 0 [1 / 2; 1 / 4] + 1 / 2
                >= ToggleInterval)
    by (unfold afterReconstruct, ToggleInterval; cbn [toggleTimer fold_right]; lra).
  split; [exact Hall|]. split; [exact Hd|]. split; [exact Ht|].
  split; [exact Hlt|]. split; [exact Hge|].
  destruct (view_held_for_interval [1 / 2; 1 / 4] (1 / 2) afterReconstruct Hall Hd Ht)
    as (_ & Hrun).
  destruct (Hrun Hlt) as (_ & Hflip). exact (Hflip Hge).
Defined.

End UnityExtra.

(** * The drop queue of src/Unity/WindowsFileDrop.cs *)
Module FileDropFacts.

Import WindowsFileDrop.






End FileDropFacts.
